(** * NFS LAYOUT_WCC client: codec, transport and resilience layer

    A shallow embedding of the Python sources
    [XDR-Encode-Decode.py], [NetworkTransport.py], [ErrorRecovery.py]
    and [ServerIntegration.py], with the properties of the specification
    stated and settled on it, and further properties of the code.

    Conventions of the embedding:
    - a Python [int] is a [Z]; a [bytes] value is a [list byte];
    - a Python [str] that is put on the wire is the list of its code
      points ([list Z]); a [str] that is only a dictionary key is a
      [string];
    - an exception is a value of [exn]; a method that can raise returns a
      [result];
    - [datetime] values are counted in microseconds (their resolution),
      as [Z]. *)

From Stdlib Require Import ZArith QArith Qminmax Lia List Strings.Byte.
From stdpp Require Import base list gmap strings pretty.

Local Open Scope Z_scope.

(** ** Exceptions and results *)

(** [NFSType] of XDR-Encode-Decode.py. *)
Inductive NFSType := LAYOUT_WCC | DEVICEID | STATEID | FILEHANDLE | ATTRIBUTE.

Definition NFSType_value (t : NFSType) : Z :=
  match t with
  | LAYOUT_WCC => 1 | DEVICEID => 2 | STATEID => 3
  | FILEHANDLE => 4 | ATTRIBUTE => 5
  end.

(** The exceptions the codec can raise.  [XDRError] carries a message in
    the source; the constructors below are its messages. *)
Inductive exn :=
| XDRError_end_of_data                      (* "Unexpected end of data" *)
| XDRError_invalid_type (t : NFSType) (got : Z)  (* "Invalid ... type: {got}" *)
| XDRError_fixed_opaque (length : Z)        (* "Fixed opaque data must be exactly {length} bytes" *)
| struct_error                              (* struct.pack: value out of range *)
| UnicodeEncodeError
| UnicodeDecodeError
| XDRError_failed_encode (cause : exn)      (* "Failed to encode LAYOUT_WCC: {cause}" *)
| XDRError_failed_decode (cause : exn).     (* "Failed to decode LAYOUT_WCC: {cause}" *)

Inductive result (A : Type) :=
| Ok (a : A)
| Err (e : exn).
Arguments Ok {A} a.
Arguments Err {A} e.

Definition is_Err {A} (r : result A) : Prop :=
  match r with Err _ => True | Ok _ => False end.

(** ** Bytes and big-endian integers ([struct.pack] / [struct.unpack]) *)

Module Wire.

Definition bytes := list byte.

Definition Z_of_byte (b : byte) : Z := Z.of_N (Byte.to_N b).

Definition byte_of_Z (z : Z) : byte :=
  match Byte.of_N (Z.to_N z) with
  | Some b => b
  | None => Byte.x00
  end.

(** [len(b)] *)
Definition len {A} (l : list A) : Z := Z.of_nat (length l).

(** [b'\0' * n] *)
Definition zeros (n : Z) : bytes := replicate (Z.to_nat n) Byte.x00.

(** [data[lo:hi]] for [0 <= lo]. *)
Definition slice (data : bytes) (lo hi : Z) : bytes :=
  take (Z.to_nat (hi - lo)) (drop (Z.to_nat lo) data).

Fixpoint le_digits (n : nat) (v : Z) : bytes :=
  match n with
  | O => []
  | S n' => byte_of_Z (v mod 256) :: le_digits n' (v / 256)
  end.

(** The [n] bytes of [v], most significant first. *)
Definition be_pack (n : nat) (v : Z) : bytes := rev (le_digits n v).

Definition be_unpack (bs : bytes) : Z :=
  fold_left (fun acc b => acc * 256 + Z_of_byte b) bs 0.

(** [struct.pack("!I", v)] and [struct.pack("!Q", v)]: the value must fit. *)
Definition pack_I (v : Z) : result bytes :=
  if (0 <=? v) && (v <? 2 ^ 32) then Ok (be_pack 4 v) else Err struct_error.

Definition pack_Q (v : Z) : result bytes :=
  if (0 <=? v) && (v <? 2 ^ 64) then Ok (be_pack 8 v) else Err struct_error.

(** ** [str.encode()], [bytes.decode()] (UTF-8, strict) and [bytes.hex()] *)

Definition str := list Z.

Definition utf8_char (c : Z) : result bytes :=
  if c <? 0 then Err UnicodeEncodeError
  else if c <? 0x80 then Ok [byte_of_Z c]
  else if c <? 0x800 then
    Ok [byte_of_Z (0xC0 + c / 64); byte_of_Z (0x80 + c mod 64)]
  else if c <? 0x10000 then
    if (0xD800 <=? c) && (c <=? 0xDFFF) then Err UnicodeEncodeError
    else Ok [byte_of_Z (0xE0 + c / 4096);
             byte_of_Z (0x80 + (c / 64) mod 64);
             byte_of_Z (0x80 + c mod 64)]
  else if c <=? 0x10FFFF then
    Ok [byte_of_Z (0xF0 + c / 262144);
        byte_of_Z (0x80 + (c / 4096) mod 64);
        byte_of_Z (0x80 + (c / 64) mod 64);
        byte_of_Z (0x80 + c mod 64)]
  else Err UnicodeEncodeError.

Fixpoint str_encode (s : str) : result bytes :=
  match s with
  | [] => Ok []
  | c :: s' =>
    match utf8_char c with
    | Err e => Err e
    | Ok bs =>
      match str_encode s' with
      | Err e => Err e
      | Ok rest => Ok (bs ++ rest)
      end
    end
  end.

(** Value of a continuation byte [10xxxxxx], if it is one. *)
Definition cont (b : byte) : option Z :=
  let z := Z_of_byte b in
  if (0x80 <=? z) && (z <=? 0xBF) then Some (z - 0x80) else None.

Definition cons_char (c : Z) (r : result str) : result str :=
  match r with Ok s => Ok (c :: s) | Err e => Err e end.

Fixpoint bytes_decode (bs : bytes) : result str :=
  match bs with
  | [] => Ok []
  | b0 :: r0 =>
    let z0 := Z_of_byte b0 in
    if z0 <? 0x80 then cons_char z0 (bytes_decode r0)
    else if z0 <? 0xC2 then Err UnicodeDecodeError
    else if z0 <? 0xE0 then
      match r0 with
      | b1 :: r1 =>
        match cont b1 with
        | Some c1 => cons_char ((z0 - 0xC0) * 64 + c1) (bytes_decode r1)
        | None => Err UnicodeDecodeError
        end
      | _ => Err UnicodeDecodeError
      end
    else if z0 <? 0xF0 then
      match r0 with
      | b1 :: b2 :: r2 =>
        match cont b1, cont b2 with
        | Some c1, Some c2 =>
          let c := (z0 - 0xE0) * 4096 + c1 * 64 + c2 in
          if (c <? 0x800) || ((0xD800 <=? c) && (c <=? 0xDFFF))
          then Err UnicodeDecodeError
          else cons_char c (bytes_decode r2)
        | _, _ => Err UnicodeDecodeError
        end
      | _ => Err UnicodeDecodeError
      end
    else if z0 <? 0xF5 then
      match r0 with
      | b1 :: b2 :: b3 :: r3 =>
        match cont b1, cont b2, cont b3 with
        | Some c1, Some c2, Some c3 =>
          let c := (z0 - 0xF0) * 262144 + c1 * 4096 + c2 * 64 + c3 in
          if (c <? 0x10000) || (0x10FFFF <? c)
          then Err UnicodeDecodeError
          else cons_char c (bytes_decode r3)
        | _, _, _ => Err UnicodeDecodeError
        end
      | _ => Err UnicodeDecodeError
      end
    else Err UnicodeDecodeError
  end.

(** One lowercase hexadecimal digit, as a code point. *)
Definition hex_digit (d : Z) : Z := if d <? 10 then 48 + d else 87 + d.

(** [bytes.hex()] *)
Fixpoint hex (bs : bytes) : str :=
  match bs with
  | [] => []
  | b :: r =>
    hex_digit (Z_of_byte b / 16) :: hex_digit (Z_of_byte b mod 16) :: hex r
  end.

(** [bytes.ljust(width, b'\0')]: pads on the right, never shortens. *)
Definition ljust (data : bytes) (width : Z) : bytes :=
  data ++ zeros (width - len data).

End Wire.

(** ** The codec of XDR-Encode-Decode.py *)

Module XDR.
Import Wire.

(** The layout structure.  The source passes dictionaries and reads them
    with [dict.get(key, default)]: a missing key behaves as its default
    ([[]], [''], [b''], [0], [{}]), which is how a record with that value
    in the field behaves.  Only the attribute dictionary is tested for
    the presence of its keys. *)
Record StateId := { seqid : Z; other : bytes }.
Record Attributes := { attr_size : option Z; attr_mtime : option Z }.
Record DataServer := {
  device_id : str;
  state_id : StateId;
  file_handles : list str;
  attributes : Attributes
}.
Record Mirror := { mirror_id : str; data_servers : list DataServer }.
Record Layout := { mirrors : list Mirror }.

(** [XDRPadding.calculate] *)
Definition calculate (length : Z) : Z := (4 - (length mod 4)) mod 4.

(** *** XDREncoder

    Every method only appends to [self._buffer]; a method is modelled by
    the bytes it appends, or the exception it raises. *)
Definition Encoder := result bytes.

Definition extend (bs : bytes) : Encoder := Ok bs.

Definition andThen (a b : Encoder) : Encoder :=
  match a with
  | Err e => Err e
  | Ok x => match b with Err e => Err e | Ok y => Ok (x ++ y) end
  end.

Notation "a >>> b" := (andThen a b) (at level 62, right associativity).

Definition _encode_uint32 (value : Z) : Encoder := pack_I value.

Definition _encode_uint64 (value : Z) : Encoder := pack_Q value.

Definition _encode_string (value : str) : Encoder :=
  match str_encode value with
  | Err e => Err e
  | Ok encoded =>
    _encode_uint32 (len encoded) >>>
    extend encoded >>>
    extend (zeros (calculate (len encoded)))
  end.

Definition _encode_fixed_opaque (data : bytes) (length : Z) : Encoder :=
  if negb (len data =? length) then Err (XDRError_fixed_opaque length)
  else extend data.

Definition _encode_variable_opaque (data : bytes) : Encoder :=
  _encode_uint32 (len data) >>>
  extend data >>>
  extend (zeros (calculate (len data))).

(** [for item in items: encoder_func(item)] *)
Fixpoint encode_items {A} (encoder_func : A -> Encoder) (items : list A)
  : Encoder :=
  match items with
  | [] => Ok []
  | item :: rest => encoder_func item >>> encode_items encoder_func rest
  end.

Definition _encode_array {A} (items : list A) (encoder_func : A -> Encoder)
  : Encoder :=
  _encode_uint32 (len items) >>> encode_items encoder_func items.

(** ['key' in attrs] *)
Definition present {A} (o : option A) : bool :=
  match o with Some _ => true | None => false end.

Definition _calculate_attribute_mask (attrs : Attributes) : Z :=
  let mask := 0 in
  let mask := if present (attr_size attrs) then Z.lor mask 0x1 else mask in
  let mask := if present (attr_mtime attrs) then Z.lor mask 0x2 else mask in
  mask.

(** [int(attrs['mtime'])] is the identity on an [int]. *)
Definition _encode_attributes (attrs : Attributes) : Encoder :=
  _encode_uint32 (NFSType_value ATTRIBUTE) >>>
  _encode_uint32 (_calculate_attribute_mask attrs) >>>
  (match attr_size attrs with
   | Some v => _encode_uint64 v
   | None => Ok []
   end) >>>
  (match attr_mtime attrs with
   | Some v => _encode_uint64 v
   | None => Ok []
   end).

Definition _encode_filehandle (handle : str) : Encoder :=
  _encode_uint32 (NFSType_value FILEHANDLE) >>>
  match str_encode handle with
  | Err e => Err e
  | Ok data => _encode_variable_opaque data
  end.

Definition _encode_stateid (sid : StateId) : Encoder :=
  _encode_uint32 (NFSType_value STATEID) >>>
  _encode_uint32 (seqid sid) >>>
  _encode_fixed_opaque (ljust (other sid) 12) 12.

Definition _encode_deviceid (dev : str) : Encoder :=
  _encode_uint32 (NFSType_value DEVICEID) >>>
  match str_encode dev with
  | Err e => Err e
  | Ok data => _encode_fixed_opaque data 16
  end.

Definition _encode_data_server (server : DataServer) : Encoder :=
  _encode_deviceid (device_id server) >>>
  _encode_stateid (state_id server) >>>
  _encode_array (file_handles server) _encode_filehandle >>>
  _encode_attributes (attributes server).

Definition _encode_mirror (mirror : Mirror) : Encoder :=
  _encode_string (mirror_id mirror) >>>
  _encode_array (data_servers mirror) _encode_data_server.

(** [encode_layout_wcc]: [self_buffer] is the encoder's buffer when the
    method is called (empty for a fresh [XDREncoder()]); the method
    returns [bytes(self._buffer)], and wraps any exception in an
    [XDRError]. *)
Definition encode_layout_wcc (self_buffer : bytes) (layout : Layout)
  : result bytes :=
  match _encode_uint32 (NFSType_value LAYOUT_WCC) >>>
        _encode_array (mirrors layout) _encode_mirror with
  | Ok bs => Ok (self_buffer ++ bs)
  | Err e => Err (XDRError_failed_encode e)
  end.

(** *** XDRDecoder

    A method runs on [self._data] and [self._offset] and gives a value
    and the new offset, or raises. *)
Definition Decoder (A : Type) := bytes -> Z -> result (A * Z).

Definition ret {A} (a : A) : Decoder A := fun _ offset => Ok (a, offset).

Definition raise {A} (e : exn) : Decoder A := fun _ _ => Err e.

Definition bind {A B} (m : Decoder A) (k : A -> Decoder B) : Decoder B :=
  fun data offset =>
    match m data offset with
    | Err e => Err e
    | Ok (a, offset') => k a data offset'
    end.

Notation "'let*' x := m 'in' k" := (bind m (fun x => k))
  (at level 10, x name, m at level 100, k at level 200).

Definition _read_bytes (length : Z) : Decoder bytes :=
  fun data offset =>
    if offset + length >? len data then Err XDRError_end_of_data
    else Ok (slice data offset (offset + length), offset + length).

Definition _skip_bytes (length : Z) : Decoder unit :=
  fun data offset =>
    if offset + length >? len data then Err XDRError_end_of_data
    else Ok (tt, offset + length).

Definition _decode_uint32 : Decoder Z :=
  let* b := _read_bytes 4 in ret (be_unpack b).

Definition _decode_uint64 : Decoder Z :=
  let* b := _read_bytes 8 in ret (be_unpack b).

Definition _decode_fixed_opaque (length : Z) : Decoder bytes :=
  _read_bytes length.

Definition _decode_variable_opaque : Decoder bytes :=
  let* length := _decode_uint32 in
  let* data := _read_bytes length in
  let* _ := _skip_bytes (calculate length) in
  ret data.

Definition _decode_string : Decoder str :=
  let* length := _decode_uint32 in
  let* data := _read_bytes length in
  let* _ := _skip_bytes (calculate length) in
  match bytes_decode data with
  | Ok s => ret s
  | Err e => raise e
  end.

(** [[decoder_func() for _ in range(n)]] *)
Fixpoint decode_items {A} (decoder_func : Decoder A) (n : nat)
  : Decoder (list A) :=
  match n with
  | O => ret []
  | S n' =>
    let* item := decoder_func in
    let* rest := decode_items decoder_func n' in
    ret (item :: rest)
  end.

Definition _decode_array {A} (decoder_func : Decoder A) : Decoder (list A) :=
  let* length := _decode_uint32 in
  decode_items decoder_func (Z.to_nat length).

(** Reads a type discriminant and checks it. *)
Definition expect_type (t : NFSType) : Decoder unit :=
  let* type_id := _decode_uint32 in
  if negb (type_id =? NFSType_value t) then raise (XDRError_invalid_type t type_id)
  else ret tt.

Definition _decode_attributes : Decoder Attributes :=
  let* _ := expect_type ATTRIBUTE in
  let* mask := _decode_uint32 in
  let* sz := (if negb (Z.land mask 0x1 =? 0)
              then (let* v := _decode_uint64 in ret (Some v))
              else ret None) in
  let* mt := (if negb (Z.land mask 0x2 =? 0)
              then (let* v := _decode_uint64 in ret (Some v))
              else ret None) in
  ret {| attr_size := sz; attr_mtime := mt |}.

Definition _decode_filehandle : Decoder str :=
  let* _ := expect_type FILEHANDLE in
  let* data := _decode_variable_opaque in
  ret (hex data).

Definition _decode_stateid : Decoder StateId :=
  let* _ := expect_type STATEID in
  let* s := _decode_uint32 in
  let* o := _decode_fixed_opaque 12 in
  ret {| seqid := s; other := o |}.

Definition _decode_deviceid : Decoder str :=
  let* _ := expect_type DEVICEID in
  let* data := _decode_fixed_opaque 16 in
  ret (hex data).

Definition _decode_data_server : Decoder DataServer :=
  let* dev := _decode_deviceid in
  let* sid := _decode_stateid in
  let* handles := _decode_array _decode_filehandle in
  let* attrs := _decode_attributes in
  ret {| device_id := dev; state_id := sid;
         file_handles := handles; attributes := attrs |}.

Definition _decode_mirror : Decoder Mirror :=
  let* mid := _decode_string in
  let* servers := _decode_array _decode_data_server in
  ret {| mirror_id := mid; data_servers := servers |}.

(** The body of [decode_layout_wcc], inside its [try]. *)
Definition decode_layout_wcc_body : Decoder Layout :=
  let* _ := expect_type LAYOUT_WCC in
  let* ms := _decode_array _decode_mirror in
  ret {| mirrors := ms |}.

(** [XDRDecoder(data).decode_layout_wcc()], with the final [_offset] of a
    successful run.  Any exception is wrapped in an [XDRError]. *)
Definition decode_layout_wcc_run (data : bytes) : result (Layout * Z) :=
  match decode_layout_wcc_body data 0 with
  | Ok r => Ok r
  | Err e => Err (XDRError_failed_decode e)
  end.

Definition decode_layout_wcc (data : bytes) : result Layout :=
  match decode_layout_wcc_run data with
  | Ok (layout, _) => Ok layout
  | Err e => Err e
  end.

End XDR.

(** ** The transport of NetworkTransport.py *)

Module Transport.
Import Wire.

(** [NFSTransportProtocol]: the request registry and the transaction
    counter.  A registered future is [false] while it is not done.
    [resolved] lists the [future.set_result(data)] calls, oldest first. *)
Record NFSTransportProtocol := {
  _pending_requests : gmap Z bool;
  _xid_counter : Z;
  resolved : list (Z * bytes)
}.

(** A fresh transport, as [__init__] leaves it. *)
Definition new_transport : NFSTransportProtocol :=
  {| _pending_requests := ∅; _xid_counter := 0; resolved := [] |}.

(** [_get_next_xid]: the id returned and the transport afterwards. *)
Definition _get_next_xid (self : NFSTransportProtocol)
  : Z * NFSTransportProtocol :=
  let c := (_xid_counter self + 1) mod 0xFFFFFFFF in
  (c, {| _pending_requests := _pending_requests self;
         _xid_counter := c;
         resolved := resolved self |}).

(** The transport after [n] calls of [_get_next_xid]. *)
Definition after_allocations (n : N) (self : NFSTransportProtocol)
  : NFSTransportProtocol :=
  N.iter n (fun t => snd (_get_next_xid t)) self.

(** The id handed out by allocation number [n] (counted from 1) on a
    fresh transport. *)
Definition issued (n : N) : Z :=
  fst (_get_next_xid (after_allocations (N.pred n) new_transport)).

Definition handle_response (xid : Z) (data : bytes)
  (self : NFSTransportProtocol) : NFSTransportProtocol :=
  match _pending_requests self !! xid with
  | Some false =>
    {| _pending_requests := delete xid (_pending_requests self);
       _xid_counter := _xid_counter self;
       resolved := resolved self ++ [(xid, data)] |}
  | _ => self
  end.

(** [NFSProtocolHandler].  [processed] lists the arguments of the
    [_process_message] calls, oldest first. *)
Record NFSProtocolHandler := {
  transport_protocol : NFSTransportProtocol;
  _buffer : bytes;
  _expected_length : option Z;
  processed : list bytes
}.

Definition new_handler (t : NFSTransportProtocol) : NFSProtocolHandler :=
  {| transport_protocol := t; _buffer := [];
     _expected_length := None; processed := [] |}.

(** [_process_message]: [struct.unpack] raises on fewer than 4 bytes, and
    the [except] clause swallows that. *)
Definition _process_message (message : bytes) (self : NFSProtocolHandler)
  : NFSProtocolHandler :=
  let t :=
    if len (take 4 message) =? 4
    then handle_response (be_unpack (take 4 message)) (drop 4 message)
           (transport_protocol self)
    else transport_protocol self in
  {| transport_protocol := t; _buffer := _buffer self;
     _expected_length := _expected_length self;
     processed := processed self ++ [message] |}.

(** One pass through the body of the [while] loop of [data_received]. *)
Definition loop_body (self : NFSProtocolHandler) : NFSProtocolHandler :=
  let self1 :=
    match _expected_length self with
    | None =>
      {| transport_protocol := transport_protocol self;
         _buffer := drop 4 (_buffer self);
         _expected_length := Some (be_unpack (take 4 (_buffer self)));
         processed := processed self |}
    | Some _ => self
    end in
  match _expected_length self1 with
  | Some expected =>
    if len (_buffer self1) >=? expected then
      let message := take (Z.to_nat expected) (_buffer self1) in
      let self2 :=
        _process_message message
          {| transport_protocol := transport_protocol self1;
             _buffer := drop (Z.to_nat expected) (_buffer self1);
             _expected_length := _expected_length self1;
             processed := processed self1 |} in
      {| transport_protocol := transport_protocol self2;
         _buffer := _buffer self2;
         _expected_length := None;
         processed := processed self2 |}
    else self1
  | None => self1
  end.

(** [while len(self._buffer) >= 4: ...], run for at most [fuel] passes;
    [None] when the loop is still running after [fuel] passes. *)
Fixpoint while_loop (fuel : nat) (self : NFSProtocolHandler)
  : option NFSProtocolHandler :=
  match fuel with
  | O => None
  | S fuel' =>
    if len (_buffer self) >=? 4 then while_loop fuel' (loop_body self)
    else Some self
  end.

Definition data_received (fuel : nat) (data : bytes)
  (self : NFSProtocolHandler) : option NFSProtocolHandler :=
  while_loop fuel
    {| transport_protocol := transport_protocol self;
       _buffer := _buffer self ++ data;
       _expected_length := _expected_length self;
       processed := processed self |}.

End Transport.

(** ** The resilience layer of ErrorRecovery.py *)

Module Recovery.

(** The exceptions met in ErrorRecovery.py and NetworkTransport.py:
    [NFSTransportError], the class that NetworkTransport.py declares,
    with its message; the built-in exceptions; [NameError name], raised
    when the global [name] is evaluated and nothing binds it; and
    [Exception msg] for any other exception that an operation raises. *)
Inductive py_exception :=
| NFSTransportError (msg : string)
| ConnectionError (msg : string)
| ValueError
| IndexError
| KeyError
| NameError (name : string)
| Exception (msg : string).

(** *** ErrorRecoveryManager *)

(** The delays of the configuration are Python floats; they are kept
    here as the rationals they denote.  The module as it stands never
    computes with them (see [except_clause]). *)
Record RetryConfig := {
  max_retries : Z;
  base_delay : Q;
  max_delay : Q;
  exponential_base : Q
}.

Record OperationMetrics := {
  start_time : Z;
  end_time : option Z;
  retries : Z;
  success : bool;
  error : option string
}.

(** What one [await operation(...)] does. *)
Inductive outcome (V : Type) :=
| Returns (v : V)
| Raises (e : py_exception).
Arguments Returns {V} v.
Arguments Raises {V} e.

(** What [execute_with_recovery] does: [Returned v] is [return result],
    [ReturnedNone] is falling off the end of the function. *)
Inductive completion (V : Type) :=
| Returned (v : V)
| ReturnedNone
| Raised (e : py_exception).
Arguments Returned {V} v.
Arguments ReturnedNone {V}.
Arguments Raised {V} e.

(** What the caller can observe of a run besides its completion: the
    calls of the operation. *)
Inductive event :=
| Invoke.              (* await operation(...) *)

(** The names that the top level of ErrorRecovery.py binds: its imports,
    [logger], its classes and [main]. *)
Definition module_globals : list string :=
  ["asyncio"; "time"; "Dict"; "Any"; "Optional"; "List"; "dataclass";
   "datetime"; "timedelta"; "logging"; "asynccontextmanager"; "logger";
   "RetryConfig"; "OperationMetrics"; "ErrorRecoveryManager";
   "PerformanceOptimizer"; "LRUCache"; "ConnectionManager"; "main"].

(** [except (NFSTransportError, NFSStateError) as e:], reached by the
    exception [e] of the operation.  The tuple of classes is evaluated
    when an exception reaches the clause, its names from left to right.
    [NFSTransportError] is no built-in and is not among
    [module_globals], so the evaluation raises [NameError], and that
    exception leaves the [try] statement in place of [e].  The body of
    the clause (lines 57 to 76: the retry counter, the error text, the
    back-off and the sleep) is therefore never entered, and it is not
    part of this embedding. *)
Definition except_clause (e : py_exception) : py_exception :=
  NameError "NFSTransportError".

Definition set_success (m : OperationMetrics) : OperationMetrics :=
  {| start_time := start_time m; end_time := end_time m;
     retries := retries m; success := true; error := error m |}.

Definition set_end_time (m : OperationMetrics) (t : Z) : OperationMetrics :=
  {| start_time := start_time m; end_time := Some t;
     retries := retries m; success := success m; error := error m |}.

Section Retry.
Context {V : Type}.
Variable cfg : RetryConfig.
(** [operation n] is what the call number [n] (from 0) of the operation
    does. *)
Variable operation : nat -> outcome V.

(** The [for attempt in range(max_retries)] loop, with [remaining]
    iterations to go from [attempt] on.  An iteration leaves the
    function on each of its paths: it returns what the operation
    returns, or raises what [except_clause] raises; no path goes on to
    the next iteration. *)
Definition retry_loop (remaining attempt : nat) (metrics : OperationMetrics)
  (trace : list event) : completion V * OperationMetrics * list event :=
  match remaining with
  | O => (ReturnedNone, metrics, trace)
  | S _ =>
    match operation attempt with
    | Returns v => (Returned v, set_success metrics, trace ++ [Invoke])
    | Raises e => (Raised (except_clause e), metrics, trace ++ [Invoke])
    end
  end.

(** [execute_with_recovery]; [t_start] and [t_end] are the two readings
    of [datetime.now()].  The metrics object is stored under
    [operation_id] before the first attempt and completed by the
    [finally] clause. *)
Definition execute_with_recovery
  (operation_metrics : gmap string OperationMetrics)
  (operation_id : string) (t_start t_end : Z)
  : completion V * gmap string OperationMetrics * list event :=
  let metrics :=
    {| start_time := t_start; end_time := None; retries := 0;
       success := false; error := None |} in
  match retry_loop (Z.to_nat (max_retries cfg)) 0 metrics [] with
  | (c, metrics, trace) =>
    (c, <[operation_id := set_end_time metrics t_end]> operation_metrics,
     trace)
  end.

End Retry.

(** *** LRUCache and PerformanceOptimizer *)

Section Cache.
Context {V : Type}.

(** A cache entry: [{'data': ..., 'timestamp': ..., 'ttl': ...}]. *)
Record CacheEntry := { data : V; timestamp : Z; ttl : Z }.

Record LRUCache := {
  capacity : Z;
  cache : gmap string CacheEntry;
  usage : list string
}.

(** [list.remove(x)]: drops the first [x]; [None] stands for its
    [ValueError]. *)
Fixpoint list_remove (x : string) (l : list string) : option (list string) :=
  match l with
  | [] => None
  | y :: r =>
    if decide (x = y) then Some r
    else match list_remove x r with
         | Some r' => Some (y :: r')
         | None => None
         end
  end.

(** [LRUCache.get] *)
Definition LRUCache_get (key : string) (self : LRUCache)
  : py_exception + (option CacheEntry * LRUCache) :=
  match cache self !! key with
  | Some entry =>
    match list_remove key (usage self) with
    | None => inl ValueError
    | Some u =>
      inr (Some entry,
           {| capacity := capacity self; cache := cache self;
              usage := u ++ [key] |})
    end
  | None => inr (None, self)
  end.

(** [LRUCache.__setitem__] *)
Definition LRUCache_setitem (key : string) (value : CacheEntry)
  (self : LRUCache) : py_exception + LRUCache :=
  let store (c : gmap string CacheEntry) (u : list string) :=
    inr {| capacity := capacity self; cache := <[key := value]> c;
           usage := u ++ [key] |} in
  match cache self !! key with
  | Some _ =>
    match list_remove key (usage self) with
    | None => inl ValueError
    | Some u => store (cache self) u
    end
  | None =>
    if Z.of_nat (size (cache self)) >=? capacity self then
      match usage self with
      | [] => inl IndexError
      | oldest :: u =>
        match cache self !! oldest with
        | None => inl KeyError
        | Some _ => store (delete oldest (cache self)) u
        end
      end
    else store (cache self) (usage self)
  end.

(** [_is_expired]: [age.total_seconds() > entry['ttl']], the age being a
    number of microseconds. *)
Definition _is_expired (entry : CacheEntry) (now : Z) : bool :=
  ttl entry * 1000000 <? now - timestamp entry.

(** [get_cached_layout] on the optimizer's cache, at time [now]. *)
Definition get_cached_layout (layout_id : string) (now : Z) (self : LRUCache)
  : py_exception + (option V * LRUCache) :=
  match LRUCache_get layout_id self with
  | inl e => inl e
  | inr (Some entry, self') =>
    if negb (_is_expired entry now) then inr (Some (data entry), self')
    else inr (None, self')
  | inr (None, self') => inr (None, self')
  end.

(** [cache_layout] at time [now]. *)
Definition cache_layout (layout_id : string) (layout_data : V) (ttl : Z)
  (now : Z) (self : LRUCache) : py_exception + LRUCache :=
  LRUCache_setitem layout_id
    {| data := layout_data; timestamp := now; ttl := ttl |} self.

End Cache.
Arguments CacheEntry V : clear implicits.
Arguments LRUCache V : clear implicits.

(** *** ConnectionManager *)

(** A connection object, [{'server_id': ..., 'connected': True}].  The
    pool compares connections with [is]; [obj_id] is the identity of
    the object. *)
Record Connection := {
  server_id : string;
  connected : bool;
  obj_id : nat
}.

(** [{'connection': ..., 'in_use': ..., 'created': ..., 'last_used': ...}] *)
Record ConnInfo := {
  connection : Connection;
  in_use : bool;
  created : Z;
  last_used : Z
}.

(** The pool of one server: a dictionary in insertion order. *)
Definition Pool := list (string * ConnInfo).

(** [closed] lists the connections given to [_close_connection], oldest
    first; [next_obj] numbers the connection objects created so far. *)
Record ConnectionManager := {
  pool_size : Z;
  idle_timeout : Z;
  active_connections : gmap string Pool;
  closed : list Connection;
  next_obj : nat
}.

Definition new_manager (pool_size idle_timeout : Z) : ConnectionManager :=
  {| pool_size := pool_size; idle_timeout := idle_timeout;
     active_connections := ∅; closed := []; next_obj := 0 |}.

(** [len(server_pool) < n] *)
Definition len_lt (server_pool : Pool) (n : Z) : bool :=
  Z.of_nat (length server_pool) <? n.

(** [_is_connection_expired], at time [now]. *)
Definition _is_connection_expired (self : ConnectionManager)
  (conn_info : ConnInfo) (now : Z) : bool :=
  if negb (in_use conn_info)
  then idle_timeout self * 1000000 <? now - last_used conn_info
  else false.

(** The scan of [_acquire_connection]: the connections closed on the
    way, and the connection returned with the pool after its entry was
    marked, if the scan returns one. *)
Fixpoint scan (self : ConnectionManager) (now : Z) (server_pool : Pool)
  : list Connection * option (Connection * Pool) :=
  match server_pool with
  | [] => ([], None)
  | (conn_id, conn_info) :: rest =>
    if negb (in_use conn_info) then
      if _is_connection_expired self conn_info now then
        let '(cl, found) := scan self now rest in
        (connection conn_info :: cl,
         match found with
         | Some (c, rest') => Some (c, (conn_id, conn_info) :: rest')
         | None => None
         end)
      else
        ([], Some (connection conn_info,
                   (conn_id,
                    {| connection := connection conn_info; in_use := true;
                       created := created conn_info; last_used := now |})
                   :: rest))
    else
      let '(cl, found) := scan self now rest in
      (cl,
       match found with
       | Some (c, rest') => Some (c, (conn_id, conn_info) :: rest')
       | None => None
       end)
  end.

(** [d[key] = value] on a dictionary in insertion order. *)
Fixpoint dict_set (key : string) (value : ConnInfo) (d : Pool) : Pool :=
  match d with
  | [] => [(key, value)]
  | (k, v) :: rest =>
    if decide (k = key) then (k, value) :: rest
    else (k, v) :: dict_set key value rest
  end.

(** [_acquire_connection], at time [now]. *)
Definition _acquire_connection (sid : string) (now : Z)
  (self : ConnectionManager)
  : (py_exception + Connection) * ConnectionManager :=
  let server_pool := default [] (active_connections self !! sid) in
  let '(cl, found) := scan self now server_pool in
  match found with
  | Some (c, server_pool') =>
    (inr c,
     {| pool_size := pool_size self; idle_timeout := idle_timeout self;
        active_connections := <[sid := server_pool']> (active_connections self);
        closed := closed self ++ cl; next_obj := next_obj self |})
  | None =>
    if len_lt server_pool (pool_size self) then
      let c := {| server_id := sid; connected := true;
                  obj_id := next_obj self |} in
      let conn_id := "conn_" +:+ pretty (length server_pool) in
      let server_pool' :=
        dict_set conn_id
          {| connection := c; in_use := true;
             created := now; last_used := now |} server_pool in
      (inr c,
       {| pool_size := pool_size self; idle_timeout := idle_timeout self;
          active_connections :=
            <[sid := server_pool']> (active_connections self);
          closed := closed self ++ cl; next_obj := S (next_obj self) |})
    else
      (inl (ConnectionError "Connection pool exhausted"),
       {| pool_size := pool_size self; idle_timeout := idle_timeout self;
          active_connections := active_connections self;
          closed := closed self ++ cl; next_obj := next_obj self |})
  end.

(** The loop of [_release_connection]. *)
Fixpoint release_in (c : Connection) (now : Z) (server_pool : Pool) : Pool :=
  match server_pool with
  | [] => []
  | (conn_id, conn_info) :: rest =>
    if decide (obj_id (connection conn_info) = obj_id c) then
      (conn_id,
       {| connection := connection conn_info; in_use := false;
          created := created conn_info; last_used := now |}) :: rest
    else (conn_id, conn_info) :: release_in c now rest
  end.

(** [_release_connection], at time [now]. *)
Definition _release_connection (sid : string) (c : Connection) (now : Z)
  (self : ConnectionManager) : ConnectionManager :=
  match active_connections self !! sid with
  | None => self
  | Some server_pool =>
    {| pool_size := pool_size self; idle_timeout := idle_timeout self;
       active_connections :=
         <[sid := release_in c now server_pool]> (active_connections self);
       closed := closed self; next_obj := next_obj self |}
  end.

End Recovery.

(** ** Vocabulary of the properties *)

Module Props.
Import Wire XDR Transport Recovery.

(** *** Codec *)

(** [dec] reads the bytes [bs], wherever they stand in the buffer, as the
    value [v], and leaves the offset just after them. *)
Definition decodes {A} (dec : Decoder A) (bs : bytes) (v : A) : Prop :=
  forall pre post,
    dec (pre ++ bs ++ post) (len pre) = Ok (v, len pre + len bs).

(** What a decoder makes of a text that the encoder put on the wire as
    its UTF-8 bytes and that the decoder renders with [hex]. *)
Definition as_hex (s : str) : str :=
  match str_encode s with
  | Ok b => hex b
  | Err _ => []
  end.

Definition view_stateid (sid : StateId) : StateId :=
  {| seqid := seqid sid; other := ljust (other sid) 12 |}.

Definition view_data_server (s : DataServer) : DataServer :=
  {| device_id := as_hex (device_id s);
     state_id := view_stateid (state_id s);
     file_handles := map as_hex (file_handles s);
     attributes := attributes s |}.

Definition view_mirror (m : Mirror) : Mirror :=
  {| mirror_id := mirror_id m;
     data_servers := map view_data_server (data_servers m) |}.

(** The layout as it comes back from the wire. *)
Definition decoded_view (layout : Layout) : Layout :=
  {| mirrors := map view_mirror (mirrors layout) |}.

(** The layout with every [other] padded to 12 bytes, and nothing else
    changed. *)
Definition pad_data_server (s : DataServer) : DataServer :=
  {| device_id := device_id s;
     state_id := view_stateid (state_id s);
     file_handles := file_handles s;
     attributes := attributes s |}.

Definition pad_mirror (m : Mirror) : Mirror :=
  {| mirror_id := mirror_id m;
     data_servers := map pad_data_server (data_servers m) |}.

Definition with_padded_other (layout : Layout) : Layout :=
  {| mirrors := map pad_mirror (mirrors layout) |}.

(** The outcome of [dec] on a buffer cut after [k] bytes, against its
    outcome on the whole buffer: the same when the cut is at or after
    the last byte consumed, "Unexpected end of data" when it is before;
    a failure stays the same failure or becomes "Unexpected end of
    data". *)
Definition cut_outcome {A} (whole cut : result (A * Z)) (offset : Z)
  (size : Z) (k : nat) : Prop :=
  match whole with
  | Ok (a, offset') =>
    offset <= offset' /\ offset' <= size /\
    cut = (if offset' <=? Z.of_nat k then Ok (a, offset')
           else Err XDRError_end_of_data)
  | Err e => cut = Err e \/ cut = Err XDRError_end_of_data
  end.

Definition cut_safe {A} (dec : Decoder A) : Prop :=
  forall data k offset, 0 <= offset <= len (take k data) ->
    cut_outcome (dec data offset) (dec (take k data) offset)
      offset (len data) k.

(** The read requests of a run: [requests dec data offset n at_] says
    that [dec], run on [data] from [offset], comes to ask for [n] bytes
    at the offset [at_], through [_read_bytes] or [_skip_bytes].  A call
    of [_read_bytes] or [_skip_bytes] is such a request; in a sequence
    [let* x := m in k x], the requests are those of [m] and, once [m]
    has returned a value, those of the rest run on that value from the
    offset that [m] left. *)
Inductive requests
  : forall {A : Type}, Decoder A -> bytes -> Z -> Z -> Z -> Prop :=
| requests_read (n : Z) (data : bytes) (offset : Z) :
    requests (_read_bytes n) data offset n offset
| requests_skip (n : Z) (data : bytes) (offset : Z) :
    requests (_skip_bytes n) data offset n offset
| requests_first {A B : Type} (m : Decoder A) (k : A -> Decoder B)
    (data : bytes) (offset n at_ : Z) :
    requests m data offset n at_ ->
    requests (bind m k) data offset n at_
| requests_then {A B : Type} (m : Decoder A) (k : A -> Decoder B)
    (data : bytes) (offset : Z) (a : A) (offset' n at_ : Z) :
    m data offset = Ok (a, offset') ->
    requests (k a) data offset' n at_ ->
    requests (bind m k) data offset n at_.

(** The run of [dec] on [data] from [offset] asks for bytes that the
    buffer does not have. *)
Definition short_for {A} (dec : Decoder A) (data : bytes) (offset : Z) : Prop :=
  exists n at_, requests dec data offset n at_ /\ len data < at_ + n.

(** [dec] fails with "Unexpected end of data" only when its run asks for
    bytes that the buffer does not have. *)
Definition eod_is_short {A} (dec : Decoder A) : Prop :=
  forall data offset,
    dec data offset = Err XDRError_end_of_data -> short_for dec data offset.

(** *** Cache *)

(** The recency list names each cached key once, and no other key. *)
Definition cache_inv {V} (c : LRUCache V) : Prop :=
  NoDup (usage c) /\ dom (cache c) = (list_to_set (usage c) : gset string).

End Props.

(** ** Sample inputs *)

Module Samples.
Import Wire XDR Transport Recovery.

(** A text of ASCII characters, as code points. *)
Definition text (s : string) : str :=
  map (fun b => Z_of_byte b) (String.list_byte_of_string s).

(** [b'...'] *)
Definition b (s : string) : bytes := String.list_byte_of_string s.

(** The layout of [main()] in XDR-Encode-Decode.py, with its 15-byte
    [other] cut to the 12 bytes the encoder accepts. *)
Definition main_layout : Layout :=
  {| mirrors :=
       [ {| mirror_id := text "mirror1";
            data_servers :=
              [ {| device_id := text "0123456789abcdef";
                   state_id := {| seqid := 1; other := b "stateidentif" |};
                   file_handles := [text "handle1"; text "handle2"];
                   attributes := {| attr_size := Some 1024;
                                    attr_mtime := Some 1638360000 |} |} ] |} ] |}.

(** The bytes a fresh encoder returns for a layout ([[]] if it raises). *)
Definition encoded (layout : Layout) : bytes :=
  match encode_layout_wcc [] layout with
  | Ok bs => bs
  | Err _ => []
  end.

(** The same with a 3-byte [other]. *)
Definition short_other_layout : Layout :=
  {| mirrors :=
       [ {| mirror_id := text "mirror1";
            data_servers :=
              [ {| device_id := text "0123456789abcdef";
                   state_id := {| seqid := 1; other := b "abc" |};
                   file_handles := [];
                   attributes := {| attr_size := None;
                                    attr_mtime := None |} |} ] |} ] |}.

(** The data server and the layout of the fixture [sample_layout_data]
    of integrationTest.py: an 11-byte device id and a 13-byte [other]. *)
Definition fixture_server : DataServer :=
  {| device_id := text "test_device";
     state_id := {| seqid := 1; other := b "test_state_id" |};
     file_handles := [text "handle1"];
     attributes := {| attr_size := Some 1024;
                      attr_mtime := Some 1700000000 |} |}.

Definition fixture_mirror : Mirror :=
  {| mirror_id := text "test_mirror"; data_servers := [fixture_server] |}.

Definition fixture_layout : Layout := {| mirrors := [fixture_mirror] |}.

(** A layout cut inside the id of its first mirror: the tag, a count of
    one mirror, the length 3 of the id, and two bytes, which are no
    UTF-8 text. *)
Definition short_string_buffer : bytes :=
  [x00; x00; x00; x01;  x00; x00; x00; x01;  x00; x00; x00; x03;  xff; xff].

(** An attribute set on the wire whose mask has bit 2 set and nothing
    else: type 5, mask 4. *)
Definition reserved_bit_attributes : bytes :=
  [x00; x00; x00; x05; x00; x00; x00; x04].

(** One chunk that holds the length prefix of an 8-byte frame and the
    first 4 bytes of the frame. *)
Definition half_frame : bytes :=
  [x00; x00; x00; x08; x00; x00; x00; x01].

(** The retry configuration of [test_error_recovery], and an operation
    that fails twice with a transport error and then succeeds, as the
    retry scenario of the specification has it. *)
Definition test_config : RetryConfig :=
  {| max_retries := 3; base_delay := 1; max_delay := 30;
     exponential_base := 2 |}.

Definition fails_twice (n : nat) : outcome string :=
  match n with
  | O | 1%nat => Raises (NFSTransportError "Simulated failure")
  | _ => Returns "success"
  end.

Definition no_retries : RetryConfig :=
  {| max_retries := 0; base_delay := 1; max_delay := 30;
     exponential_base := 2 |}.

(** A cache of capacity 1 whose only entry, stored at time 0 for one
    second, is looked up two seconds later. *)
Definition single_entry_cache : LRUCache nat :=
  {| capacity := 1;
     cache := {[ "k" := {| data := 7%nat; timestamp := 0; ttl := 1 |} ]};
     usage := ["k"] |}.

(** A cache of capacity 2 with two entries, ["k"] the older one. *)
Definition two_entry_cache : LRUCache nat :=
  {| capacity := 2;
     cache := <[ "k" := {| data := 7%nat; timestamp := 0; ttl := 1 |} ]>
              {[ "j" := {| data := 9%nat; timestamp := 500000; ttl := 300 |} ]};
     usage := ["k"; "j"] |}.

(** The steps of [test_connection_management]: two connections taken
    and given back, one of them taken and given back again, and then
    1.1 seconds of idleness, with [idle_timeout = 1]. *)
Definition acquired (sid : string) (now : Z) (m : ConnectionManager)
  : ConnectionManager := snd (_acquire_connection sid now m).

Definition conn (n : nat) : Connection :=
  {| server_id := "server1"; connected := true; obj_id := n |}.

Definition test_pool : ConnectionManager :=
  let m := new_manager 2 1 in
  let m := acquired "server1" 0 m in                     (* conn1 *)
  let m := acquired "server1" 0 m in                     (* conn2 *)
  let m := acquired "server1" 0 m in                     (* refused *)
  let m := _release_connection "server1" (conn 1) 0 m in
  let m := _release_connection "server1" (conn 0) 0 m in
  let m := acquired "server1" 0 m in                     (* conn3 *)
  _release_connection "server1" (conn 0) 0 m.

End Samples.

(** ** The rest of NetworkTransport.py: messages, send, close *)

Module Rpc.
Import Wire Transport Recovery.

(** [RPCMessageType] *)
Definition CALL : Z := 0.
Definition REPLY : Z := 1.

(** [struct.pack] of a sequence of ["I"] fields: each value must fit. *)
Fixpoint pack_words (values : list Z) : result bytes :=
  match values with
  | [] => Ok []
  | v :: rest =>
    match pack_I v with
    | Err e => Err e
    | Ok b =>
      match pack_words rest with
      | Err e => Err e
      | Ok bs => Ok (b ++ bs)
      end
    end
  end.

(** [_build_rpc_message]: [struct.pack("!IIIIII", ...) + payload]. *)
Definition _build_rpc_message (xid : Z) (payload : bytes) : result bytes :=
  match pack_words [xid; CALL; 2; 100003; 4; 0] with
  | Err e => Err e
  | Ok header => Ok (header ++ payload)
  end.

(** The [asyncio.Transport] of a connection: what was written to it, oldest
    first, and whether [close()] was called on it. *)
Record Socket := { written : list bytes; socket_closed : bool }.

(** The fields of [NFSTransportProtocol] that [connect], [send_layout_wcc]
    and [close] use besides the registry and the counter. *)
Record Endpoint := {
  protocol : NFSTransportProtocol;
  _transport : option Socket;
  _connected : bool
}.

(** An endpoint as [__init__] leaves it, and as a successful [connect]
    leaves it. *)
Definition new_endpoint : Endpoint :=
  {| protocol := new_transport; _transport := None; _connected := false |}.

Definition connected_endpoint : Endpoint :=
  {| protocol := new_transport;
     _transport := Some {| written := []; socket_closed := false |};
     _connected := true |}.

(** [close] *)
Definition close (self : Endpoint) : Endpoint :=
  match _transport self with
  | Some s =>
    {| protocol := protocol self;
       _transport := Some {| written := written s; socket_closed := true |};
       _connected := false |}
  | None => self
  end.

(** [self._pending_requests[xid] = future], the future being new. *)
Definition register (xid : Z) (t : NFSTransportProtocol)
  : NFSTransportProtocol :=
  {| _pending_requests := <[xid := false]> (_pending_requests t);
     _xid_counter := _xid_counter t;
     resolved := resolved t |}.

(** [del self._pending_requests[xid]]; [None] stands for its [KeyError]. *)
Definition unregister (xid : Z) (t : NFSTransportProtocol)
  : option NFSTransportProtocol :=
  match _pending_requests t !! xid with
  | None => None
  | Some _ =>
    Some {| _pending_requests := delete xid (_pending_requests t);
            _xid_counter := _xid_counter t;
            resolved := resolved t |}
  end.

(** [send_layout_wcc] up to its [await]: the id allocated and the message
    written, or the exception raised before the wait.  A [struct.error]
    of [_build_rpc_message] is raised outside the [try]; a failing
    [write] (here: no transport object) is caught, the waiter is removed
    and an [NFSTransportError] is raised. *)
Definition send_begin (payload : bytes) (self : Endpoint)
  : (py_exception + (Z * bytes)) * Endpoint :=
  if negb (_connected self) then
    (inl (NFSTransportError "Not connected to server"), self)
  else
    let '(xid, t) := _get_next_xid (protocol self) in
    match _build_rpc_message xid payload with
    | Err _ =>
      (inl (Exception "struct.error"),
       {| protocol := t; _transport := _transport self;
          _connected := _connected self |})
    | Ok message =>
      match _transport self with
      | Some s =>
        (inr (xid, message),
         {| protocol := register xid t;
            _transport := Some {| written := written s ++ [message];
                                  socket_closed := socket_closed s |};
            _connected := _connected self |})
      | None =>
        (inl (NFSTransportError
                "Failed to send request: 'NoneType' object has no attribute 'write'"),
         {| protocol :=
              {| _pending_requests := delete xid (_pending_requests t);
                 _xid_counter := _xid_counter t;
                 resolved := resolved t |};
            _transport := None;
            _connected := _connected self |})
      end
    end.

(** What ends the wait of [send_layout_wcc]. *)
Inductive wait_end :=
| Replied (response : bytes)   (* the future got its result *)
| TimedOut.                    (* asyncio.TimeoutError *)

(** [send_layout_wcc] from its [await] on, for the request [xid]. *)
Definition send_end (xid : Z) (w : wait_end) (self : Endpoint)
  : (py_exception + (Z * bytes)) * Endpoint :=
  match w with
  | Replied response => (inr (xid, response), self)
  | TimedOut =>
    match unregister xid (protocol self) with
    | None => (inl KeyError, self)
    | Some t =>
      (inl (NFSTransportError "Request timed out"),
       {| protocol := t; _transport := _transport self;
          _connected := _connected self |})
    end
  end.

(** A call of [handle_response] on the endpoint's protocol. *)
Definition on_response (xid : Z) (data : bytes) (self : Endpoint) : Endpoint :=
  {| protocol := handle_response xid data (protocol self);
     _transport := _transport self; _connected := _connected self |}.

End Rpc.

(** ** The rest of ErrorRecovery.py: scoped acquisition, cleanup *)

Module Pooling.
Import Recovery.

(** [LRUCache(capacity)] *)
Definition new_cache {V} (capacity : Z) : LRUCache V :=
  {| capacity := capacity; cache := ∅; usage := [] |}.

(** [async with get_connection(server_id) as conn: body].  The body runs
    on the connection and the manager and returns or raises; the
    [finally] clause releases the connection when one was acquired.
    [t_acquire] and [t_release] are the clock readings of the two
    calls. *)
Definition get_connection {A} (sid : string) (t_acquire t_release : Z)
  (body : Connection -> ConnectionManager -> outcome A * ConnectionManager)
  (self : ConnectionManager) : outcome A * ConnectionManager :=
  match _acquire_connection sid t_acquire self with
  | (inl e, self1) => (Raises e, self1)
  | (inr c, self1) =>
    let '(r, self2) := body c self1 in
    (r, _release_connection sid c t_release self2)
  end.

(** The connections of a pool, in the order of the pool. *)
Definition connections_of (server_pool : Pool) : list Connection :=
  map (fun p => connection (snd p)) server_pool.

(** [cleanup]: every connection of every pool is closed, pool by pool,
    and the table is cleared.  The pools are visited in the order of
    [map_to_list]; the source visits them in insertion order. *)
Definition cleanup (self : ConnectionManager) : ConnectionManager :=
  {| pool_size := pool_size self; idle_timeout := idle_timeout self;
     active_connections := ∅;
     closed := closed self ++
               concat (map (fun kv => connections_of (snd kv))
                         (map_to_list (active_connections self)));
     next_obj := next_obj self |}.

End Pooling.

(** ** Vocabulary of the further properties *)

Module MoreProps.
Import Wire XDR Transport Recovery Rpc Pooling.

(** *** Codec *)

(** What [str.encode()] must give for a text the encoder takes. *)
Definition encodes_below (s : str) (bound : Z) : Prop :=
  exists data, str_encode s = Ok data /\ len data < bound.

Definition attributes_ok (a : Attributes) : Prop :=
  match attr_size a with Some v => 0 <= v < 2 ^ 64 | None => True end /\
  match attr_mtime a with Some v => 0 <= v < 2 ^ 64 | None => True end.

Definition data_server_ok (s : DataServer) : Prop :=
  (exists data, str_encode (device_id s) = Ok data /\ len data = 16) /\
  0 <= seqid (state_id s) < 2 ^ 32 /\
  len (other (state_id s)) <= 12 /\
  len (file_handles s) < 2 ^ 32 /\
  Forall (fun h => encodes_below h (2 ^ 32)) (file_handles s) /\
  attributes_ok (attributes s).

Definition mirror_ok (m : Mirror) : Prop :=
  encodes_below (mirror_id m) (2 ^ 32) /\
  len (data_servers m) < 2 ^ 32 /\
  Forall data_server_ok (data_servers m).

(** The layouts the encoder accepts. *)
Definition layout_ok (layout : Layout) : Prop :=
  len (mirrors layout) < 2 ^ 32 /\ Forall mirror_ok (mirrors layout).

(** An encoder step that appends whole 4-byte words, if it returns. *)
Definition aligned (e : Encoder) : Prop :=
  forall bs, e = Ok bs -> len bs mod 4 = 0.

(** An encoder step that returns. *)
Definition succeeds (e : Encoder) : Prop := exists bs, e = Ok bs.

(** A lowercase hexadecimal digit, as a code point. *)
Definition is_hex_digit (c : Z) : Prop :=
  48 <= c <= 57 \/ 97 <= c <= 102.

(** The shape of a data server that the decoder returns. *)
Definition decoded_shape (s : DataServer) : Prop :=
  length (device_id s) = 32%nat /\ Forall is_hex_digit (device_id s) /\
  0 <= seqid (state_id s) < 2 ^ 32 /\
  length (other (state_id s)) = 12%nat /\
  Forall (Forall is_hex_digit) (file_handles s) /\
  attributes_ok (attributes s).

(** Every value [dec] returns, from an offset inside the buffer,
    satisfies [P]. *)
Definition returns_only {A} (dec : Decoder A) (P : A -> Prop) : Prop :=
  forall data o a o',
    0 <= o <= len data -> dec data o = Ok (a, o') -> P a.

(** *** Transport *)

(** A record-marked frame: the 4-byte length, then the bytes. *)
Definition frame (message : bytes) : bytes :=
  be_pack 4 (len message) ++ message.

(** The fields of the call header after the id: message type, RPC
    version, program, program version and procedure. *)
Definition call_fields : bytes :=
  be_pack 4 CALL ++ be_pack 4 2 ++ be_pack 4 100003 ++ be_pack 4 4
  ++ be_pack 4 0.

(** *** Pool *)

(** The entries of a pool that are lent out. *)
Definition lent (server_pool : Pool) : list Connection :=
  connections_of (filter (fun p => in_use (snd p) = true) server_pool).

(** The pool of a server ([{}] when the server has none). *)
Definition pool_of (sid : string) (self : ConnectionManager) : Pool :=
  default [] (active_connections self !! sid).

(** The key of the [i]-th entry made in a pool: [f"conn_{i}"]. *)
Definition conn_key (i : nat) : string := "conn_" +:+ pretty i.

(** What the manager keeps true of the pool of a server: the keys are
    [conn_0], [conn_1], ... in this order; the connection objects are
    distinct, were made by this manager, and are connections to this
    server. *)
Definition pool_inv (sid : string) (self : ConnectionManager) : Prop :=
  let server_pool := pool_of sid self in
  map fst server_pool = map conn_key (seq 0 (length server_pool)) /\
  NoDup (map obj_id (connections_of server_pool)) /\
  Forall (fun c => server_id c = sid /\ connected c = true /\
                   (obj_id c < next_obj self)%nat)
    (connections_of server_pool).

End MoreProps.

(** ** Further sample inputs *)

Module MoreSamples.
Import Wire XDR Transport Recovery Rpc Pooling Samples.

(** The data server and the mirror of [main_layout]. *)
Definition main_server : DataServer :=
  {| device_id := text "0123456789abcdef";
     state_id := {| seqid := 1; other := b "stateidentif" |};
     file_handles := [text "handle1"; text "handle2"];
     attributes := {| attr_size := Some 1024;
                      attr_mtime := Some 1638360000 |} |}.

Definition main_mirror : Mirror :=
  {| mirror_id := text "mirror1"; data_servers := [main_server] |}.

(** A layout with one mirror and no data server. *)
Definition bare_layout : Layout :=
  {| mirrors := [ {| mirror_id := text "m1"; data_servers := [] |} ] |}.

(** A body that uses the connection and fails. *)
Definition failing_body (c : Connection) (m : ConnectionManager)
  : outcome nat * ConnectionManager :=
  (Raises (Exception "boom"), m).

End MoreSamples.

(** ** Server integration (ServerIntegration.py) *)

Module Server.

(** The exceptions of this module. *)
Inductive exception :=
| ValueError_msg (msg : string)
| KeyError_key (key : string)
| AttributeError (class_name attribute : string).

(** [str(e)]; a [KeyError] prints the [repr] of its key. *)
Definition message_of (e : exception) : string :=
  match e with
  | ValueError_msg msg => msg
  | KeyError_key key => "'" +:+ key +:+ "'"
  | AttributeError class_name attribute =>
    "'" +:+ class_name +:+ "' object has no attribute '" +:+ attribute +:+ "'"
  end.

(** [d[key]], for a dictionary entry that may be missing. *)
Definition getitem {B} (key : string) (entry : option B) : exception + B :=
  match entry with
  | Some v => inr v
  | None => inl (KeyError_key key)
  end.

Record NFSServerConfig := {
  mount_point : string;
  export_path : string;
  max_connections : Z;
  cache_size : Z;
  grace_period : Z
}.

Section Requests.
(** The attributes of a data server are passed through as they are. *)
Context {A : Type}.

(** The dictionaries of a request: a data server, a mirror and the
    request, with the keys ['device_id'], ['attributes'], ['mirror_id'],
    ['data_servers'], ['session_id'] and ['mirrors'].  A key that the
    code reads with [d[key]] may be missing. *)
Record ServerData := {
  req_device_id : option string;
  req_attributes : option A
}.

Record MirrorData := {
  req_mirror_id : option string;
  req_data_servers : option (list ServerData)
}.

Record Request := {
  req_session_id : option string;
  req_mirrors : option (list MirrorData)
}.

(** The entry made for a data server: [{'device_id', 'status':
    'updated', 'attributes'}] or [{'device_id', 'status': 'error',
    'error'}], where [server.get('device_id')] may be [None]. *)
Inductive ProcessedServer :=
| status_updated (device : string) (updated_attrs : A)
| status_error (device : option string) (message : string).

Record ProcessedMirror := {
  processed_mirror_id : string;
  processed_servers : list ProcessedServer
}.

(** The response: [{'status': 'success', 'result'}] or
    [{'status': 'error', 'error'}]. *)
Inductive Response :=
| status_success (result : list ProcessedMirror)
| status_failure (message : string).

(** An entry of [_layout_cache]: [{'layout', 'timestamp'}]. *)
Record CachedLayout := {
  cached_layout : list ProcessedMirror;
  cached_at : Z
}.

(** The object: [config], [_layout_cache] and [_active_sessions] are
    the attributes that [__init__] sets, with [_lock]. *)
Record NFSServerIntegration := {
  config : NFSServerConfig;
  _layout_cache : gmap string CachedLayout;
  _active_sessions : gmap string Z
}.

Definition new_server (config : NFSServerConfig) : NFSServerIntegration :=
  {| config := config; _layout_cache := ∅; _active_sessions := ∅ |}.

(** The names that attribute lookup finds on the object: the attributes
    set by [__init__] and the methods of the class. *)
Definition instance_attributes : list string :=
  ["config"; "_layout_cache"; "_active_sessions"; "_lock"].

Definition class_attributes : list string :=
  ["initialize"; "_register_operation_handler"; "process_layout_wcc";
   "_process_mirrors"; "_process_data_servers";
   "_verify_server_credentials"; "_update_server_attributes";
   "_update_layout_cache"; "_validate_request"; "cleanup"].

(** [self.<name>] *)
Definition getattr (name : string) : exception + unit :=
  if bool_decide (name ∈ instance_attributes ++ class_attributes)
  then inr tt
  else inl (AttributeError "NFSServerIntegration" name).

(** [_register_operation_handler]: the handler is defined, then
    [self._server.register_operation(...)] is evaluated. *)
Definition _register_operation_handler (self : NFSServerIntegration)
  : exception + unit :=
  match getattr "_server" with
  | inl e => inl e
  | inr _ => inr tt
  end.

(** [initialize] *)
Definition initialize (self : NFSServerIntegration) : exception + unit :=
  match _register_operation_handler self with
  | inl e => inl e
  | inr _ =>
    match getattr "_initialize_cache" with
    | inl e => inl e
    | inr _ => inr tt
    end
  end.

(** [_verify_server_credentials] *)
Definition _verify_server_credentials (server : ServerData) : bool := true.

(** [_update_server_attributes] *)
Definition _update_server_attributes (device : string) (attrs : A) : A :=
  attrs.

(** The [try] block of [_process_data_servers] for one server. *)
Definition try_server (server : ServerData) : exception + ProcessedServer :=
  if negb (_verify_server_credentials server) then
    match getitem "device_id" (req_device_id server) with
    | inl e => inl e
    | inr d => inl (ValueError_msg ("Invalid credentials for server " +:+ d))
    end
  else
    match getitem "device_id" (req_device_id server) with
    | inl e => inl e
    | inr d =>
      match getitem "attributes" (req_attributes server) with
      | inl e => inl e
      | inr a => inr (status_updated d (_update_server_attributes d a))
      end
    end.

(** [_process_data_servers]: the loop, appending to
    [processed_servers]. *)
Fixpoint process_data_servers_loop (servers : list ServerData)
  (processed : list ProcessedServer) : list ProcessedServer :=
  match servers with
  | [] => processed
  | server :: rest =>
    match try_server server with
    | inr p => process_data_servers_loop rest (processed ++ [p])
    | inl e =>
      process_data_servers_loop rest
        (processed ++ [status_error (req_device_id server) (message_of e)])
    end
  end.

Definition _process_data_servers (servers : list ServerData)
  : list ProcessedServer :=
  process_data_servers_loop servers [].

(** [_process_mirrors]: the exception of a mirror is logged and raised
    again. *)
Fixpoint process_mirrors_loop (req_mirrors : list MirrorData)
  (processed : list ProcessedMirror) : exception + list ProcessedMirror :=
  match req_mirrors with
  | [] => inr processed
  | mirror :: rest =>
    match getitem "data_servers" (req_data_servers mirror) with
    | inl e => inl e
    | inr servers =>
      let servers' := _process_data_servers servers in
      match getitem "mirror_id" (req_mirror_id mirror) with
      | inl e => inl e
      | inr m =>
        process_mirrors_loop rest
          (processed ++ [{| processed_mirror_id := m;
                            processed_servers := servers' |}])
      end
    end
  end.

Definition _process_mirrors (req_mirrors : list MirrorData)
  : exception + list ProcessedMirror :=
  process_mirrors_loop req_mirrors [].

(** [_validate_request]: ['session_id'] and ['mirrors'] are keys of
    the request. *)
Definition _validate_request (request : Request) : bool :=
  match req_session_id request, req_mirrors request with
  | Some _, Some _ => true
  | _, _ => false
  end.

(** [_update_layout_cache], at time [now]. *)
Definition _update_layout_cache (session : string)
  (result : list ProcessedMirror) (now : Z) (self : NFSServerIntegration)
  : NFSServerIntegration :=
  {| config := config self;
     _layout_cache :=
       <[session := {| cached_layout := result; cached_at := now |}]>
         (_layout_cache self);
     _active_sessions := _active_sessions self |}.

(** The [try] block of [process_layout_wcc]. *)
Definition try_layout_wcc (request : Request) (now : Z)
  (self : NFSServerIntegration)
  : (exception + list ProcessedMirror) * NFSServerIntegration :=
  if negb (_validate_request request) then
    (inl (ValueError_msg "Invalid LAYOUT_WCC request"), self)
  else
    match getitem "mirrors" (req_mirrors request) with
    | inl e => (inl e, self)
    | inr ms =>
      match _process_mirrors ms with
      | inl e => (inl e, self)
      | inr result =>
        match getitem "session_id" (req_session_id request) with
        | inl e => (inl e, self)
        | inr session =>
          (inr result, _update_layout_cache session result now self)
        end
      end
    end.

(** [process_layout_wcc], at time [now]. *)
Definition process_layout_wcc (request : Request) (now : Z)
  (self : NFSServerIntegration) : Response * NFSServerIntegration :=
  match try_layout_wcc request now self with
  | (inr result, self') => (status_success result, self')
  | (inl e, self') => (status_failure (message_of e), self')
  end.

End Requests.

Arguments ServerData A : clear implicits.
Arguments MirrorData A : clear implicits.
Arguments Request A : clear implicits.
Arguments ProcessedServer A : clear implicits.
Arguments ProcessedMirror A : clear implicits.
Arguments Response A : clear implicits.
Arguments CachedLayout A : clear implicits.
Arguments NFSServerIntegration A : clear implicits.

(** A mirror that [_process_mirrors] takes: both keys are there. *)
Definition complete {A} (mirror : MirrorData A) : Prop :=
  is_Some (req_mirror_id mirror) /\ is_Some (req_data_servers mirror).

(** The entry that a data server gets. *)
Definition entry_of {A} (server : ServerData A) : ProcessedServer A :=
  match req_device_id server, req_attributes server with
  | Some d, Some a => status_updated d a
  | Some d, None => status_error (Some d) "'attributes'"
  | None, _ => status_error None "'device_id'"
  end.

End Server.

(** * Properties *)

(** ** Bytes, integers and text *)

Module WireFacts.
Import Wire.

Lemma Z_of_byte_range (b : byte) : 0 <= Z_of_byte b < 256.
Proof.
  unfold Z_of_byte. pose proof (Byte.to_N_bounded b). lia.
Qed.

Lemma Z_of_byte_of_Z (z : Z) : 0 <= z < 256 -> Z_of_byte (byte_of_Z z) = z.
Proof.
  intros Hz. unfold Z_of_byte, byte_of_Z.
  destruct (Byte.of_N (Z.to_N z)) as [b|] eqn:E.
  - apply Byte.to_of_N in E. rewrite E. lia.
  - apply Byte.of_N_None_iff in E. lia.
Qed.

Lemma byte_of_Z_of_byte (b : byte) : byte_of_Z (Z_of_byte b) = b.
Proof.
  unfold Z_of_byte, byte_of_Z. rewrite N2Z.id, Byte.of_to_N. reflexivity.
Qed.

Lemma len_app {A} (l1 l2 : list A) : len (l1 ++ l2) = len l1 + len l2.
Proof. unfold len. rewrite length_app. lia. Qed.

Lemma len_nonneg {A} (l : list A) : 0 <= len l.
Proof. unfold len. lia. Qed.

Lemma len_nil {A} : len (@nil A) = 0.
Proof. reflexivity. Qed.

Lemma len_zeros (n : Z) : 0 <= n -> len (zeros n) = n.
Proof. intros. unfold len, zeros. rewrite length_replicate. lia. Qed.

Lemma length_le_digits (n : nat) (v : Z) : length (le_digits n v) = n.
Proof.
  revert v. induction n as [|n IH]; intros v; simpl; [reflexivity|].
  now rewrite IH.
Qed.

Lemma length_be_pack (n : nat) (v : Z) : length (be_pack n v) = n.
Proof. unfold be_pack. rewrite length_rev. apply length_le_digits. Qed.

Lemma be_unpack_snoc (bs : bytes) (b : byte) :
  be_unpack (bs ++ [b]) = be_unpack bs * 256 + Z_of_byte b.
Proof. unfold be_unpack. rewrite fold_left_app. reflexivity. Qed.

Lemma be_unpack_range (bs : bytes) : 0 <= be_unpack bs < 256 ^ Z.of_nat (length bs).
Proof.
  induction bs as [|b bs IH] using rev_ind.
  - cbn. lia.
  - rewrite be_unpack_snoc, length_app. cbn [length].
    replace (Z.of_nat (length bs + 1)) with (Z.succ (Z.of_nat (length bs))) by lia.
    rewrite Z.pow_succ_r by lia.
    pose proof (Z_of_byte_range b). lia.
Qed.

Lemma be_unpack_pack (n : nat) (v : Z) :
  0 <= v < 256 ^ Z.of_nat n -> be_unpack (be_pack n v) = v.
Proof.
  unfold be_pack. revert v. induction n as [|n IH]; intros v Hv.
  - cbn in *. lia.
  - cbn [le_digits rev]. rewrite be_unpack_snoc.
    replace (Z.of_nat (S n)) with (Z.succ (Z.of_nat n)) in Hv by lia.
    rewrite Z.pow_succ_r in Hv by lia.
    rewrite IH, Z_of_byte_of_Z.
    + pose proof (Z.div_mod v 256). lia.
    + apply Z.mod_pos_bound. lia.
    + split; [apply Z.div_pos; lia|].
      apply Z.div_lt_upper_bound; lia.
Qed.

Lemma be_pack_unpack (bs : bytes) : be_pack (length bs) (be_unpack bs) = bs.
Proof.
  unfold be_pack. induction bs as [|b bs IH] using rev_ind; [reflexivity|].
  rewrite length_app, be_unpack_snoc. cbn [length].
  replace (length bs + 1)%nat with (S (length bs)) by lia.
  cbn [le_digits rev].
  pose proof (Z_of_byte_range b) as Hb.
  replace ((be_unpack bs * 256 + Z_of_byte b) mod 256) with (Z_of_byte b).
  - replace ((be_unpack bs * 256 + Z_of_byte b) / 256) with (be_unpack bs).
    + now rewrite IH, byte_of_Z_of_byte.
    + symmetry. rewrite Z.add_comm, Z.div_add by lia.
      rewrite Z.div_small by lia. lia.
  - symmetry. rewrite Z.add_comm, Z.mod_add by lia. apply Z.mod_small. lia.
Qed.

Lemma pack_I_inv (v : Z) (bs : bytes) :
  pack_I v = Ok bs -> 0 <= v < 2 ^ 32 /\ bs = be_pack 4 v.
Proof.
  unfold pack_I. destruct (Z.leb_spec 0 v), (Z.ltb_spec v (2 ^ 32));
    cbn; intros [=]; subst; auto.
Qed.

Lemma pack_Q_inv (v : Z) (bs : bytes) :
  pack_Q v = Ok bs -> 0 <= v < 2 ^ 64 /\ bs = be_pack 8 v.
Proof.
  unfold pack_Q. destruct (Z.leb_spec 0 v), (Z.ltb_spec v (2 ^ 64));
    cbn; intros [=]; subst; auto.
Qed.

Lemma pack_I_ok (v : Z) : 0 <= v < 2 ^ 32 -> pack_I v = Ok (be_pack 4 v).
Proof.
  intros Hv. unfold pack_I.
  destruct (Z.leb_spec 0 v), (Z.ltb_spec v (2 ^ 32)); cbn; auto; lia.
Qed.

Lemma pack_Q_ok (v : Z) : 0 <= v < 2 ^ 64 -> pack_Q v = Ok (be_pack 8 v).
Proof.
  intros Hv. unfold pack_Q.
  destruct (Z.leb_spec 0 v), (Z.ltb_spec v (2 ^ 64)); cbn; auto; lia.
Qed.

(** Re-packing what was unpacked from 4 (or 8) bytes gives the bytes
    back. *)
Lemma pack_I_unpack (bs : bytes) :
  length bs = 4%nat -> pack_I (be_unpack bs) = Ok bs.
Proof.
  intros Hl. pose proof (be_unpack_range bs) as Hr. rewrite Hl in Hr.
  rewrite pack_I_ok by (change (2 ^ 32) with (256 ^ Z.of_nat 4); lia).
  now rewrite <- Hl, be_pack_unpack.
Qed.

Lemma pack_Q_unpack (bs : bytes) :
  length bs = 8%nat -> pack_Q (be_unpack bs) = Ok bs.
Proof.
  intros Hl. pose proof (be_unpack_range bs) as Hr. rewrite Hl in Hr.
  rewrite pack_Q_ok by (change (2 ^ 64) with (256 ^ Z.of_nat 8); lia).
  now rewrite <- Hl, be_pack_unpack.
Qed.

End WireFacts.

(** ** UTF-8: [bytes_decode] undoes [str_encode] *)

Module TextFacts.
Import Wire WireFacts.

Lemma bytes_decode_cons (b0 : byte) (r0 : bytes) :
  bytes_decode (b0 :: r0) =
    let z0 := Z_of_byte b0 in
    if z0 <? 0x80 then cons_char z0 (bytes_decode r0)
    else if z0 <? 0xC2 then Err UnicodeDecodeError
    else if z0 <? 0xE0 then
      match r0 with
      | b1 :: r1 =>
        match cont b1 with
        | Some c1 => cons_char ((z0 - 0xC0) * 64 + c1) (bytes_decode r1)
        | None => Err UnicodeDecodeError
        end
      | _ => Err UnicodeDecodeError
      end
    else if z0 <? 0xF0 then
      match r0 with
      | b1 :: b2 :: r2 =>
        match cont b1, cont b2 with
        | Some c1, Some c2 =>
          let c := (z0 - 0xE0) * 4096 + c1 * 64 + c2 in
          if (c <? 0x800) || ((0xD800 <=? c) && (c <=? 0xDFFF))
          then Err UnicodeDecodeError
          else cons_char c (bytes_decode r2)
        | _, _ => Err UnicodeDecodeError
        end
      | _ => Err UnicodeDecodeError
      end
    else if z0 <? 0xF5 then
      match r0 with
      | b1 :: b2 :: b3 :: r3 =>
        match cont b1, cont b2, cont b3 with
        | Some c1, Some c2, Some c3 =>
          let c := (z0 - 0xF0) * 262144 + c1 * 4096 + c2 * 64 + c3 in
          if (c <? 0x10000) || (0x10FFFF <? c)
          then Err UnicodeDecodeError
          else cons_char c (bytes_decode r3)
        | _, _, _ => Err UnicodeDecodeError
        end
      | _ => Err UnicodeDecodeError
      end
    else Err UnicodeDecodeError.
Proof. reflexivity. Qed.

Lemma cont_byte (x : Z) : 0 <= x < 64 -> cont (byte_of_Z (0x80 + x)) = Some x.
Proof.
  intros Hx. unfold cont. rewrite Z_of_byte_of_Z by lia.
  destruct (Z.leb_spec 0x80 (0x80 + x)), (Z.leb_spec (0x80 + x) 0xBF);
    cbn; try lia. f_equal. lia.
Qed.

Ltac decide_tests :=
  repeat match goal with
  | |- context [?a <? ?b] => destruct (Z.ltb_spec a b); try lia
  | |- context [?a <=? ?b] => destruct (Z.leb_spec a b); try lia
  end.

Lemma utf8_char_decode (c : Z) (cb rest : bytes) :
  utf8_char c = Ok cb ->
  bytes_decode (cb ++ rest) = cons_char c (bytes_decode rest).
Proof.
  unfold utf8_char.
  destruct (Z.ltb_spec c 0); [discriminate|].
  destruct (Z.ltb_spec c 0x80).
  { intros [= <-]. cbn [app]. rewrite bytes_decode_cons. cbv zeta.
    rewrite Z_of_byte_of_Z by lia. decide_tests. reflexivity. }
  destruct (Z.ltb_spec c 0x800).
  { intros [= <-]. cbn [app]. rewrite bytes_decode_cons. cbv zeta.
    assert (2 <= c / 64 < 32) by (Z.div_mod_to_equations; lia).
    assert (0 <= c mod 64 < 64) by (apply Z.mod_pos_bound; lia).
    rewrite Z_of_byte_of_Z by lia. rewrite cont_byte by lia.
    decide_tests. f_equal. Z.div_mod_to_equations; lia. }
  destruct (Z.ltb_spec c 0x10000).
  { destruct (Z.leb_spec 0xD800 c), (Z.leb_spec c 0xDFFF); cbn [andb];
      try discriminate.
    all: intros [= <-]; cbn [app]; rewrite bytes_decode_cons; cbv zeta.
    all: assert (0 <= c / 4096 < 16) by (Z.div_mod_to_equations; lia).
    all: assert (0 <= (c / 64) mod 64 < 64) by (apply Z.mod_pos_bound; lia).
    all: assert (0 <= c mod 64 < 64) by (apply Z.mod_pos_bound; lia).
    all: rewrite Z_of_byte_of_Z by lia; rewrite !cont_byte by lia.
    all: replace ((224 + c / 4096 - 224) * 4096 + (c / 64) mod 64 * 64 + c mod 64)
         with c by (Z.div_mod_to_equations; lia).
    all: decide_tests; cbn [orb andb]; reflexivity. }
  destruct (Z.leb_spec c 0x10FFFF); [|discriminate].
  intros [= <-]; cbn [app]; rewrite bytes_decode_cons; cbv zeta.
  assert (0 <= c / 262144 < 5) by (Z.div_mod_to_equations; lia).
  assert (0 <= (c / 4096) mod 64 < 64) by (apply Z.mod_pos_bound; lia).
  assert (0 <= (c / 64) mod 64 < 64) by (apply Z.mod_pos_bound; lia).
  assert (0 <= c mod 64 < 64) by (apply Z.mod_pos_bound; lia).
  rewrite Z_of_byte_of_Z by lia; rewrite !cont_byte by lia.
  replace ((240 + c / 262144 - 240) * 262144 + (c / 4096) mod 64 * 4096
           + (c / 64) mod 64 * 64 + c mod 64)
    with c by (Z.div_mod_to_equations; lia).
  decide_tests; cbn [orb andb]; reflexivity.
Qed.

Lemma str_decode_encode (s : str) (bs : bytes) :
  str_encode s = Ok bs -> bytes_decode bs = Ok s.
Proof.
  revert bs. induction s as [|c s IH]; intros bs; cbn [str_encode].
  - intros [= <-]. reflexivity.
  - destruct (utf8_char c) as [cb|] eqn:Ec; [|discriminate].
    destruct (str_encode s) as [rest|]; [|discriminate].
    intros [= <-]. rewrite (utf8_char_decode _ _ _ Ec), (IH rest eq_refl).
    reflexivity.
Qed.

End TextFacts.

(** ** The codec *)

Module XDRFacts.
Import Wire XDR Props Samples WireFacts TextFacts.

(** *** The encoder: splitting a successful run *)

Lemma andThen_inv (a b : Encoder) (bs : bytes) :
  (a >>> b) = Ok bs -> exists b1 b2, a = Ok b1 /\ b = Ok b2 /\ bs = b1 ++ b2.
Proof.
  unfold andThen. destruct a as [x|]; [|discriminate].
  destruct b as [y|]; [|discriminate]. intros [= <-]. eauto.
Qed.

Lemma andThen_err_l (a b : Encoder) : is_Err a -> is_Err (a >>> b).
Proof. destruct a; cbn; [tauto|auto]. Qed.

Lemma andThen_err_r (a b : Encoder) : is_Err b -> is_Err (a >>> b).
Proof. destruct a, b; cbn; tauto. Qed.

Ltac split_enc H :=
  let b1 := fresh "b" in
  let b2 := fresh "b" in
  let H1 := fresh "E" in
  apply andThen_inv in H; destruct H as (b1 & b2 & H1 & H & ->).

Lemma calculate_range (n : Z) : 0 <= calculate n < 4.
Proof. unfold calculate. apply Z.mod_pos_bound. lia. Qed.

(** *** The decoder on bytes the encoder wrote *)

Lemma decodes_ret {A} (v : A) : decodes (ret v) [] v.
Proof. intros pre post. unfold ret. rewrite len_nil. f_equal. f_equal. lia. Qed.

Lemma decodes_bind {A B} (m : Decoder A) (k : A -> Decoder B)
  (b1 b2 : bytes) (a : A) (r : B) :
  decodes m b1 a -> decodes (k a) b2 r -> decodes (bind m k) (b1 ++ b2) r.
Proof.
  intros Hm Hk pre post. unfold bind.
  rewrite <- (app_assoc b1 b2 post), Hm.
  rewrite (app_assoc pre b1 (b2 ++ post)), <- len_app, Hk.
  rewrite !len_app. f_equal. f_equal. lia.
Qed.

Lemma decodes_bind_last {A B} (m : Decoder A) (k : A -> Decoder B)
  (bs : bytes) (a : A) (r : B) :
  decodes m bs a -> decodes (k a) [] r -> decodes (bind m k) bs r.
Proof.
  intros Hm Hk. rewrite <- (app_nil_r bs). eapply decodes_bind; eauto.
Qed.

Lemma decodes_read (n : Z) (bs : bytes) :
  len bs = n -> decodes (_read_bytes n) bs bs.
Proof.
  intros <- pre post. unfold _read_bytes.
  rewrite !len_app.
  destruct (Z.gtb_spec (len pre + len bs) (len pre + (len bs + len post))).
  { pose proof (len_nonneg post). lia. }
  unfold slice.
  replace (Z.to_nat (len pre + len bs - len pre)) with (length bs)
    by (unfold len; lia).
  replace (Z.to_nat (len pre)) with (length pre) by (unfold len; lia).
  now rewrite drop_app_length, take_app_length.
Qed.

Lemma decodes_skip (n : Z) (bs : bytes) :
  len bs = n -> decodes (_skip_bytes n) bs tt.
Proof.
  intros <- pre post. unfold _skip_bytes.
  rewrite !len_app.
  destruct (Z.gtb_spec (len pre + len bs) (len pre + (len bs + len post))).
  { pose proof (len_nonneg post). lia. }
  reflexivity.
Qed.

Lemma len_be_pack (n : nat) (v : Z) : len (be_pack n v) = Z.of_nat n.
Proof. unfold len. now rewrite length_be_pack. Qed.

Lemma decodes_uint32 (v : Z) (bs : bytes) :
  _encode_uint32 v = Ok bs -> decodes _decode_uint32 bs v.
Proof.
  intros H. apply pack_I_inv in H as [Hv ->].
  unfold _decode_uint32. eapply decodes_bind_last.
  - apply decodes_read. apply len_be_pack.
  - rewrite be_unpack_pack by (change (256 ^ Z.of_nat 4) with (2 ^ 32); lia).
    apply decodes_ret.
Qed.

Lemma decodes_uint64 (v : Z) (bs : bytes) :
  _encode_uint64 v = Ok bs -> decodes _decode_uint64 bs v.
Proof.
  intros H. apply pack_Q_inv in H as [Hv ->].
  unfold _decode_uint64. eapply decodes_bind_last.
  - apply decodes_read. apply len_be_pack.
  - rewrite be_unpack_pack by (change (256 ^ Z.of_nat 8) with (2 ^ 64); lia).
    apply decodes_ret.
Qed.

Lemma decodes_expect_type (t : NFSType) (bs : bytes) :
  _encode_uint32 (NFSType_value t) = Ok bs -> decodes (expect_type t) bs tt.
Proof.
  intros H. unfold expect_type. eapply decodes_bind_last.
  - apply decodes_uint32, H.
  - rewrite Z.eqb_refl. apply decodes_ret.
Qed.

Lemma decodes_fixed_opaque (data : bytes) (n : Z) (bs : bytes) :
  _encode_fixed_opaque data n = Ok bs ->
  bs = data /\ decodes (_decode_fixed_opaque n) bs data.
Proof.
  unfold _encode_fixed_opaque, extend.
  destruct (Z.eqb_spec (len data) n); cbn; [|discriminate].
  intros [= <-]. split; [reflexivity|]. now apply decodes_read.
Qed.

Lemma decodes_variable_opaque (data bs : bytes) :
  _encode_variable_opaque data = Ok bs ->
  decodes _decode_variable_opaque bs data.
Proof.
  unfold _encode_variable_opaque, extend. intros H.
  split_enc H. split_enc H. injection E0 as <-. injection H as <-.
  unfold _decode_variable_opaque.
  eapply decodes_bind; [apply decodes_uint32, E|].
  eapply decodes_bind; [now apply decodes_read|].
  eapply decodes_bind_last; [|apply decodes_ret].
  apply decodes_skip, len_zeros, calculate_range.
Qed.

Lemma decodes_string (s : str) (bs : bytes) :
  _encode_string s = Ok bs -> decodes _decode_string bs s.
Proof.
  unfold _encode_string, extend.
  destruct (str_encode s) as [encoded|] eqn:Es; [|discriminate]. intros H.
  split_enc H. split_enc H. injection E0 as <-. injection H as <-.
  unfold _decode_string.
  eapply decodes_bind; [apply decodes_uint32, E|].
  eapply decodes_bind; [now apply decodes_read|].
  eapply decodes_bind_last.
  - apply decodes_skip, len_zeros, calculate_range.
  - rewrite (str_decode_encode _ _ Es). apply decodes_ret.
Qed.

Lemma decodes_items {A B} (enc : A -> Encoder) (dec : Decoder B)
  (view : A -> B) (items : list A) :
  (forall x b, In x items -> enc x = Ok b -> decodes dec b (view x)) ->
  forall bs, encode_items enc items = Ok bs ->
  decodes (decode_items dec (length items)) bs (map view items).
Proof.
  induction items as [|x items IH]; intros Hx bs; cbn [encode_items].
  - intros [= <-]. apply decodes_ret.
  - intros H. split_enc H. cbn [length decode_items map].
    eapply decodes_bind; [apply Hx; [now left|exact E]|].
    eapply decodes_bind_last; [|apply decodes_ret].
    apply IH; [|exact H]. intros y c Hy. apply Hx. now right.
Qed.

Lemma decodes_array {A B} (enc : A -> Encoder) (dec : Decoder B)
  (view : A -> B) (items : list A) (bs : bytes) :
  (forall x b, In x items -> enc x = Ok b -> decodes dec b (view x)) ->
  _encode_array items enc = Ok bs ->
  decodes (_decode_array dec) bs (map view items).
Proof.
  intros Hx H. unfold _encode_array in H. split_enc H.
  unfold _decode_array.
  eapply decodes_bind; [apply decodes_uint32, E|].
  replace (Z.to_nat (len items)) with (length items) by (unfold len; lia).
  eapply decodes_items; eauto.
Qed.

Lemma decodes_attributes (attrs : Attributes) (bs : bytes) :
  _encode_attributes attrs = Ok bs -> decodes _decode_attributes bs attrs.
Proof.
  unfold _encode_attributes. intros H.
  split_enc H. split_enc H. split_enc H.
  unfold _decode_attributes.
  eapply decodes_bind; [apply decodes_expect_type, E|].
  eapply decodes_bind; [apply decodes_uint32, E0|].
  destruct attrs as [[sz|] [mt|]]; cbn in *.
  - eapply decodes_bind.
    { eapply decodes_bind_last; [apply decodes_uint64, E1|apply decodes_ret]. }
    eapply decodes_bind_last; [|apply decodes_ret].
    eapply decodes_bind_last; [apply decodes_uint64, H|apply decodes_ret].
  - injection H as <-. eapply decodes_bind.
    { eapply decodes_bind_last; [apply decodes_uint64, E1|apply decodes_ret]. }
    eapply decodes_bind_last; apply decodes_ret.
  - injection E1 as <-. eapply decodes_bind; [apply decodes_ret|].
    eapply decodes_bind_last; [|apply decodes_ret].
    eapply decodes_bind_last; [apply decodes_uint64, H|apply decodes_ret].
  - injection E1 as <-. injection H as <-.
    eapply decodes_bind; [apply decodes_ret|].
    eapply decodes_bind_last; apply decodes_ret.
Qed.

Lemma decodes_filehandle (handle : str) (bs : bytes) :
  _encode_filehandle handle = Ok bs ->
  decodes _decode_filehandle bs (as_hex handle).
Proof.
  unfold _encode_filehandle, as_hex. intros H. split_enc H.
  destruct (str_encode handle) as [data|]; [|discriminate].
  unfold _decode_filehandle.
  eapply decodes_bind; [apply decodes_expect_type, E|].
  eapply decodes_bind_last; [apply decodes_variable_opaque, H|].
  apply decodes_ret.
Qed.

Lemma decodes_stateid (sid : StateId) (bs : bytes) :
  _encode_stateid sid = Ok bs ->
  decodes _decode_stateid bs (view_stateid sid).
Proof.
  unfold _encode_stateid. intros H. split_enc H. split_enc H.
  apply decodes_fixed_opaque in H as [-> H].
  unfold _decode_stateid.
  eapply decodes_bind; [apply decodes_expect_type, E|].
  eapply decodes_bind; [apply decodes_uint32, E0|].
  eapply decodes_bind_last; [exact H|]. apply decodes_ret.
Qed.

Lemma decodes_deviceid (dev : str) (bs : bytes) :
  _encode_deviceid dev = Ok bs -> decodes _decode_deviceid bs (as_hex dev).
Proof.
  unfold _encode_deviceid, as_hex. intros H. split_enc H.
  destruct (str_encode dev) as [data|]; [|discriminate].
  apply decodes_fixed_opaque in H as [-> H].
  unfold _decode_deviceid.
  eapply decodes_bind; [apply decodes_expect_type, E|].
  eapply decodes_bind_last; [exact H|]. apply decodes_ret.
Qed.

Lemma decodes_data_server (server : DataServer) (bs : bytes) :
  _encode_data_server server = Ok bs ->
  decodes _decode_data_server bs (view_data_server server).
Proof.
  unfold _encode_data_server. intros H.
  split_enc H. split_enc H. split_enc H.
  unfold _decode_data_server.
  eapply decodes_bind; [apply decodes_deviceid, E|].
  eapply decodes_bind; [apply decodes_stateid, E0|].
  eapply decodes_bind.
  { eapply decodes_array; [|exact E1].
    intros x c _. apply decodes_filehandle. }
  eapply decodes_bind_last; [apply decodes_attributes, H|].
  apply decodes_ret.
Qed.

Lemma decodes_mirror (mirror : Mirror) (bs : bytes) :
  _encode_mirror mirror = Ok bs ->
  decodes _decode_mirror bs (view_mirror mirror).
Proof.
  unfold _encode_mirror. intros H. split_enc H.
  unfold _decode_mirror.
  eapply decodes_bind; [apply decodes_string, E|].
  eapply decodes_bind_last; [|apply decodes_ret].
  eapply decodes_array; [|exact H].
  intros x c _. apply decodes_data_server.
Qed.

Lemma decodes_layout (layout : Layout) (bs : bytes) :
  (_encode_uint32 (NFSType_value LAYOUT_WCC) >>>
   _encode_array (mirrors layout) _encode_mirror) = Ok bs ->
  decodes decode_layout_wcc_body bs (decoded_view layout).
Proof.
  intros H. split_enc H. unfold decode_layout_wcc_body.
  eapply decodes_bind; [apply decodes_expect_type, E|].
  eapply decodes_bind_last; [|apply decodes_ret].
  eapply decodes_array; [|exact H].
  intros x c _. apply decodes_mirror.
Qed.

(** *** The decoder on a buffer cut short *)

Lemma len_take {A} (k : nat) (l : list A) :
  len (take k l) = Z.min (Z.of_nat k) (len l).
Proof. unfold len. rewrite length_take. lia. Qed.

Lemma slice_take (data : bytes) (k : nat) (lo hi : Z) :
  0 <= lo -> hi <= Z.of_nat k -> slice (take k data) lo hi = slice data lo hi.
Proof.
  intros Hlo Hhi. unfold slice.
  rewrite skipn_firstn_comm, firstn_firstn. f_equal. lia.
Qed.

Lemma take_all {A} (l : list A) : take (length l) l = l.
Proof. apply firstn_all. Qed.

(** A decoder that succeeds moves the offset forward and stays inside
    the buffer. *)
Lemma cut_safe_bounds {A} (dec : Decoder A) (data : bytes) (o o' : Z) (a : A) :
  cut_safe dec -> 0 <= o <= len data -> dec data o = Ok (a, o') ->
  o <= o' <= len data.
Proof.
  intros Hd Ho E. specialize (Hd data (length data) o).
  rewrite take_all, E in Hd. cbn in Hd. destruct (Hd Ho) as (? & ? & _). lia.
Qed.

Lemma cut_safe_ret {A} (a : A) : cut_safe (ret a).
Proof.
  intros data k offset Ho. rewrite len_take in Ho.
  unfold cut_outcome, ret.
  destruct (Z.leb_spec offset (Z.of_nat k)); [|lia].
  repeat split; lia.
Qed.

Lemma cut_safe_raise {A} (e : exn) : cut_safe (@raise A e).
Proof. intros data k offset Ho. cbn. now left. Qed.

Lemma cut_safe_bind {A B} (m : Decoder A) (f : A -> Decoder B) :
  cut_safe m ->
  (forall a data o o', m data o = Ok (a, o') -> cut_safe (f a)) ->
  cut_safe (bind m f).
Proof.
  intros Hm Hf data k o Ho.
  pose proof (Hm data k o Ho) as H1. unfold cut_outcome, bind in *.
  rewrite len_take in Ho.
  destruct (m data o) as [[a o1]|e] eqn:E.
  - destruct H1 as (Ha & Hb & ->). specialize (Hf a data o o1 E).
    destruct (Z.leb_spec o1 (Z.of_nat k)).
    + assert (Ho1 : 0 <= o1 <= len (take k data)) by (rewrite len_take; lia).
      specialize (Hf data k o1 Ho1). unfold cut_outcome in Hf.
      destruct (f a data o1) as [[r o2]|e2]; [|exact Hf].
      destruct Hf as (? & ? & ->). repeat split; lia.
    + destruct (f a data o1) as [[r o2]|e2] eqn:E2; [|now right].
      assert (Hb1 : 0 <= o1 <= len data) by lia.
      pose proof (cut_safe_bounds _ _ _ _ _ Hf Hb1 E2).
      destruct (Z.leb_spec o2 (Z.of_nat k)); [lia|].
      repeat split; lia.
  - destruct H1 as [-> | ->]; auto.
Qed.

Lemma cut_safe_read (n : Z) : 0 <= n -> cut_safe (_read_bytes n).
Proof.
  intros Hn data k o Ho. unfold cut_outcome, _read_bytes.
  rewrite len_take in *.
  destruct (Z.gtb_spec (o + n) (len data)).
  - destruct (Z.gtb_spec (o + n) (Z.min (Z.of_nat k) (len data))); [|lia].
    now left.
  - split; [lia|]. split; [lia|].
    destruct (Z.leb_spec (o + n) (Z.of_nat k)).
    + destruct (Z.gtb_spec (o + n) (Z.min (Z.of_nat k) (len data))); [lia|].
      now rewrite slice_take by lia.
    + destruct (Z.gtb_spec (o + n) (Z.min (Z.of_nat k) (len data))); [|lia].
      reflexivity.
Qed.

Lemma cut_safe_skip (n : Z) : 0 <= n -> cut_safe (_skip_bytes n).
Proof.
  intros Hn data k o Ho. unfold cut_outcome, _skip_bytes.
  rewrite len_take in *.
  destruct (Z.gtb_spec (o + n) (len data)).
  - destruct (Z.gtb_spec (o + n) (Z.min (Z.of_nat k) (len data))); [|lia].
    now left.
  - split; [lia|]. split; [lia|].
    destruct (Z.leb_spec (o + n) (Z.of_nat k)).
    + destruct (Z.gtb_spec (o + n) (Z.min (Z.of_nat k) (len data))); [lia|].
      reflexivity.
    + destruct (Z.gtb_spec (o + n) (Z.min (Z.of_nat k) (len data))); [|lia].
      reflexivity.
Qed.

Lemma decode_uint32_nonneg (data : bytes) (o o' v : Z) :
  _decode_uint32 data o = Ok (v, o') -> 0 <= v.
Proof.
  unfold _decode_uint32, bind, ret.
  destruct (_read_bytes 4 data o) as [[b o1]|]; [|discriminate].
  intros [= <- _]. apply be_unpack_range.
Qed.

Lemma cut_safe_uint32 : cut_safe _decode_uint32.
Proof.
  apply cut_safe_bind; [apply cut_safe_read; lia|].
  intros. apply cut_safe_ret.
Qed.

Lemma cut_safe_uint64 : cut_safe _decode_uint64.
Proof.
  apply cut_safe_bind; [apply cut_safe_read; lia|].
  intros. apply cut_safe_ret.
Qed.

Lemma cut_safe_expect_type (t : NFSType) : cut_safe (expect_type t).
Proof.
  apply cut_safe_bind; [apply cut_safe_uint32|].
  intros a _ _ _ _. destruct (negb _); [apply cut_safe_raise|apply cut_safe_ret].
Qed.

Lemma cut_safe_variable_opaque : cut_safe _decode_variable_opaque.
Proof.
  apply cut_safe_bind; [apply cut_safe_uint32|].
  intros n data o o' Hn. apply decode_uint32_nonneg in Hn.
  apply cut_safe_bind; [now apply cut_safe_read|]. intros.
  apply cut_safe_bind; [apply cut_safe_skip, calculate_range|]. intros.
  apply cut_safe_ret.
Qed.

Lemma cut_safe_string : cut_safe _decode_string.
Proof.
  apply cut_safe_bind; [apply cut_safe_uint32|].
  intros n data o o' Hn. apply decode_uint32_nonneg in Hn.
  apply cut_safe_bind; [now apply cut_safe_read|]. intros b ? ? ? ?.
  apply cut_safe_bind; [apply cut_safe_skip, calculate_range|]. intros.
  destruct (bytes_decode b); [apply cut_safe_ret|apply cut_safe_raise].
Qed.

Lemma cut_safe_items {A} (dec : Decoder A) (n : nat) :
  cut_safe dec -> cut_safe (decode_items dec n).
Proof.
  intros Hd. induction n as [|n IH]; cbn [decode_items].
  - apply cut_safe_ret.
  - apply cut_safe_bind; [exact Hd|]. intros.
    apply cut_safe_bind; [exact IH|]. intros. apply cut_safe_ret.
Qed.

Lemma cut_safe_array {A} (dec : Decoder A) :
  cut_safe dec -> cut_safe (_decode_array dec).
Proof.
  intros Hd. apply cut_safe_bind; [apply cut_safe_uint32|].
  intros. now apply cut_safe_items.
Qed.

Lemma cut_safe_optional (present : bool) :
  cut_safe (if present then (let* v := _decode_uint64 in ret (Some v))
            else ret None).
Proof.
  destruct present; [|apply cut_safe_ret].
  apply cut_safe_bind; [apply cut_safe_uint64|]. intros. apply cut_safe_ret.
Qed.

Lemma cut_safe_attributes : cut_safe _decode_attributes.
Proof.
  apply cut_safe_bind; [apply cut_safe_expect_type|]. intros.
  apply cut_safe_bind; [apply cut_safe_uint32|]. intros mask ? ? ? ?.
  apply cut_safe_bind; [apply cut_safe_optional|]. intros.
  apply cut_safe_bind; [apply cut_safe_optional|]. intros.
  apply cut_safe_ret.
Qed.

Lemma cut_safe_filehandle : cut_safe _decode_filehandle.
Proof.
  apply cut_safe_bind; [apply cut_safe_expect_type|]. intros.
  apply cut_safe_bind; [apply cut_safe_variable_opaque|]. intros.
  apply cut_safe_ret.
Qed.

Lemma cut_safe_stateid : cut_safe _decode_stateid.
Proof.
  apply cut_safe_bind; [apply cut_safe_expect_type|]. intros.
  apply cut_safe_bind; [apply cut_safe_uint32|]. intros.
  apply cut_safe_bind; [apply cut_safe_read; lia|]. intros.
  apply cut_safe_ret.
Qed.

Lemma cut_safe_deviceid : cut_safe _decode_deviceid.
Proof.
  apply cut_safe_bind; [apply cut_safe_expect_type|]. intros.
  apply cut_safe_bind; [apply cut_safe_read; lia|]. intros.
  apply cut_safe_ret.
Qed.

Lemma cut_safe_data_server : cut_safe _decode_data_server.
Proof.
  apply cut_safe_bind; [apply cut_safe_deviceid|]. intros.
  apply cut_safe_bind; [apply cut_safe_stateid|]. intros.
  apply cut_safe_bind; [apply cut_safe_array, cut_safe_filehandle|]. intros.
  apply cut_safe_bind; [apply cut_safe_attributes|]. intros.
  apply cut_safe_ret.
Qed.

Lemma cut_safe_mirror : cut_safe _decode_mirror.
Proof.
  apply cut_safe_bind; [apply cut_safe_string|]. intros.
  apply cut_safe_bind; [apply cut_safe_array, cut_safe_data_server|]. intros.
  apply cut_safe_ret.
Qed.

Lemma cut_safe_layout : cut_safe decode_layout_wcc_body.
Proof.
  apply cut_safe_bind; [apply cut_safe_expect_type|]. intros.
  apply cut_safe_bind; [apply cut_safe_array, cut_safe_mirror|]. intros.
  apply cut_safe_ret.
Qed.

(** *** Errors of the encoder *)

Lemma encode_items_err {A} (enc : A -> Encoder) (items : list A) (x : A) :
  In x items -> is_Err (enc x) -> is_Err (encode_items enc items).
Proof.
  induction items as [|y items IH]; intros Hin Hx; [destruct Hin|].
  cbn [encode_items]. destruct Hin as [->|Hin].
  - now apply andThen_err_l.
  - apply andThen_err_r. auto.
Qed.

Lemma encode_array_err {A} (enc : A -> Encoder) (items : list A) (x : A) :
  In x items -> is_Err (enc x) -> is_Err (_encode_array items enc).
Proof.
  intros. apply andThen_err_r. eapply encode_items_err; eauto.
Qed.

Lemma len_ljust (data : bytes) (width : Z) :
  len (ljust data width) = Z.max (len data) width.
Proof.
  unfold ljust. rewrite len_app. unfold len, zeros.
  rewrite length_replicate. lia.
Qed.

Lemma encode_deviceid_err (dev : str) :
  (forall d, str_encode dev = Ok d -> len d <> 16) ->
  is_Err (_encode_deviceid dev).
Proof.
  intros H. unfold _encode_deviceid. apply andThen_err_r.
  destruct (str_encode dev) as [d|]; [|exact I].
  unfold _encode_fixed_opaque.
  destruct (Z.eqb_spec (len d) 16) as [Hd|]; [|exact I].
  now destruct (H d eq_refl).
Qed.

Lemma encode_stateid_err (sid : StateId) :
  12 < len (other sid) -> is_Err (_encode_stateid sid).
Proof.
  intros H. unfold _encode_stateid. do 2 apply andThen_err_r.
  unfold _encode_fixed_opaque.
  destruct (Z.eqb_spec (len (ljust (other sid) 12)) 12) as [Hd|]; [|exact I].
  rewrite len_ljust in Hd. lia.
Qed.

Lemma encode_data_server_err (s : DataServer) :
  (forall d, str_encode (device_id s) = Ok d -> len d <> 16) \/
  12 < len (other (state_id s)) ->
  is_Err (_encode_data_server s).
Proof.
  intros [H|H]; unfold _encode_data_server.
  - now apply andThen_err_l, encode_deviceid_err.
  - now apply andThen_err_r, andThen_err_l, encode_stateid_err.
Qed.

(** The encoder treats a layout as it treats the layout with every
    [other] padded to 12 bytes. *)
Lemma ljust_ljust (data : bytes) (width : Z) :
  ljust (ljust data width) width = ljust data width.
Proof.
  unfold ljust at 1. rewrite len_ljust.
  replace (zeros (width - Z.max (len data) width)) with (@nil byte).
  - apply app_nil_r.
  - unfold zeros. replace (Z.to_nat (width - Z.max (len data) width))
      with 0%nat by lia. reflexivity.
Qed.

Lemma encode_items_map {A B} (g : A -> B) (enc : B -> Encoder)
  (enc' : A -> Encoder) (items : list A) :
  (forall x, enc (g x) = enc' x) ->
  encode_items enc (map g items) = encode_items enc' items.
Proof.
  intros H. induction items as [|x items IH]; [reflexivity|].
  cbn [map encode_items]. now rewrite H, IH.
Qed.

Lemma encode_array_map {A B} (g : A -> B) (enc : B -> Encoder)
  (enc' : A -> Encoder) (items : list A) :
  (forall x, enc (g x) = enc' x) ->
  _encode_array (map g items) enc = _encode_array items enc'.
Proof.
  intros H. unfold _encode_array, len. rewrite length_map.
  now rewrite (encode_items_map g enc enc' items H).
Qed.

Lemma encode_stateid_padded (sid : StateId) :
  _encode_stateid (view_stateid sid) = _encode_stateid sid.
Proof.
  unfold _encode_stateid, view_stateid. cbn [seqid other].
  now rewrite ljust_ljust.
Qed.

Lemma encode_data_server_padded (s : DataServer) :
  _encode_data_server (pad_data_server s) = _encode_data_server s.
Proof.
  unfold _encode_data_server, pad_data_server.
  cbn [device_id state_id file_handles attributes].
  now rewrite encode_stateid_padded.
Qed.

Lemma encode_mirror_padded (m : Mirror) :
  _encode_mirror (pad_mirror m) = _encode_mirror m.
Proof.
  unfold _encode_mirror, pad_mirror. cbn [mirror_id data_servers].
  now rewrite (encode_array_map pad_data_server _encode_data_server
                 _encode_data_server _ encode_data_server_padded).
Qed.

(** Claim C4 (as amended).  Encoding raises whenever some data server has a
    device id that is not exactly 16 bytes or an [other] longer than 12
    bytes.  An [other] of at most 12 bytes is not refused for its
    length: [_encode_stateid] writes the tag, the [seqid] and then the
    [other] in full, followed by zero bytes up to 12.  For every layout
    [encode_layout_wcc] does exactly what it does for the layout in
    which every [other] is padded with zero bytes to 12, returning the
    same bytes or raising the same error. *)
Theorem fixed_width_contract (self_buffer : bytes) (layout : Layout)
  (m : Mirror) (s : DataServer) :
  In m (mirrors layout) -> In s (data_servers m) ->
  ((forall d, str_encode (device_id s) = Ok d -> len d <> 16) \/
   12 < len (other (state_id s)) ->
   exists e, encode_layout_wcc self_buffer layout
             = Err (XDRError_failed_encode e)) /\
  (0 <= seqid (state_id s) < 2 ^ 32 ->
   len (other (state_id s)) <= 12 ->
   _encode_stateid (state_id s)
   = Ok (be_pack 4 (NFSType_value STATEID) ++
         be_pack 4 (seqid (state_id s)) ++
         other (state_id s) ++ zeros (12 - len (other (state_id s))))) /\
  encode_layout_wcc self_buffer layout
  = encode_layout_wcc self_buffer (with_padded_other layout).
Proof.
  intros Hm Hs. split; [|split].
  - intros Hbad.
    assert (He : is_Err (_encode_uint32 (NFSType_value LAYOUT_WCC) >>>
                         _encode_array (mirrors layout) _encode_mirror)).
    { apply andThen_err_r. apply (encode_array_err _ _ m Hm).
      unfold _encode_mirror. apply andThen_err_r.
      apply (encode_array_err _ _ s Hs). now apply encode_data_server_err. }
    unfold encode_layout_wcc. destruct (_ >>> _) as [|e]; [destruct He|].
    now exists e.
  - intros Hseq Hle. unfold _encode_stateid, _encode_uint32.
    rewrite (pack_I_ok (NFSType_value STATEID)) by (vm_compute; split; congruence).
    rewrite (pack_I_ok _ Hseq).
    unfold _encode_fixed_opaque. rewrite len_ljust.
    destruct (Z.eqb_spec (Z.max (len (other (state_id s))) 12) 12); [|lia].
    reflexivity.
  - unfold encode_layout_wcc, with_padded_other. cbn [mirrors].
    now rewrite (encode_array_map pad_mirror _encode_mirror _encode_mirror
                   _ encode_mirror_padded).
Qed.

Lemma fixed_width_contract_witness :
  (exists e, encode_layout_wcc [] fixture_layout
             = Err (XDRError_failed_encode e)) /\
  _encode_stateid {| seqid := 1; other := b "abc" |}
  = Ok (be_pack 4 (NFSType_value STATEID) ++ be_pack 4 1 ++
        b "abc" ++ zeros (12 - len (b "abc"))).
Proof.
  split.
  - refine (proj1 (fixed_width_contract [] fixture_layout fixture_mirror
                     fixture_server _ _) _).
    + left. reflexivity.
    + left. reflexivity.
    + right. vm_compute. reflexivity.
  - refine (proj1 (proj2 (fixed_width_contract [] short_other_layout
                            {| mirror_id := text "mirror1";
                               data_servers :=
                                 [ {| device_id := text "0123456789abcdef";
                                      state_id :=
                                        {| seqid := 1; other := b "abc" |};
                                      file_handles := [];
                                      attributes :=
                                        {| attr_size := None;
                                           attr_mtime := None |} |} ] |}
                            {| device_id := text "0123456789abcdef";
                               state_id := {| seqid := 1; other := b "abc" |};
                               file_handles := [];
                               attributes := {| attr_size := None;
                                                attr_mtime := None |} |}
                            _ _)) _ _).
    + left. reflexivity.
    + left. reflexivity.
    + vm_compute. split; [discriminate|reflexivity].
    + vm_compute. discriminate.
Defined.

(** Claim C4, counterexample: a 3-byte [other] is not refused; the encoder
    returns 76 bytes, of which bytes 52 to 63 are [abc] and nine zero
    bytes. *)
Lemma short_other_is_padded :
  exists bs, encode_layout_wcc [] short_other_layout = Ok bs /\
             len bs = 76 /\
             slice bs 52 64 = b "abc" ++ zeros 9.
Proof.
  eexists. split; [vm_compute; reflexivity|].
  split; vm_compute; reflexivity.
Qed.

(** *** The attribute mask *)

Lemma land_low_bits (m : Z) :
  (Z.land m 1 = 0 \/ Z.land m 1 = 1) /\ (Z.land m 2 = 0 \/ Z.land m 2 = 2) /\
  Z.land m 3 = Z.land m 1 + Z.land m 2.
Proof.
  assert (H3 : Z.land m 3 = Z.land m 1 + Z.land m 2).
  { rewrite <- Z.add_lor_land, <- Z.land_lor_distr_r.
    change (Z.lor 1 2) with 3.
    replace (Z.land (Z.land m 1) (Z.land m 2)) with (Z.land m (Z.land 1 2)).
    - change (Z.land 1 2) with 0. rewrite Z.land_0_r. lia.
    - apply Z.bits_inj'. intros n _. rewrite !Z.land_spec.
      destruct (Z.testbit m n), (Z.testbit 1 n), (Z.testbit 2 n); reflexivity. }
  pose proof (Z.land_ones m 1 ltac:(lia)) as H1.
  pose proof (Z.land_ones m 2 ltac:(lia)) as H2.
  change (Z.ones 1) with 1 in H1. change (Z.ones 2) with 3 in H2.
  change (2 ^ 1) with 2 in H1. change (2 ^ 2) with 4 in H2.
  repeat split; [| |exact H3]; Z.div_mod_to_equations; lia.
Qed.

Lemma length_slice (data : bytes) (lo hi : Z) :
  (length (slice data lo hi) <= Z.to_nat (hi - lo))%nat.
Proof. unfold slice. rewrite length_take. lia. Qed.

Lemma read_bytes_inv (n : Z) (data : bytes) (o o' : Z) (bs : bytes) :
  _read_bytes n data o = Ok (bs, o') ->
  o' = o + n /\ (length bs <= Z.to_nat n)%nat.
Proof.
  unfold _read_bytes. destruct (_ >? _); [discriminate|].
  intros [= <- <-]. split; [reflexivity|].
  pose proof (length_slice data o (o + n)).
  replace (o + n - o) with n in * by lia. assumption.
Qed.

Lemma be_unpack_bound (bs : bytes) (n : nat) :
  (length bs <= n)%nat -> 0 <= be_unpack bs < 256 ^ Z.of_nat n.
Proof.
  intros Hl. pose proof (be_unpack_range bs) as [H0 H1]. split; [exact H0|].
  eapply Z.lt_le_trans; [exact H1|].
  apply Z.pow_le_mono_r; lia.
Qed.

Lemma decode_uint32_inv (data : bytes) (o o' v : Z) :
  _decode_uint32 data o = Ok (v, o') -> 0 <= v < 2 ^ 32 /\ o' = o + 4.
Proof.
  unfold _decode_uint32, bind, ret.
  destruct (_read_bytes 4 data o) as [[bs o1]|] eqn:E; [|discriminate].
  intros [= <- <-]. apply read_bytes_inv in E as [-> Hl].
  split; [|reflexivity]. exact (be_unpack_bound bs 4 Hl).
Qed.

Lemma decode_uint64_inv (data : bytes) (o o' v : Z) :
  _decode_uint64 data o = Ok (v, o') -> 0 <= v < 2 ^ 64 /\ o' = o + 8.
Proof.
  unfold _decode_uint64, bind, ret.
  destruct (_read_bytes 8 data o) as [[bs o1]|] eqn:E; [|discriminate].
  intros [= <- <-]. apply read_bytes_inv in E as [-> Hl].
  split; [|reflexivity]. exact (be_unpack_bound bs 8 Hl).
Qed.

(** An optional 8-byte value that was decoded can be encoded again. *)
Lemma optional_uint64_inv (present : bool) (data : bytes) (o o' : Z)
  (v : option Z) :
  (if present then (let* x := _decode_uint64 in ret (Some x)) else ret None)
    data o = Ok (v, o') ->
  XDR.present v = present /\
  exists bs, match v with Some x => _encode_uint64 x | None => Ok [] end = Ok bs.
Proof.
  destruct present; unfold bind, ret.
  - destruct (_decode_uint64 data o) as [[x o1]|] eqn:E; [|discriminate].
    intros [= <- <-]. apply decode_uint64_inv in E as [Hx _].
    split; [reflexivity|]. eexists. apply pack_Q_ok, Hx.
  - intros [= <- <-]. split; [reflexivity|]. now eexists.
Qed.

Lemma bind_inv {A B} (m : Decoder A) (k : A -> Decoder B) (data : bytes)
  (o : Z) (r : B * Z) :
  bind m k data o = Ok r ->
  exists a o1, m data o = Ok (a, o1) /\ k a data o1 = Ok r.
Proof.
  unfold bind. destruct (m data o) as [[a o1]|]; [|discriminate]. eauto.
Qed.

(** Claim C8 (as amended).  Decoding an attribute set and encoding the result
    again keeps bits 0 and 1 of the mask and clears every other bit:
    the mask written is the mask read, masked with 3. *)
Theorem attribute_mask_keeps_known_bits (data : bytes) (offset offset' : Z)
  (attrs : Attributes) :
  _decode_attributes data offset = Ok (attrs, offset') ->
  exists mask bs,
    _decode_uint32 data (offset + 4) = Ok (mask, offset + 8) /\
    _encode_attributes attrs = Ok bs /\
    _decode_uint32 bs 4 = Ok (Z.land mask 3, 8).
Proof.
  unfold _decode_attributes. intros H.
  apply bind_inv in H as ([] & o1 & Et & H).
  assert (o1 = offset + 4) as ->.
  { unfold expect_type in Et. apply bind_inv in Et as (t & o & E & Et).
    apply decode_uint32_inv in E as [_ ->].
    destruct (negb _); [discriminate|]. now injection Et as <-. }
  apply bind_inv in H as (mask & o2 & Em & H).
  pose proof (decode_uint32_inv _ _ _ _ Em) as [Hmask ->].
  apply bind_inv in H as (sz & o3 & Es & H).
  apply optional_uint64_inv in Es as [Hs [bsz Ebsz]].
  apply bind_inv in H as (mt & o4 & Emt & H).
  apply optional_uint64_inv in Emt as [Hmt [bmt Ebmt]].
  unfold ret in H. injection H as <- <-.
  assert (Hcalc : _calculate_attribute_mask
                    {| attr_size := sz; attr_mtime := mt |} = Z.land mask 3).
  { unfold _calculate_attribute_mask. cbn [attr_size attr_mtime].
    rewrite Hs, Hmt.
    destruct (land_low_bits mask) as ([H1|H1] & [H2|H2] & ->);
      rewrite H1, H2; reflexivity. }
  assert (Hm3 : 0 <= Z.land mask 3 < 2 ^ 32).
  { destruct (land_low_bits mask) as ([H1|H1] & [H2|H2] & ->); rewrite H1, H2; cbn; lia. }
  exists mask. eexists. split; [rewrite Em; do 2 f_equal; lia|].
  unfold _encode_attributes. cbn [attr_size attr_mtime].
  rewrite Hcalc, Ebsz, Ebmt.
  unfold _encode_uint32. rewrite !pack_I_ok by (cbn; lia).
  cbn [andThen]. split; [reflexivity|].
  pose proof (decodes_uint32 (Z.land mask 3) _ (pack_I_ok _ Hm3)
                (be_pack 4 (NFSType_value ATTRIBUTE)) (bsz ++ bmt)) as Hd.
  exact Hd.
Qed.

(** Claim C8, counterexample: a mask with only bit 2 set is decoded to the
    empty attribute set, which is encoded with mask 0. *)
Lemma reserved_bit_is_lost :
  _decode_uint32 reserved_bit_attributes 4 = Ok (4, 8) /\
  _decode_attributes reserved_bit_attributes 0
  = Ok ({| attr_size := None; attr_mtime := None |}, 8) /\
  _encode_attributes {| attr_size := None; attr_mtime := None |}
  = Ok [x00; x00; x00; x05; x00; x00; x00; x00].
Proof. repeat split. Qed.

Lemma attribute_mask_witness :
  exists mask bs,
    _decode_uint32 reserved_bit_attributes (0 + 4) = Ok (mask, 0 + 8) /\
    _encode_attributes {| attr_size := None; attr_mtime := None |} = Ok bs /\
    _decode_uint32 bs 4 = Ok (Z.land mask 3, 8).
Proof.
  apply (attribute_mask_keeps_known_bits reserved_bit_attributes 0 8).
  reflexivity.
Defined.

(** *** Round trip *)

(** Claim C1 (as amended).  What [decode_layout_wcc] returns on the bytes that
    a fresh encoder produced for a layout is the layout with every
    device id and every file handle replaced by the lowercase
    hexadecimal text of its UTF-8 bytes and every [other] padded with
    zero bytes to 12 bytes; it is the layout itself when no mirror has a
    data server, in particular when there is no mirror. *)
Theorem roundtrip_as_decoded_view (layout : Layout) (bs : bytes) :
  encode_layout_wcc [] layout = Ok bs ->
  decode_layout_wcc bs = Ok (decoded_view layout) /\
  (Forall (fun m => data_servers m = []) (mirrors layout) ->
   decode_layout_wcc bs = Ok layout).
Proof.
  unfold encode_layout_wcc.
  destruct (_ >>> _) as [b0|] eqn:E; [|discriminate].
  intros [= <-]. cbn [app].
  pose proof (decodes_layout layout b0 E [] []) as H.
  cbn [app] in H. rewrite app_nil_r in H. change (len []) with 0 in H.
  assert (Hd : decode_layout_wcc b0 = Ok (decoded_view layout)).
  { unfold decode_layout_wcc, decode_layout_wcc_run. now rewrite H. }
  split; [exact Hd|]. intros Hall. rewrite Hd. f_equal.
  destruct layout as [ms]. unfold decoded_view. cbn [mirrors] in *. f_equal.
  clear -Hall. induction Hall as [|m ms Hm _ IH]; [reflexivity|].
  cbn [map]. rewrite IH. f_equal.
  destruct m as [mid servers]. cbn in Hm. subst servers. reflexivity.
Qed.

Lemma roundtrip_as_decoded_view_witness :
  decode_layout_wcc (encoded main_layout) = Ok (decoded_view main_layout).
Proof.
  apply (roundtrip_as_decoded_view main_layout (encoded main_layout)).
  vm_compute. reflexivity.
Defined.

(** Claim C1, counterexample: the layout of [main()] is encoded, and
    what is decoded from the bytes is another layout: its device id is
    the 32 hexadecimal digits of the 16 bytes sent. *)
Lemma roundtrip_counterexample :
  exists bs d,
    encode_layout_wcc [] main_layout = Ok bs /\
    decode_layout_wcc bs = Ok d /\
    map device_id (concat (map data_servers (mirrors d)))
    = [text "30313233343536373839616263646566"] /\
    d <> main_layout.
Proof.
  do 2 eexists. split; [vm_compute; reflexivity|].
  split; [vm_compute; reflexivity|].
  split; [vm_compute; reflexivity|].
  intros H. vm_compute in H. discriminate.
Qed.

(** *** Truncation *)

(** Every proper prefix of the bytes of an encoded layout is refused
    with "Unexpected end of data". *)
Lemma prefix_of_encoding_is_truncated (layout : Layout) (bs : bytes)
  (k : nat) :
  encode_layout_wcc [] layout = Ok bs -> (k < length bs)%nat ->
  decode_layout_wcc (take k bs)
  = Err (XDRError_failed_decode XDRError_end_of_data).
Proof.
  unfold encode_layout_wcc.
  destruct (_ >>> _) as [b0|] eqn:E; [|discriminate].
  intros [= <-] Hk. cbn [app] in *.
  pose proof (decodes_layout layout b0 E [] []) as H.
  cbn [app] in H. rewrite app_nil_r in H. change (len []) with 0 in H.
  assert (H0 : 0 <= 0 <= len (take k b0))
    by (pose proof (len_nonneg (take k b0)); lia).
  pose proof (cut_safe_layout b0 k 0 H0) as Hc.
  unfold cut_outcome in Hc. rewrite H in Hc. destruct Hc as (_ & _ & Hc).
  unfold decode_layout_wcc, decode_layout_wcc_run. rewrite Hc.
  destruct (Z.leb_spec (0 + len b0) (Z.of_nat k)); [unfold len in *; lia|].
  reflexivity.
Qed.

(** *** Requests past the end of the buffer *)

Lemma short_request_fails {A} (dec : Decoder A) (data : bytes)
  (offset n at_ : Z) :
  requests dec data offset n at_ -> len data < at_ + n ->
  dec data offset = Err XDRError_end_of_data.
Proof.
  induction 1 as [n data o|n data o|A B m k data o n at_ _ IH
                 |A B m k data o a o' n at_ Hm _ IH]; intros Hshort.
  - unfold _read_bytes. destruct (Z.gtb_spec (o + n) (len data)); [reflexivity|lia].
  - unfold _skip_bytes. destruct (Z.gtb_spec (o + n) (len data)); [reflexivity|lia].
  - unfold bind. now rewrite IH.
  - unfold bind. rewrite Hm. now apply IH.
Qed.

Lemma bytes_decode_err (n : nat) :
  forall (bs : bytes) (e : exn),
    (length bs <= n)%nat -> bytes_decode bs = Err e -> e = UnicodeDecodeError.
Proof.
  induction n as [|n IH]; intros bs e Hl; destruct bs as [|b0 r0];
    try discriminate; [cbn in Hl; lia|].
  assert (Hc : forall c r, (length r <= n)%nat ->
                 cons_char c (bytes_decode r) = Err e ->
                 e = UnicodeDecodeError).
  { intros c r Hr. unfold cons_char.
    destruct (bytes_decode r) eqn:E; [discriminate|].
    intros [= <-]. eapply IH; eauto. }
  rewrite bytes_decode_cons. cbv zeta. cbn [length] in Hl.
  repeat match goal with
  | |- context [if ?c then _ else _] => destruct c
  | |- context [match ?r with [] => _ | _ :: _ => _ end] =>
    destruct r; cbn [length] in Hl
  | |- context [match cont ?b with _ => _ end] => destruct (cont b)
  end;
    try (intros [= <-]; reflexivity); try (apply Hc; lia).
Qed.

Lemma eod_is_short_ret {A} (a : A) : eod_is_short (ret a).
Proof. intros data o. unfold ret. discriminate. Qed.

Lemma eod_is_short_raise {A} (e : exn) :
  e <> XDRError_end_of_data -> eod_is_short (@raise A e).
Proof. intros He data o. unfold raise. intros [= ->]. contradiction. Qed.

Lemma eod_is_short_bind {A B} (m : Decoder A) (k : A -> Decoder B) :
  eod_is_short m -> (forall a, eod_is_short (k a)) ->
  eod_is_short (bind m k).
Proof.
  intros Hm Hk data o H. unfold bind in H.
  destruct (m data o) as [[a o']|e] eqn:Em.
  - destruct (Hk a data o' H) as (n & at_ & Hr & Hs).
    exists n, at_. split; [|exact Hs]. eapply requests_then; eauto.
  - injection H as ->.
    destruct (Hm data o Em) as (n & at_ & Hr & Hs).
    exists n, at_. split; [|exact Hs]. now apply requests_first.
Qed.

Lemma eod_is_short_read (n : Z) : eod_is_short (_read_bytes n).
Proof.
  intros data o. unfold _read_bytes.
  destruct (Z.gtb_spec (o + n) (len data)); [|discriminate].
  intros _. exists n, o. split; [constructor|lia].
Qed.

Lemma eod_is_short_skip (n : Z) : eod_is_short (_skip_bytes n).
Proof.
  intros data o. unfold _skip_bytes.
  destruct (Z.gtb_spec (o + n) (len data)); [|discriminate].
  intros _. exists n, o. split; [constructor|lia].
Qed.

Lemma eod_is_short_uint32 : eod_is_short _decode_uint32.
Proof.
  apply eod_is_short_bind; [apply eod_is_short_read|].
  intros. apply eod_is_short_ret.
Qed.

Lemma eod_is_short_uint64 : eod_is_short _decode_uint64.
Proof.
  apply eod_is_short_bind; [apply eod_is_short_read|].
  intros. apply eod_is_short_ret.
Qed.

Lemma eod_is_short_expect_type (t : NFSType) : eod_is_short (expect_type t).
Proof.
  apply eod_is_short_bind; [apply eod_is_short_uint32|].
  intros a. destruct (negb _);
    [apply eod_is_short_raise; discriminate|apply eod_is_short_ret].
Qed.

Lemma eod_is_short_variable_opaque : eod_is_short _decode_variable_opaque.
Proof.
  apply eod_is_short_bind; [apply eod_is_short_uint32|]. intros n.
  apply eod_is_short_bind; [apply eod_is_short_read|]. intros.
  apply eod_is_short_bind; [apply eod_is_short_skip|]. intros.
  apply eod_is_short_ret.
Qed.

Lemma eod_is_short_string : eod_is_short _decode_string.
Proof.
  apply eod_is_short_bind; [apply eod_is_short_uint32|]. intros n.
  apply eod_is_short_bind; [apply eod_is_short_read|]. intros bs.
  apply eod_is_short_bind; [apply eod_is_short_skip|]. intros.
  destruct (bytes_decode bs) as [s|e] eqn:E; [apply eod_is_short_ret|].
  apply eod_is_short_raise.
  rewrite (bytes_decode_err (length bs) bs e (Nat.le_refl _) E). discriminate.
Qed.

Lemma eod_is_short_items {A} (dec : Decoder A) (n : nat) :
  eod_is_short dec -> eod_is_short (decode_items dec n).
Proof.
  intros Hd. induction n as [|n IH]; cbn [decode_items].
  - apply eod_is_short_ret.
  - apply eod_is_short_bind; [exact Hd|]. intros.
    apply eod_is_short_bind; [exact IH|]. intros. apply eod_is_short_ret.
Qed.

Lemma eod_is_short_array {A} (dec : Decoder A) :
  eod_is_short dec -> eod_is_short (_decode_array dec).
Proof.
  intros Hd. apply eod_is_short_bind; [apply eod_is_short_uint32|].
  intros. now apply eod_is_short_items.
Qed.

Lemma eod_is_short_optional (present : bool) :
  eod_is_short (if present then (let* v := _decode_uint64 in ret (Some v))
                else ret None).
Proof.
  destruct present; [|apply eod_is_short_ret].
  apply eod_is_short_bind; [apply eod_is_short_uint64|].
  intros. apply eod_is_short_ret.
Qed.

Lemma eod_is_short_attributes : eod_is_short _decode_attributes.
Proof.
  apply eod_is_short_bind; [apply eod_is_short_expect_type|]. intros.
  apply eod_is_short_bind; [apply eod_is_short_uint32|]. intros mask.
  apply eod_is_short_bind; [apply eod_is_short_optional|]. intros.
  apply eod_is_short_bind; [apply eod_is_short_optional|]. intros.
  apply eod_is_short_ret.
Qed.

Lemma eod_is_short_filehandle : eod_is_short _decode_filehandle.
Proof.
  apply eod_is_short_bind; [apply eod_is_short_expect_type|]. intros.
  apply eod_is_short_bind; [apply eod_is_short_variable_opaque|]. intros.
  apply eod_is_short_ret.
Qed.

Lemma eod_is_short_stateid : eod_is_short _decode_stateid.
Proof.
  apply eod_is_short_bind; [apply eod_is_short_expect_type|]. intros.
  apply eod_is_short_bind; [apply eod_is_short_uint32|]. intros.
  apply eod_is_short_bind; [apply eod_is_short_read|]. intros.
  apply eod_is_short_ret.
Qed.

Lemma eod_is_short_deviceid : eod_is_short _decode_deviceid.
Proof.
  apply eod_is_short_bind; [apply eod_is_short_expect_type|]. intros.
  apply eod_is_short_bind; [apply eod_is_short_read|]. intros.
  apply eod_is_short_ret.
Qed.

Lemma eod_is_short_data_server : eod_is_short _decode_data_server.
Proof.
  apply eod_is_short_bind; [apply eod_is_short_deviceid|]. intros.
  apply eod_is_short_bind; [apply eod_is_short_stateid|]. intros.
  apply eod_is_short_bind;
    [apply eod_is_short_array, eod_is_short_filehandle|]. intros.
  apply eod_is_short_bind; [apply eod_is_short_attributes|]. intros.
  apply eod_is_short_ret.
Qed.

Lemma eod_is_short_mirror : eod_is_short _decode_mirror.
Proof.
  apply eod_is_short_bind; [apply eod_is_short_string|]. intros.
  apply eod_is_short_bind;
    [apply eod_is_short_array, eod_is_short_data_server|]. intros.
  apply eod_is_short_ret.
Qed.

Lemma eod_is_short_layout : eod_is_short decode_layout_wcc_body.
Proof.
  apply eod_is_short_bind; [apply eod_is_short_expect_type|]. intros.
  apply eod_is_short_bind;
    [apply eod_is_short_array, eod_is_short_mirror|]. intros.
  apply eod_is_short_ret.
Qed.

Lemma variable_body_is_short (data : bytes) (o o' length : Z) :
  _decode_uint32 data o = Ok (length, o') ->
  len data < o' + length + calculate length ->
  _decode_variable_opaque data o = Err XDRError_end_of_data /\
  _decode_string data o = Err XDRError_end_of_data.
Proof.
  intros Hl Hshort. pose proof (calculate_range length) as Hc.
  unfold _decode_variable_opaque, _decode_string, bind. rewrite Hl.
  unfold _read_bytes, _skip_bytes.
  destruct (Z.gtb_spec (o' + length) (len data)); [split; reflexivity|].
  destruct (Z.gtb_spec (o' + length + calculate length) (len data)); [|lia].
  split; reflexivity.
Qed.

(** Claim C7.  For every buffer: if the run of [decode_layout_wcc] comes
    to ask, through [_read_bytes] or [_skip_bytes], for more bytes than
    the buffer has left, it fails with "Unexpected end of data" and
    reads nothing, and it fails in this way for no other reason.  A
    request for [n] bytes where fewer than [n] are left is refused by
    [_read_bytes] and [_skip_bytes], and so by a length prefix or tag
    (4 bytes), an 8-byte integer and a fixed-width field; a read that
    is granted returns the [n] bytes at the offset, all of them bytes
    of the buffer; a variable-length field whose declared length and
    padding exceed the bytes left is refused whatever these bytes are.
    A decode that succeeds consumed only bytes of the buffer, and
    decoding the buffer cut after [k] bytes gives the same layout when
    the cut keeps all consumed bytes and "Unexpected end of data" when
    it does not; a decode that fails, fails on the cut buffer in the
    same way or with "Unexpected end of data". *)
Theorem truncation_safety (data : bytes) (k : nat) :
  (forall n at_,
     requests decode_layout_wcc_body data 0 n at_ -> len data < at_ + n ->
     decode_layout_wcc data
     = Err (XDRError_failed_decode XDRError_end_of_data)) /\
  (decode_layout_wcc data = Err (XDRError_failed_decode XDRError_end_of_data) ->
   exists n at_,
     requests decode_layout_wcc_body data 0 n at_ /\ len data < at_ + n) /\
  (forall o n,
     len data < o + n ->
     _read_bytes n data o = Err XDRError_end_of_data /\
     _skip_bytes n data o = Err XDRError_end_of_data /\
     _decode_fixed_opaque n data o = Err XDRError_end_of_data /\
     (n = 4 -> _decode_uint32 data o = Err XDRError_end_of_data) /\
     (n = 8 -> _decode_uint64 data o = Err XDRError_end_of_data)) /\
  (forall o n bs o',
     0 <= o -> 0 <= n -> _read_bytes n data o = Ok (bs, o') ->
     o' = o + n /\ o' <= len data /\ len bs = n /\ bs = slice data o o') /\
  (forall o o' length,
     _decode_uint32 data o = Ok (length, o') ->
     len data < o' + length + calculate length ->
     _decode_variable_opaque data o = Err XDRError_end_of_data /\
     _decode_string data o = Err XDRError_end_of_data) /\
  match decode_layout_wcc_run data with
  | Ok (layout, consumed) =>
    0 <= consumed <= len data /\
    decode_layout_wcc_run (take k data) =
      (if consumed <=? Z.of_nat k then Ok (layout, consumed)
       else Err (XDRError_failed_decode XDRError_end_of_data))
  | Err e =>
    decode_layout_wcc_run (take k data) = Err e \/
    decode_layout_wcc_run (take k data) =
      Err (XDRError_failed_decode XDRError_end_of_data)
  end.
Proof.
  split; [|split; [|split; [|split; [|split]]]].
  - intros n at_ Hr Hs.
    pose proof (short_request_fails _ _ _ _ _ Hr Hs) as H.
    unfold decode_layout_wcc, decode_layout_wcc_run. now rewrite H.
  - unfold decode_layout_wcc, decode_layout_wcc_run.
    destruct (decode_layout_wcc_body data 0) as [[layout n]|e] eqn:E;
      [discriminate|].
    intros [= ->]. exact (eod_is_short_layout data 0 E).
  - intros o n Hs.
    assert (Hr : _read_bytes n data o = Err XDRError_end_of_data).
    { unfold _read_bytes.
      destruct (Z.gtb_spec (o + n) (len data)); [reflexivity|lia]. }
    split; [exact Hr|]. split.
    { unfold _skip_bytes.
      destruct (Z.gtb_spec (o + n) (len data)); [reflexivity|lia]. }
    split; [exact Hr|].
    split; intros ->; unfold _decode_uint32, _decode_uint64, bind;
      now rewrite Hr.
  - intros o n bs o' Ho Hn. unfold _read_bytes.
    destruct (Z.gtb_spec (o + n) (len data)); [discriminate|].
    intros [= <- <-]. split; [reflexivity|]. split; [assumption|].
    split; [|reflexivity].
    unfold slice, len in *. rewrite length_take, length_drop. lia.
  - intros o o' length. apply variable_body_is_short.
  - pose proof (cut_safe_layout data k 0) as H.
    assert (H0 : 0 <= 0 <= len (take k data))
      by (pose proof (len_nonneg (take k data)); lia).
    specialize (H H0). unfold cut_outcome, decode_layout_wcc_run in *.
    destruct (decode_layout_wcc_body data 0) as [[layout consumed]|e].
    + destruct H as (? & ? & ->). split; [lia|].
      now destruct (consumed <=? Z.of_nat k).
    + destruct H as [-> | ->]; auto.
Qed.

Lemma truncation_safety_witness :
  decode_layout_wcc short_string_buffer
  = Err (XDRError_failed_decode XDRError_end_of_data).
Proof.
  refine (proj1 (truncation_safety short_string_buffer 0) 3 12 _ _).
  - unfold decode_layout_wcc_body.
    apply (requests_then _ _ _ _ tt 4); [vm_compute; reflexivity|].
    apply requests_first. unfold _decode_array.
    apply (requests_then _ _ _ _ 1 8); [vm_compute; reflexivity|].
    change (Z.to_nat 1) with 1%nat. cbn [decode_items].
    apply requests_first. unfold _decode_mirror.
    apply requests_first. unfold _decode_string.
    apply (requests_then _ _ _ _ 3 12); [vm_compute; reflexivity|].
    apply requests_first. apply requests_read.
  - vm_compute. reflexivity.
Defined.

End XDRFacts.

(** ** The transport *)

Module TransportFacts.
Import Wire Transport Props Samples WireFacts.

(** *** Transaction ids *)

Lemma after_allocations_succ (n : N) (t : NFSTransportProtocol) :
  after_allocations (N.succ n) t = snd (_get_next_xid (after_allocations n t)).
Proof. unfold after_allocations. now rewrite N.iter_succ. Qed.

(** The counter of a fresh transport after [n] allocations. *)
Lemma counter_after (n : N) :
  _xid_counter (after_allocations n new_transport) = Z.of_N n mod 0xFFFFFFFF.
Proof.
  induction n as [|n IH] using N.peano_ind; [reflexivity|].
  rewrite after_allocations_succ. cbn [_get_next_xid snd _xid_counter].
  rewrite IH, Zplus_mod_idemp_l. f_equal. lia.
Qed.

Lemma issued_eq (n : N) : (1 <= n)%N -> issued n = Z.of_N n mod 0xFFFFFFFF.
Proof.
  intros Hn. unfold issued. cbn [_get_next_xid fst].
  rewrite counter_after, Zplus_mod_idemp_l. f_equal. lia.
Qed.

(** Claim C3 (as amended).  The counter is incremented and reduced modulo
    2^32 - 1 at each allocation.  On one connection the first 2^32 - 2
    ids are not 0 and are pairwise distinct; the next allocation, where
    the counter wraps, hands out 0. *)
Theorem xid_allocation (t : NFSTransportProtocol) (i j : N) :
  (1 <= i)%N -> (i < j)%N -> (j <= 4294967294)%N ->
  fst (_get_next_xid t) = (_xid_counter t + 1) mod (2 ^ 32 - 1) /\
  _xid_counter (snd (_get_next_xid t)) = fst (_get_next_xid t) /\
  issued i <> 0 /\ issued j <> 0 /\ issued i <> issued j /\
  issued 4294967295 = 0.
Proof.
  intros Hi Hij Hj. split; [reflexivity|]. split; [reflexivity|].
  rewrite !issued_eq by lia.
  rewrite (Z.mod_small (Z.of_N i)), (Z.mod_small (Z.of_N j)) by lia.
  repeat split; try lia.
Qed.

Lemma xid_allocation_witness :
  issued 1 <> 0 /\ issued 2 <> 0 /\ issued 1 <> issued 2.
Proof.
  pose proof (xid_allocation new_transport 1 2) as H.
  destruct H as (_ & _ & H1 & H2 & H3 & _); [lia | lia | lia |].
  auto.
Defined.

(** Claim C3, counterexample: after 4294967294 allocations the counter of
    a connection is 4294967294, and allocation number 4294967295 hands
    out the id 0. *)
Lemma xid_zero_is_issued :
  _xid_counter (after_allocations 4294967294 new_transport) = 4294967294 /\
  issued 4294967295 = 0.
Proof.
  split; [now rewrite counter_after|]. now rewrite issued_eq.
Qed.

(** *** The reassembler *)

(** A pass that changes nothing while the loop condition holds is
    repeated for ever. *)
Lemma while_loop_stuck (self : NFSProtocolHandler) :
  loop_body self = self -> (len (_buffer self) >=? 4) = true ->
  forall fuel, while_loop fuel self = None.
Proof.
  intros Hfix Hcond fuel. induction fuel as [|fuel IH]; [reflexivity|].
  cbn [while_loop]. now rewrite Hcond, Hfix.
Qed.

(** A pass over a handler that waits for more bytes than it holds
    changes nothing. *)
Lemma loop_body_waiting (self : NFSProtocolHandler) (expected : Z) :
  _expected_length self = Some expected ->
  len (_buffer self) < expected ->
  loop_body self = self.
Proof.
  intros He Hlt. unfold loop_body. rewrite He. cbv zeta. rewrite He.
  destruct (Z.geb_spec (len (_buffer self)) expected); [lia|reflexivity].
Qed.

(** Hence the loop does not end once 4 bytes or more of an incomplete
    frame are in the buffer. *)
Lemma partial_frame_spins (self : NFSProtocolHandler) (expected : Z) :
  _expected_length self = Some expected ->
  4 <= len (_buffer self) < expected ->
  forall fuel, while_loop fuel self = None.
Proof.
  intros He [H4 Hlt]. apply while_loop_stuck.
  - now apply (loop_body_waiting self expected).
  - destruct (Z.geb_spec (len (_buffer self)) 4); [reflexivity|lia].
Qed.

(** Claim C2, at the failing input: when a chunk ends 4 bytes or more into
    a frame that is not complete, [data_received] does not return,
    whatever the number of passes allowed to its loop. *)
Theorem data_received_never_returns (fuel : nat) :
  data_received fuel half_frame (new_handler new_transport) = None.
Proof.
  destruct fuel as [|fuel]; [reflexivity|].
  unfold data_received. cbn [while_loop].
  change (len (_buffer _) >=? 4) with true. cbv iota.
  apply while_loop_stuck; reflexivity.
Qed.

(** The same loop condition keeps back a complete frame of fewer than 4
    bytes whose length prefix came in an earlier chunk: after the two
    chunks [00 00 00 02] and [62 63] nothing has been processed. *)
Lemma short_frame_is_kept_back :
  exists h1 h2,
    data_received 3 [x00; x00; x00; x02] (new_handler new_transport) = Some h1 /\
    data_received 3 [x62; x63] h1 = Some h2 /\
    processed h2 = [] /\ _buffer h2 = [x62; x63] /\
    _expected_length h2 = Some 2.
Proof. do 2 eexists. repeat split. Qed.

(** When every frame of a chunk is complete and at least 4 bytes long,
    the frames are processed in order and a trailing partial length
    prefix is kept. *)
Lemma two_frames_in_one_chunk :
  exists h,
    data_received 5
      [x00; x00; x00; x05; x00; x00; x00; x01; x61;
       x00; x00; x00; x04; x00; x00; x00; x02;
       x00; x00]
      (new_handler new_transport) = Some h /\
    processed h = [[x00; x00; x00; x01; x61]; [x00; x00; x00; x02]] /\
    _buffer h = [x00; x00].
Proof. eexists. repeat split. Qed.

End TransportFacts.

(** ** The resilience layer *)

Module RecoveryFacts.
Import Recovery Props Samples.

(** *** The retry engine *)

(** The two names of the [except] clause are bound nowhere in the
    module. *)
Lemma except_names_are_unbound :
  ("NFSTransportError" ∉ module_globals) /\
  ("NFSStateError" ∉ module_globals).
Proof.
  split; refine (bool_decide_unpack _ _); vm_compute; exact I.
Qed.

(** Claim C5.  The claim fails on the code: no failure is ever retried.
    Let [max_retries] be positive and let the first call of the
    operation raise, whatever the exception.  Then
    [execute_with_recovery] raises [NameError] for the name
    [NFSTransportError] of its [except] clause: the operation was called
    once, there was no suspension and no second attempt, the exception
    of the operation is not the one raised, and the metrics record no
    retry and no error text.  This holds of the scenario of the
    specification (failures on attempts 1 and 2, success on attempt 3,
    [max_retries = 3]), which the claim says ends in success with two
    retries. *)
Theorem first_failure_raises_NameError {V : Type} (cfg : RetryConfig)
  (operation : nat -> outcome V)
  (operation_metrics : gmap string OperationMetrics)
  (operation_id : string) (t_start t_end : Z) (e : py_exception) :
  0 < max_retries cfg ->
  operation 0%nat = Raises e ->
  execute_with_recovery cfg operation operation_metrics operation_id
    t_start t_end
  = (Raised (NameError "NFSTransportError"),
     <[operation_id :=
         {| start_time := t_start; end_time := Some t_end; retries := 0;
            success := false; error := None |}]> operation_metrics,
     [Invoke]).
Proof.
  intros Hmax He. unfold execute_with_recovery, retry_loop.
  destruct (Z.to_nat (max_retries cfg)) as [|r] eqn:Er; [lia|].
  rewrite He. reflexivity.
Qed.

Lemma first_failure_raises_NameError_witness :
  execute_with_recovery test_config fails_twice ∅ "test_op" 0 5
  = (Raised (NameError "NFSTransportError"),
     <["test_op" :=
         {| start_time := 0; end_time := Some 5; retries := 0;
            success := false; error := None |}]> ∅,
     [Invoke]).
Proof.
  apply (first_failure_raises_NameError test_config fails_twice ∅ "test_op"
           0 5 (NFSTransportError "Simulated failure")).
  - reflexivity.
  - reflexivity.
Defined.

(** Claim C10.  With [max_retries = 0] the operation is never called and
    nothing is raised: the function falls off its end and so returns
    [None]; the metrics stored under the operation id record no retry,
    no success and no error. *)
Theorem no_attempt_without_retries {V : Type} (cfg : RetryConfig)
  (operation : nat -> outcome V)
  (operation_metrics : gmap string OperationMetrics)
  (operation_id : string) (t_start t_end : Z) :
  max_retries cfg = 0 ->
  execute_with_recovery cfg operation operation_metrics operation_id
    t_start t_end
  = (ReturnedNone,
     <[operation_id :=
         {| start_time := t_start; end_time := Some t_end; retries := 0;
            success := false; error := None |}]> operation_metrics,
     []).
Proof.
  intros H. unfold execute_with_recovery. rewrite H. reflexivity.
Qed.

Lemma no_attempt_without_retries_witness :
  execute_with_recovery no_retries fails_twice ∅ "op1" 0 5
  = (ReturnedNone,
     <["op1" :=
         {| start_time := 0; end_time := Some 5; retries := 0;
            success := false; error := None |}]> ∅,
     []).
Proof.
  apply (no_attempt_without_retries no_retries fails_twice ∅ "op1" 0 5).
  reflexivity.
Defined.

(** *** The cache *)

Lemma list_remove_spec (x : string) (l u : list string) :
  NoDup l -> list_remove x l = Some u ->
(x ∉ u) /\ NoDup u /\ (forall y, y ∈ l <-> y = x \/ y ∈ u) /\
  (forall y, head l = Some y -> y <> x -> head u = Some y).
Proof.
  revert u. induction l as [|z l IH]; intros u Hnd; cbn [list_remove];
    [discriminate|].
  apply NoDup_cons in Hnd as [Hz Hnd].
  destruct (decide (x = z)) as [->|Hne].
  - intros [= <-]. repeat split; auto.
    + intros Hy. apply elem_of_cons in Hy. tauto.
    + intros [->|Hy]; [left|right]; auto.
    + cbn. intros y [= ->] Hy. congruence.
  - destruct (list_remove x l) as [r|] eqn:Er; [|discriminate].
    intros [= <-]. destruct (IH r Hnd eq_refl) as (H1 & H2 & H3 & _).
    repeat split.
    + intros Hx. apply elem_of_cons in Hx as [Hx|Hx]; [congruence|auto].
    + apply NoDup_cons. split; [|exact H2].
      intros Hz'. apply Hz. apply H3. now right.
    + intros Hy. apply elem_of_cons in Hy as [->|Hy].
      * right. left.
      * apply H3 in Hy as [->|Hy]; [now left|right; now right].
    + intros [->|Hy].
      * right. apply H3. now left.
      * apply elem_of_cons in Hy as [->|Hy]; [left|right; apply H3; now right].
    + cbn. intros y [= ->] _. reflexivity.
Qed.

Lemma list_remove_is_Some (x : string) (l : list string) :
  x ∈ l -> exists u, list_remove x l = Some u.
Proof.
  induction l as [|z l IH]; intros Hx; [now apply elem_of_nil in Hx|].
  cbn [list_remove]. destruct (decide (x = z)); [eauto|].
  apply elem_of_cons in Hx as [Hx|Hx]; [congruence|].
  destruct (IH Hx) as [u ->]. eauto.
Qed.

Lemma cache_inv_elem {V} (c : LRUCache V) (k : string) :
  cache_inv c -> (k ∈ usage c <-> is_Some (cache c !! k)).
Proof.
  intros [_ Hdom]. rewrite <- elem_of_dom, Hdom. now rewrite elem_of_list_to_set.
Qed.

(** The invariant holds of an empty cache and is kept by [get] and
    [__setitem__]. *)
Lemma cache_inv_empty {V} (n : Z) :
  cache_inv ({| capacity := n; cache := ∅; usage := [] |} : LRUCache V).
Proof. split; [constructor|]. cbn. now rewrite dom_empty_L. Qed.

Lemma cache_inv_get {V} (key : string) (c c' : LRUCache V)
  (r : option (CacheEntry V)) :
  cache_inv c -> LRUCache_get key c = inr (r, c') -> cache_inv c'.
Proof.
  intros [Hnd Hdom]. unfold LRUCache_get.
  destruct (cache c !! key) as [entry|]; [|now intros [= <- <-]].
  destruct (list_remove key (usage c)) as [u|] eqn:Eu; [|discriminate].
  intros [= <- <-].
  destruct (list_remove_spec key (usage c) u Hnd Eu) as (Hk & Hu & Hmem & _).
  split; cbn [usage cache].
  - apply NoDup_app. repeat split; [exact Hu| |apply NoDup_singleton].
    intros y Hy Hy'. apply list_elem_of_singleton in Hy'. now subst.
  - rewrite Hdom. apply set_eq. intros y.
    rewrite !elem_of_list_to_set, elem_of_app, list_elem_of_singleton, Hmem.
    tauto.
Qed.

Lemma cache_inv_setitem {V} (key : string) (value : CacheEntry V)
  (c c' : LRUCache V) :
  cache_inv c -> LRUCache_setitem key value c = inr c' -> cache_inv c'.
Proof.
  intros Hinv. pose proof Hinv as [Hnd Hdom]. unfold LRUCache_setitem.
  destruct (cache c !! key) as [old|] eqn:Ek.
  - destruct (list_remove key (usage c)) as [u|] eqn:Eu; [|discriminate].
    intros [= <-].
    destruct (list_remove_spec key (usage c) u Hnd Eu) as (Hk & Hu & Hmem & _).
    split; cbn [usage cache].
    + apply NoDup_app. repeat split; [exact Hu| |apply NoDup_singleton].
      intros y Hy Hy'. apply list_elem_of_singleton in Hy'. now subst.
    + rewrite dom_insert_L, Hdom. apply set_eq. intros y.
      rewrite elem_of_union, elem_of_singleton, !elem_of_list_to_set,
        elem_of_app, list_elem_of_singleton, Hmem. tauto.
  - assert (Hkey : key ∉ usage c).
    { intros Hin. apply (cache_inv_elem c key Hinv) in Hin.
      rewrite Ek in Hin. now destruct Hin. }
    destruct (_ >=? _).
    + destruct (usage c) as [|oldest u] eqn:Eu; [discriminate|].
      destruct (cache c !! oldest); [|discriminate]. intros [= <-].
      apply NoDup_cons in Hnd as [Ho Hu].
      split; cbn [usage cache].
      * apply NoDup_app. repeat split; [exact Hu| |apply NoDup_singleton].
        intros y Hy Hy'. apply list_elem_of_singleton in Hy'. subst y.
        apply Hkey. now right.
      * rewrite dom_insert_L, dom_delete_L, Hdom. apply set_eq. intros y.
        rewrite elem_of_union, elem_of_singleton, elem_of_difference,
          elem_of_singleton, !elem_of_list_to_set, elem_of_app,
          list_elem_of_singleton, elem_of_cons.
        split.
        -- intros [Hy|[Hy Hne]]; [now right|].
           destruct Hy as [Hy|Hy]; [congruence|now left].
        -- intros [Hy|Hy]; [|now left]. right. split; [now right|].
           intros Heq. subst y. contradiction.
    + intros [= <-]. split; cbn [usage cache].
      * apply NoDup_app. repeat split; [exact Hnd| |apply NoDup_singleton].
        intros y Hy Hy'. apply list_elem_of_singleton in Hy'. now subst.
      * rewrite dom_insert_L, Hdom. apply set_eq. intros y.
        rewrite elem_of_union, elem_of_singleton, !elem_of_list_to_set,
          elem_of_app, list_elem_of_singleton. tauto.
Qed.

(** Claim C9 (as amended).  Let [k] be cached with an expired entry.
    Then [get_cached_layout k] returns [None], leaves the entries as
    they are and moves [k] to the end of the recency list, the keys
    before it keeping their order.  When the next [cache_layout] of a
    new key finds the cache full, it evicts the key at the head of that
    list and no other.  If another key is cached, the evicted key is the
    least recently used of the other keys, and the expired entry of [k]
    stays; if [k] is the only cached key, the evicted key is [k]. *)
Theorem expired_lookup_refreshes_recency {V : Type} (c : LRUCache V)
  (k new_id : string) (e : CacheEntry V) (now : Z)
  (new_data : V) (new_ttl now' : Z) :
  cache_inv c ->
  cache c !! k = Some e -> _is_expired e now = true ->
  cache c !! new_id = None ->
  capacity c <= Z.of_nat (size (cache c)) ->
  exists c1 c2 victim others,
    get_cached_layout k now c = inr (None, c1) /\
    cache c1 = cache c /\
    list_remove k (usage c) = Some others /\ usage c1 = others ++ [k] /\
    head (usage c1) = Some victim /\ is_Some (cache c !! victim) /\
    cache_layout new_id new_data new_ttl now' c1 = inr c2 /\
    cache c2 !! victim = None /\
    (forall j, j <> victim -> j <> new_id -> cache c2 !! j = cache c !! j) /\
    (forall other_key,
       other_key <> k -> is_Some (cache c !! other_key) ->
       head others = Some victim /\ victim <> k /\ cache c2 !! k = Some e) /\
    ((forall other_key, is_Some (cache c !! other_key) -> other_key = k) ->
     victim = k /\ cache c2 !! k = None).
Proof.
  intros Hinv Hk Hexp Hnew Hfull.
  pose proof Hinv as [Hnd _].
  assert (Hku : k ∈ usage c) by (apply (cache_inv_elem c k Hinv); eauto).
  destruct (list_remove_is_Some k (usage c) Hku) as [u Hu].
  destruct (list_remove_spec k (usage c) u Hnd Hu) as (Hk' & Hndu & Hmem & _).
  assert (Hnk : new_id <> k) by (intros ->; congruence).
  set (c1 := {| capacity := capacity c; cache := cache c;
                usage := u ++ [k] |}).
  assert (Hget : get_cached_layout k now c = inr (None, c1)).
  { unfold get_cached_layout, LRUCache_get. rewrite Hk, Hu, Hexp. reflexivity. }
  destruct u as [|victim u'].
  - (* [k] is the only key *)
    assert (Honly : forall j, is_Some (cache c !! j) -> j = k).
    { intros j Hj. apply (cache_inv_elem c j Hinv) in Hj.
      apply Hmem in Hj as [?|Hj]; [assumption|]. now apply elem_of_nil in Hj. }
    exists c1.
    exists {| capacity := capacity c;
              cache := <[new_id := {| data := new_data; timestamp := now';
                                      ttl := new_ttl |}]>
                       (delete k (cache c));
              usage := [] ++ [new_id] |}.
    exists k, [].
    split; [exact Hget|]. split; [reflexivity|]. split; [exact Hu|].
    split; [reflexivity|]. split; [reflexivity|]. split; [eauto|].
    split.
    { unfold cache_layout, LRUCache_setitem. cbn [cache c1 usage capacity app].
      rewrite Hnew.
      destruct (Z.geb_spec (Z.of_nat (size (cache c))) (capacity c)); [|lia].
      rewrite Hk. reflexivity. }
    cbn [cache]. split.
    { rewrite lookup_insert_ne by exact Hnk. apply lookup_delete_eq. }
    split.
    { intros j Hjv Hjn. rewrite lookup_insert_ne by congruence.
      now rewrite lookup_delete_ne by congruence. }
    split.
    + intros other_key Hne Hother. exfalso. apply Hne. now apply Honly.
    + intros _. split; [reflexivity|].
      rewrite lookup_insert_ne by exact Hnk. apply lookup_delete_eq.
  - (* another key is cached *)
    assert (Hvk : victim <> k).
    { intros ->. apply Hk'. left. }
    assert (Hvc : is_Some (cache c !! victim)).
    { apply (cache_inv_elem c victim Hinv). apply Hmem. right. left. }
    assert (Hnv : new_id <> victim).
    { intros ->. rewrite Hnew in Hvc. now destruct Hvc. }
    exists c1.
    exists {| capacity := capacity c;
              cache := <[new_id := {| data := new_data; timestamp := now';
                                      ttl := new_ttl |}]>
                       (delete victim (cache c));
              usage := (u' ++ [k]) ++ [new_id] |}.
    exists victim, (victim :: u').
    split; [exact Hget|]. split; [reflexivity|]. split; [exact Hu|].
    split; [reflexivity|]. split; [reflexivity|]. split; [exact Hvc|].
    split.
    { unfold cache_layout, LRUCache_setitem. cbn [cache c1 usage capacity app].
      rewrite Hnew.
      destruct (Z.geb_spec (Z.of_nat (size (cache c))) (capacity c)); [|lia].
      destruct Hvc as [ev ->]. reflexivity. }
    cbn [cache]. split.
    { rewrite lookup_insert_ne by exact Hnv. apply lookup_delete_eq. }
    split.
    { intros j Hjv Hjn. rewrite lookup_insert_ne by congruence.
      now rewrite lookup_delete_ne by congruence. }
    split.
    + intros other_key _ _. split; [reflexivity|]. split; [exact Hvk|].
      rewrite lookup_insert_ne by exact Hnk.
      rewrite lookup_delete_ne by exact Hvk. exact Hk.
    + intros Honly. exfalso. apply Hvk. now apply Honly.
Qed.

Lemma two_entry_cache_inv : cache_inv two_entry_cache.
Proof.
  split.
  - refine (bool_decide_unpack _ _). vm_compute. exact I.
  - vm_compute. reflexivity.
Defined.

Lemma expired_lookup_refreshes_recency_witness :
  exists c1 c2 victim others,
    get_cached_layout "k" 2000000 two_entry_cache = inr (None, c1) /\
    cache c1 = cache two_entry_cache /\
    list_remove "k" (usage two_entry_cache) = Some others /\
    usage c1 = others ++ ["k"] /\
    head (usage c1) = Some victim /\
    is_Some (cache two_entry_cache !! victim) /\
    cache_layout "n" 8%nat 300 2000000 c1 = inr c2 /\
    cache c2 !! victim = None /\
    (forall j, j <> victim -> j <> "n" ->
               cache c2 !! j = cache two_entry_cache !! j) /\
    (forall other_key,
       other_key <> "k" -> is_Some (cache two_entry_cache !! other_key) ->
       head others = Some victim /\ victim <> "k" /\
       cache c2 !! "k" = Some {| data := 7%nat; timestamp := 0; ttl := 1 |}) /\
    ((forall other_key,
        is_Some (cache two_entry_cache !! other_key) -> other_key = "k") ->
     victim = "k" /\ cache c2 !! "k" = None).
Proof.
  apply (expired_lookup_refreshes_recency two_entry_cache "k" "n"
           {| data := 7%nat; timestamp := 0; ttl := 1 |} 2000000
           8%nat 300 2000000).
  - exact two_entry_cache_inv.
  - reflexivity.
  - reflexivity.
  - reflexivity.
  - vm_compute. discriminate.
Defined.

(** Claim C9, counterexample: in a cache of capacity 1 the expired key is
    the only key; looking it up returns [None] and leaves it in place,
    and the next insertion of another key evicts it. *)
Lemma lone_expired_entry_is_evicted :
  get_cached_layout "k" 2000000 single_entry_cache
  = inr (None, single_entry_cache) /\
  exists c2,
    cache_layout "n" 8%nat 300 2000000 single_entry_cache = inr c2 /\
    cache c2 !! "k" = None /\ usage c2 = ["n"].
Proof.
  split; [reflexivity|]. eexists. split; [reflexivity|]. split; reflexivity.
Qed.

(** *** The connection pool *)

(** A connection that the scan returns was idle and not expired. *)
Lemma scan_returns_fresh (self : ConnectionManager) (now : Z) (pool : Pool) :
  forall cl c pool',
    scan self now pool = (cl, Some (c, pool')) ->
    exists conn_id conn_info,
      In (conn_id, conn_info) pool /\ connection conn_info = c /\
      in_use conn_info = false /\
      _is_connection_expired self conn_info now = false.
Proof.
  induction pool as [|[conn_id conn_info] rest IH]; intros cl c pool';
    cbn [scan]; [discriminate|].
  destruct (in_use conn_info) eqn:Eu; cbn [negb].
  - destruct (scan self now rest) as [cl' [[c' rest']|]] eqn:Es;
      [|discriminate].
    intros [= <- <- <-]. destruct (IH _ _ _ eq_refl) as (i & info & Hin & H).
    exists i, info. split; [now right|exact H].
  - destruct (_is_connection_expired self conn_info now) eqn:Ee.
    + destruct (scan self now rest) as [cl' [[c' rest']|]] eqn:Es;
        [|discriminate].
      intros [= <- <- <-]. destruct (IH _ _ _ eq_refl) as (i & info & Hin & H).
      exists i, info. split; [now right|exact H].
    + intros [= <- <- <-]. exists conn_id, conn_info.
      repeat split; auto. now left.
Qed.

(** A scan over a pool whose entries are all in use or expired returns
    no connection. *)
Lemma scan_finds_none (self : ConnectionManager) (now : Z) (pool : Pool) :
  Forall (fun p => in_use (snd p) = true \/
                   _is_connection_expired self (snd p) now = true) pool ->
  snd (scan self now pool) = None.
Proof.
  induction 1 as [|[conn_id conn_info] rest Hp _ IH]; [reflexivity|].
  cbn [scan]. cbn [snd] in Hp.
  destruct (in_use conn_info) eqn:Eu; cbn [negb].
  - destruct (scan self now rest) as [cl found]. cbn [snd] in *. now rewrite IH.
  - destruct Hp as [Hp|Hp]; [discriminate|]. rewrite Hp.
    destruct (scan self now rest) as [cl found]. cbn [snd] in *. now rewrite IH.
Qed.

(** With room left in the pool, an acquire that finds every entry in use
    or expired creates a connection. *)
Lemma acquire_creates_when_room (sid : string) (now : Z)
  (self : ConnectionManager) (pool : Pool) :
  active_connections self !! sid = Some pool ->
  Forall (fun p => in_use (snd p) = true \/
                   _is_connection_expired self (snd p) now = true) pool ->
  len_lt pool (pool_size self) = true ->
  fst (_acquire_connection sid now self)
  = inr {| server_id := sid; connected := true; obj_id := next_obj self |}.
Proof.
  intros Hp Hall Hroom. unfold _acquire_connection, Pool in *.
  rewrite Hp. change (default [] (Some pool)) with pool. cbv zeta.
  pose proof (scan_finds_none self now pool Hall) as Hs.
  destruct (scan self now pool) as [cl found]. cbn [snd] in Hs. subst found.
  now rewrite Hroom.
Qed.

(** Without room in the pool, an acquire that finds every entry in use
    or expired raises. *)
Lemma acquire_refuses_when_full (sid : string) (now : Z)
  (self : ConnectionManager) (pool : Pool) :
  active_connections self !! sid = Some pool ->
  Forall (fun p => in_use (snd p) = true \/
                   _is_connection_expired self (snd p) now = true) pool ->
  len_lt pool (pool_size self) = false ->
  fst (_acquire_connection sid now self)
  = inl (ConnectionError "Connection pool exhausted").
Proof.
  intros Hp Hall Hroom. unfold _acquire_connection, Pool in *.
  rewrite Hp. change (default [] (Some pool)) with pool. cbv zeta.
  pose proof (scan_finds_none self now pool Hall) as Hs.
  destruct (scan self now pool) as [cl found]. cbn [snd] in Hs. subst found.
  now rewrite Hroom.
Qed.

(** Claim C6, at the failing input: in the scenario of
    [test_connection_management] (pool of 2, idle timeout of 1 second)
    both connections have been idle for 1.1 seconds; the next acquire
    closes both, keeps both entries in the pool and raises "Connection
    pool exhausted" instead of creating a connection. *)
Theorem idle_eviction_exhausts_pool :
  let '(r, m) := _acquire_connection "server1" 1100000 test_pool in
  r = inl (ConnectionError "Connection pool exhausted") /\
  closed m = [conn 0; conn 1] /\
  active_connections m = active_connections test_pool /\
  length (default [] (active_connections m !! "server1")) = 2%nat.
Proof. vm_compute. repeat split. Qed.

End RecoveryFacts.

(** * Further properties *)

(** ** Codec *)

Module CodecMore.
Import Wire XDR Props Samples MoreProps MoreSamples WireFacts TextFacts XDRFacts.

(** *** Alignment *)

Lemma aligned_andThen (a b : Encoder) :
  aligned a -> aligned b -> aligned (a >>> b).
Proof.
  intros Ha Hb bs H. split_enc H. rewrite len_app.
  specialize (Ha _ E). specialize (Hb _ H).
  rewrite Z.add_mod, Ha, Hb by lia. reflexivity.
Qed.

Lemma aligned_nil : aligned (Ok []).
Proof. intros bs [= <-]. reflexivity. Qed.

Lemma aligned_err (e : exn) : aligned (Err e).
Proof. intros bs H. discriminate. Qed.

Lemma aligned_uint32 (v : Z) : aligned (_encode_uint32 v).
Proof. intros bs H. apply pack_I_inv in H as [_ ->]. now rewrite len_be_pack. Qed.

Lemma aligned_uint64 (v : Z) : aligned (_encode_uint64 v).
Proof. intros bs H. apply pack_Q_inv in H as [_ ->]. now rewrite len_be_pack. Qed.

(** [calculate] completes a length to the next multiple of 4. *)
Lemma calculate_pads (n : Z) : (n + calculate n) mod 4 = 0.
Proof. unfold calculate. Z.div_mod_to_equations. lia. Qed.

Lemma aligned_padded (data : bytes) :
  aligned (extend data >>> extend (zeros (calculate (len data)))).
Proof.
  intros bs H. unfold extend in H. cbn in H. injection H as <-.
  rewrite len_app, len_zeros by apply calculate_range. apply calculate_pads.
Qed.

Lemma aligned_variable_opaque (data : bytes) :
  aligned (_encode_variable_opaque data).
Proof.
  unfold _encode_variable_opaque.
  apply aligned_andThen; [apply aligned_uint32|apply aligned_padded].
Qed.

Lemma aligned_string (s : str) : aligned (_encode_string s).
Proof.
  unfold _encode_string. destruct (str_encode s); [|apply aligned_err].
  apply aligned_andThen; [apply aligned_uint32|apply aligned_padded].
Qed.

Lemma aligned_fixed_opaque (data : bytes) (n : Z) :
  n mod 4 = 0 -> aligned (_encode_fixed_opaque data n).
Proof.
  intros Hn bs. unfold _encode_fixed_opaque, extend.
  destruct (Z.eqb_spec (len data) n); cbn; [|discriminate].
  intros [= <-]. congruence.
Qed.

Lemma aligned_items {A} (enc : A -> Encoder) (items : list A) :
  (forall x, aligned (enc x)) -> aligned (encode_items enc items).
Proof.
  intros H. induction items as [|x items IH]; cbn [encode_items].
  - apply aligned_nil.
  - now apply aligned_andThen.
Qed.

Lemma aligned_array {A} (enc : A -> Encoder) (items : list A) :
  (forall x, aligned (enc x)) -> aligned (_encode_array items enc).
Proof.
  intros H. apply aligned_andThen; [apply aligned_uint32|now apply aligned_items].
Qed.

Lemma aligned_attributes (a : Attributes) : aligned (_encode_attributes a).
Proof.
  unfold _encode_attributes.
  repeat apply aligned_andThen; try apply aligned_uint32.
  - destruct (attr_size a); [apply aligned_uint64|apply aligned_nil].
  - destruct (attr_mtime a); [apply aligned_uint64|apply aligned_nil].
Qed.

Lemma aligned_filehandle (h : str) : aligned (_encode_filehandle h).
Proof.
  unfold _encode_filehandle. apply aligned_andThen; [apply aligned_uint32|].
  destruct (str_encode h); [apply aligned_variable_opaque|apply aligned_err].
Qed.

Lemma aligned_stateid (sid : StateId) : aligned (_encode_stateid sid).
Proof.
  unfold _encode_stateid.
  repeat apply aligned_andThen; try apply aligned_uint32.
  now apply aligned_fixed_opaque.
Qed.

Lemma aligned_deviceid (dev : str) : aligned (_encode_deviceid dev).
Proof.
  unfold _encode_deviceid. apply aligned_andThen; [apply aligned_uint32|].
  destruct (str_encode dev); [now apply aligned_fixed_opaque|apply aligned_err].
Qed.

Lemma aligned_data_server (s : DataServer) : aligned (_encode_data_server s).
Proof.
  unfold _encode_data_server.
  apply aligned_andThen; [apply aligned_deviceid|].
  apply aligned_andThen; [apply aligned_stateid|].
  apply aligned_andThen; [apply aligned_array, aligned_filehandle|].
  apply aligned_attributes.
Qed.

Lemma aligned_mirror (m : Mirror) : aligned (_encode_mirror m).
Proof.
  unfold _encode_mirror. apply aligned_andThen; [apply aligned_string|].
  apply aligned_array, aligned_data_server.
Qed.

(** X1.  Whatever [encode_layout_wcc] appends to the buffer of the encoder
    is a whole number of 4-byte words: every text and file handle is
    padded to the next multiple of 4, and every other field is 4, 8, 12
    or 16 bytes long. *)
Theorem encoding_is_word_aligned (self_buffer : bytes) (layout : Layout)
  (bs : bytes) :
  encode_layout_wcc self_buffer layout = Ok bs ->
  (len bs - len self_buffer) mod 4 = 0.
Proof.
  unfold encode_layout_wcc.
  destruct (_ >>> _) as [b0|] eqn:E; [|discriminate].
  intros [= <-]. rewrite len_app.
  replace (len self_buffer + len b0 - len self_buffer) with (len b0) by lia.
  revert E. apply aligned_andThen; [apply aligned_uint32|].
  apply aligned_array, aligned_mirror.
Qed.

Lemma encoding_is_word_aligned_witness :
  (len (encoded main_layout) - len (@nil byte)) mod 4 = 0.
Proof.
  apply (encoding_is_word_aligned [] main_layout (encoded main_layout)).
  vm_compute. reflexivity.
Defined.

(** *** The layouts the encoder accepts *)

Lemma succeeds_andThen (a b : Encoder) :
  succeeds (a >>> b) <-> succeeds a /\ succeeds b.
Proof.
  unfold succeeds, andThen. split.
  - intros [bs H]. destruct a; [|discriminate]. destruct b; [|discriminate].
    eauto.
  - intros [[x ->] [y ->]]. eauto.
Qed.

Lemma succeeds_uint32 (v : Z) : succeeds (_encode_uint32 v) <-> 0 <= v < 2 ^ 32.
Proof.
  split.
  - intros [bs H]. now apply pack_I_inv in H.
  - intros H. eexists. now apply pack_I_ok.
Qed.

Lemma succeeds_uint64 (v : Z) : succeeds (_encode_uint64 v) <-> 0 <= v < 2 ^ 64.
Proof.
  split.
  - intros [bs H]. now apply pack_Q_inv in H.
  - intros H. eexists. now apply pack_Q_ok.
Qed.

Lemma succeeds_extend (bs : bytes) : succeeds (extend bs) <-> True.
Proof. split; [auto|]. intros _. now exists bs. Qed.

Lemma succeeds_items {A} (enc : A -> Encoder) (P : A -> Prop)
  (items : list A) :
  (forall x, succeeds (enc x) <-> P x) ->
  succeeds (encode_items enc items) <-> Forall P items.
Proof.
  intros H. induction items as [|x items IH]; cbn [encode_items].
  - split; [constructor|]. intros _. now exists [].
  - rewrite succeeds_andThen, H, IH. split.
    + intros [? ?]. now constructor.
    + intros HF. apply Forall_cons in HF. tauto.
Qed.

Lemma succeeds_array {A} (enc : A -> Encoder) (P : A -> Prop)
  (items : list A) :
  (forall x, succeeds (enc x) <-> P x) ->
  succeeds (_encode_array items enc) <-> len items < 2 ^ 32 /\ Forall P items.
Proof.
  intros H. unfold _encode_array.
  rewrite succeeds_andThen, succeeds_uint32, (succeeds_items enc P items H).
  pose proof (len_nonneg items). intuition lia.
Qed.

Lemma succeeds_padded (data : bytes) :
  succeeds (_encode_uint32 (len data) >>> extend data >>>
            extend (zeros (calculate (len data))))
  <-> len data < 2 ^ 32.
Proof.
  rewrite !succeeds_andThen, succeeds_uint32, !succeeds_extend.
  pose proof (len_nonneg data). intuition lia.
Qed.

Lemma succeeds_string (s : str) :
  succeeds (_encode_string s) <-> encodes_below s (2 ^ 32).
Proof.
  unfold _encode_string, encodes_below.
  destruct (str_encode s) as [data|e].
  - rewrite succeeds_padded. split; [eauto|]. now intros (d & [= <-] & H).
  - split; [now intros [bs H]|]. now intros (d & H & _).
Qed.

Lemma succeeds_filehandle (h : str) :
  succeeds (_encode_filehandle h) <-> encodes_below h (2 ^ 32).
Proof.
  unfold _encode_filehandle, encodes_below.
  rewrite succeeds_andThen, succeeds_uint32.
  destruct (str_encode h) as [data|e].
  - unfold _encode_variable_opaque. rewrite succeeds_padded. split.
    + intros [_ H]. eauto.
    + intros (d & [= <-] & H). split; [cbn; lia|exact H].
  - split; [now intros [_ [bs H]]|]. now intros (d & H & _).
Qed.

Lemma succeeds_fixed_opaque (data : bytes) (n : Z) :
  succeeds (_encode_fixed_opaque data n) <-> len data = n.
Proof.
  unfold _encode_fixed_opaque, extend.
  destruct (Z.eqb_spec (len data) n); cbn.
  - split; [auto|]. intros _. now exists data.
  - split; [now intros [bs H]|]. contradiction.
Qed.

Lemma succeeds_deviceid (dev : str) :
  succeeds (_encode_deviceid dev)
  <-> exists data, str_encode dev = Ok data /\ len data = 16.
Proof.
  unfold _encode_deviceid. rewrite succeeds_andThen, succeeds_uint32.
  destruct (str_encode dev) as [data|e].
  - rewrite succeeds_fixed_opaque. split.
    + intros [_ H]. eauto.
    + intros (d & [= <-] & H). split; [cbn; lia|exact H].
  - split; [now intros [_ [bs H]]|]. now intros (d & H & _).
Qed.

Lemma succeeds_stateid (sid : StateId) :
  succeeds (_encode_stateid sid)
  <-> 0 <= seqid sid < 2 ^ 32 /\ len (other sid) <= 12.
Proof.
  unfold _encode_stateid.
  rewrite !succeeds_andThen, !succeeds_uint32, succeeds_fixed_opaque, len_ljust.
  cbn. intuition lia.
Qed.

Lemma succeeds_optional (v : option Z) :
  succeeds (match v with Some x => _encode_uint64 x | None => Ok [] end)
  <-> match v with Some x => 0 <= x < 2 ^ 64 | None => True end.
Proof.
  destruct v; [apply succeeds_uint64|]. split; [auto|]. intros _. now exists [].
Qed.

Lemma attribute_mask_range (a : Attributes) :
  0 <= _calculate_attribute_mask a < 2 ^ 32.
Proof.
  destruct a as [[sz|] [mt|]]; split; vm_compute; (discriminate || reflexivity).
Qed.

Lemma succeeds_attributes (a : Attributes) :
  succeeds (_encode_attributes a) <-> attributes_ok a.
Proof.
  unfold _encode_attributes, attributes_ok.
  rewrite !succeeds_andThen, !succeeds_uint32, !succeeds_optional.
  pose proof (attribute_mask_range a). cbn [NFSType_value]. intuition lia.
Qed.

Lemma succeeds_data_server (s : DataServer) :
  succeeds (_encode_data_server s) <-> data_server_ok s.
Proof.
  unfold _encode_data_server, data_server_ok.
  rewrite !succeeds_andThen, succeeds_deviceid, succeeds_stateid,
    (succeeds_array _ _ _ succeeds_filehandle), succeeds_attributes.
  tauto.
Qed.

Lemma succeeds_mirror (m : Mirror) :
  succeeds (_encode_mirror m) <-> mirror_ok m.
Proof.
  unfold _encode_mirror, mirror_ok.
  rewrite succeeds_andThen, succeeds_string,
    (succeeds_array _ _ _ succeeds_data_server).
  tauto.
Qed.

(** X2.  [encode_layout_wcc] returns bytes exactly for the layouts in which
    every text can be put in UTF-8, every count, length and [seqid] fits
    32 bits, [size] and [mtime] fit 64 bits, every device id is 16 bytes
    and every [other] at most 12 bytes; for every other layout it
    raises. *)
Theorem encoder_accepts_iff (self_buffer : bytes) (layout : Layout) :
  (exists bs, encode_layout_wcc self_buffer layout = Ok bs)
  <-> layout_ok layout.
Proof.
  unfold layout_ok. rewrite <- (succeeds_array _ _ _ succeeds_mirror).
  assert (H : succeeds (_encode_uint32 (NFSType_value LAYOUT_WCC) >>>
                        _encode_array (mirrors layout) _encode_mirror)
              <-> succeeds (_encode_array (mirrors layout) _encode_mirror)).
  { rewrite succeeds_andThen, succeeds_uint32. cbn. intuition lia. }
  rewrite <- H. unfold encode_layout_wcc, succeeds.
  destruct (_ >>> _) as [b0|e].
  - split; eauto.
  - split; [now intros [bs Hb]|]. now intros [bs Hb].
Qed.

(** *** One encoder object, several layouts *)

(** X3.  An [XDREncoder] never empties its buffer: when the object that
    encoded one layout encodes a second one, it returns the bytes of the
    first followed by the bytes of the second, and [decode_layout_wcc]
    reads the first layout out of them. *)
Theorem encoder_keeps_its_buffer (first second : Layout) (b1 b2 : bytes) :
  encode_layout_wcc [] first = Ok b1 ->
  encode_layout_wcc [] second = Ok b2 ->
  encode_layout_wcc b1 second = Ok (b1 ++ b2) /\
  decode_layout_wcc (b1 ++ b2) = Ok (decoded_view first).
Proof.
  unfold encode_layout_wcc.
  destruct (_ >>> _encode_array (mirrors first) _) as [c1|] eqn:E1;
    [|discriminate].
  destruct (_ >>> _encode_array (mirrors second) _) as [c2|] eqn:E2;
    [|discriminate].
  intros [= <-] [= <-]. cbn [app]. split; [reflexivity|].
  pose proof (decodes_layout first c1 E1 [] c2) as H.
  cbn [app] in H. change (len []) with 0 in H.
  unfold decode_layout_wcc, decode_layout_wcc_run. now rewrite H.
Qed.

Lemma encoder_keeps_its_buffer_witness :
  encode_layout_wcc (encoded main_layout) bare_layout
  = Ok (encoded main_layout ++ encoded bare_layout) /\
  decode_layout_wcc (encoded main_layout ++ encoded bare_layout)
  = Ok (decoded_view main_layout).
Proof.
  apply (encoder_keeps_its_buffer main_layout bare_layout);
    vm_compute; reflexivity.
Defined.

(** *** Bytes after the layout *)

(** X4.  [decode_layout_wcc] does not look at what follows the layout: if a
    buffer decodes, the buffer with any bytes added at its end decodes to
    the same layout, with the same number of bytes consumed. *)
Theorem decoder_ignores_trailing_bytes (data extra : bytes) (layout : Layout)
  (consumed : Z) :
  decode_layout_wcc_run data = Ok (layout, consumed) ->
  decode_layout_wcc_run (data ++ extra) = Ok (layout, consumed).
Proof.
  unfold decode_layout_wcc_run. intros H.
  destruct (decode_layout_wcc_body data 0) as [[l n]|] eqn:E; [|discriminate].
  injection H as -> ->.
  pose proof (cut_safe_layout (data ++ extra) (length data) 0) as Hc.
  rewrite take_app_length, E in Hc. unfold cut_outcome in Hc.
  assert (H0 : 0 <= 0 <= len data) by (pose proof (len_nonneg data); lia).
  specialize (Hc H0).
  destruct (decode_layout_wcc_body (data ++ extra) 0) as [[l' n']|e].
  - destruct Hc as (_ & _ & Hc).
    destruct (n' <=? Z.of_nat (length data)); [|discriminate].
    now injection Hc as <- <-.
  - destruct Hc; discriminate.
Qed.

Lemma decoder_ignores_trailing_bytes_witness :
  decode_layout_wcc_run (encoded bare_layout ++ [x61; x62; x63])
  = Ok (bare_layout, 20).
Proof.
  apply (decoder_ignores_trailing_bytes (encoded bare_layout)).
  vm_compute. reflexivity.
Defined.

(** *** The leading type tag *)

(** X5.  A buffer that has fewer than 4 bytes, or whose first 4 bytes
    are not the tag of a layout, is refused before anything else is
    read: with "Unexpected end of data" when it has fewer than 4 bytes,
    whatever these bytes are, and otherwise with an invalid-type error
    that carries the tag found. *)
Theorem bad_header_is_refused (data : bytes) :
  len data < 4 \/ be_unpack (take 4 data) <> NFSType_value LAYOUT_WCC ->
  decode_layout_wcc data
  = if len data <? 4 then Err (XDRError_failed_decode XDRError_end_of_data)
    else Err (XDRError_failed_decode
                (XDRError_invalid_type LAYOUT_WCC (be_unpack (take 4 data)))).
Proof.
  intros Htag.
  unfold decode_layout_wcc, decode_layout_wcc_run, decode_layout_wcc_body,
    expect_type, _decode_uint32, bind, _read_bytes, ret, raise.
  destruct (Z.gtb_spec (0 + 4) (len data)), (Z.ltb_spec (len data) 4);
    try lia; [reflexivity|].
  unfold slice. change (Z.to_nat (0 + 4 - 0)) with 4%nat.
  change (Z.to_nat 0) with 0%nat. change (drop 0 data) with data.
  destruct Htag as [Hshort|Htag]; [lia|].
  destruct (Z.eqb_spec (be_unpack (take 4 data)) (NFSType_value LAYOUT_WCC));
    [contradiction|reflexivity].
Qed.

Lemma bad_header_is_refused_witness :
  decode_layout_wcc [x00; x00; x01]
  = Err (XDRError_failed_decode XDRError_end_of_data) /\
  decode_layout_wcc [x00; x00; x00; x02; x00]
  = Err (XDRError_failed_decode (XDRError_invalid_type LAYOUT_WCC 2)).
Proof.
  split.
  - apply (bad_header_is_refused [x00; x00; x01]). left. vm_compute.
    reflexivity.
  - apply (bad_header_is_refused [x00; x00; x00; x02; x00]). right.
    vm_compute. discriminate.
Defined.

(** *** What the decoder returns *)

Lemma returns_only_ret {A} (a : A) (P : A -> Prop) :
  P a -> returns_only (ret a) P.
Proof. intros Ha data o b o' _. unfold ret. now intros [= <- _]. Qed.

Lemma returns_only_raise {A} (e : exn) (P : A -> Prop) :
  returns_only (raise e) P.
Proof. intros data o b o' _. unfold raise. discriminate. Qed.

Lemma returns_only_bind {A B} (m : Decoder A) (f : A -> Decoder B)
  (P : A -> Prop) (Q : B -> Prop) :
  cut_safe m -> returns_only m P ->
  (forall a, P a -> returns_only (f a) Q) ->
  returns_only (bind m f) Q.
Proof.
  intros Hc Hm Hf data o b o' Ho H.
  apply bind_inv in H as (a & o1 & Em & Ef).
  pose proof (cut_safe_bounds m data o o1 a Hc Ho Em) as Hb.
  apply (Hf a (Hm data o a o1 Ho Em) data o1 b o'); [lia|exact Ef].
Qed.

Lemma returns_only_read (n : Z) :
  0 <= n -> returns_only (_read_bytes n) (fun b => length b = Z.to_nat n).
Proof.
  intros Hn data o b o' Ho. unfold _read_bytes.
  destruct (Z.gtb_spec (o + n) (len data)); [discriminate|].
  intros [= <- _]. unfold slice. rewrite length_take, length_drop.
  unfold len in *. lia.
Qed.

Lemma returns_only_uint32 :
  returns_only _decode_uint32 (fun v => 0 <= v < 2 ^ 32).
Proof. intros data o v o' _ H. now apply decode_uint32_inv in H. Qed.

Lemma returns_only_uint64 :
  returns_only _decode_uint64 (fun v => 0 <= v < 2 ^ 64).
Proof. intros data o v o' _ H. now apply decode_uint64_inv in H. Qed.

Lemma returns_only_items {A} (dec : Decoder A) (P : A -> Prop) (n : nat) :
  cut_safe dec -> returns_only dec P ->
  returns_only (decode_items dec n) (Forall P).
Proof.
  intros Hc Hd. induction n as [|n IH]; cbn [decode_items].
  - now apply returns_only_ret.
  - apply (returns_only_bind _ _ P); [exact Hc|exact Hd|]. intros a Ha.
    apply (returns_only_bind _ _ (Forall P));
      [now apply cut_safe_items|exact IH|].
    intros l Hl. apply returns_only_ret. now constructor.
Qed.

Lemma returns_only_array {A} (dec : Decoder A) (P : A -> Prop) :
  cut_safe dec -> returns_only dec P ->
  returns_only (_decode_array dec) (Forall P).
Proof.
  intros Hc Hd.
  apply (returns_only_bind _ _ (fun _ => True));
    [apply cut_safe_uint32|now intros ? ? ? ? ? ?|].
  intros n _. now apply returns_only_items.
Qed.

Lemma length_hex (bs : bytes) : length (hex bs) = (2 * length bs)%nat.
Proof. induction bs as [|b bs IH]; cbn [hex length]; lia. Qed.

Lemma hex_digit_is_hex (d : Z) : 0 <= d < 16 -> is_hex_digit (hex_digit d).
Proof.
  intros Hd. unfold hex_digit, is_hex_digit.
  destruct (Z.ltb_spec d 10); lia.
Qed.

Lemma hex_is_hex (bs : bytes) : Forall is_hex_digit (hex bs).
Proof.
  induction bs as [|b bs IH]; cbn [hex]; [constructor|].
  pose proof (Z_of_byte_range b).
  constructor; [|constructor; [|exact IH]]; apply hex_digit_is_hex.
  - split; [apply Z.div_pos; lia|apply Z.div_lt_upper_bound; lia].
  - apply Z.mod_pos_bound. lia.
Qed.

Lemma returns_only_expect_type (t : NFSType) :
  returns_only (expect_type t) (fun _ => True).
Proof. now intros ? ? ? ? ? ?. Qed.

Lemma returns_only_deviceid :
  returns_only _decode_deviceid
    (fun d => length d = 32%nat /\ Forall is_hex_digit d).
Proof.
  apply (returns_only_bind _ _ (fun _ => True));
    [apply cut_safe_expect_type|apply returns_only_expect_type|].
  intros _ _.
  apply (returns_only_bind _ _ (fun b => length b = 16%nat));
    [apply cut_safe_read; lia|apply (returns_only_read 16); lia|].
  intros b Hb. apply returns_only_ret.
  split; [rewrite length_hex; lia|apply hex_is_hex].
Qed.

Lemma returns_only_stateid :
  returns_only _decode_stateid
    (fun sid => 0 <= seqid sid < 2 ^ 32 /\ length (other sid) = 12%nat).
Proof.
  apply (returns_only_bind _ _ (fun _ => True));
    [apply cut_safe_expect_type|apply returns_only_expect_type|].
  intros _ _.
  apply (returns_only_bind _ _ (fun v => 0 <= v < 2 ^ 32));
    [apply cut_safe_uint32|apply returns_only_uint32|].
  intros v Hv.
  apply (returns_only_bind _ _ (fun b => length b = 12%nat));
    [apply cut_safe_read; lia|apply (returns_only_read 12); lia|].
  intros b Hb. apply returns_only_ret. now split.
Qed.

Lemma returns_only_filehandle :
  returns_only _decode_filehandle (Forall is_hex_digit).
Proof.
  apply (returns_only_bind _ _ (fun _ => True));
    [apply cut_safe_expect_type|apply returns_only_expect_type|].
  intros _ _.
  apply (returns_only_bind _ _ (fun _ => True));
    [apply cut_safe_variable_opaque|now intros ? ? ? ? ? ?|].
  intros b _. apply returns_only_ret, hex_is_hex.
Qed.

Lemma returns_only_optional (present : bool) :
  returns_only
    (if present then (let* v := _decode_uint64 in ret (Some v)) else ret None)
    (fun v => match v with Some x => 0 <= x < 2 ^ 64 | None => True end).
Proof.
  destruct present; [|now apply returns_only_ret].
  apply (returns_only_bind _ _ (fun v => 0 <= v < 2 ^ 64));
    [apply cut_safe_uint64|apply returns_only_uint64|].
  intros v Hv. now apply returns_only_ret.
Qed.

Lemma returns_only_attributes :
  returns_only _decode_attributes attributes_ok.
Proof.
  apply (returns_only_bind _ _ (fun _ => True));
    [apply cut_safe_expect_type|apply returns_only_expect_type|].
  intros _ _.
  apply (returns_only_bind _ _ (fun _ => True));
    [apply cut_safe_uint32|now intros ? ? ? ? ? ?|].
  intros mask _.
  eapply returns_only_bind;
    [apply cut_safe_optional|apply returns_only_optional|].
  intros sz Hsz.
  eapply returns_only_bind;
    [apply cut_safe_optional|apply returns_only_optional|].
  intros mt Hmt. apply returns_only_ret. now split.
Qed.

Lemma returns_only_data_server :
  returns_only _decode_data_server decoded_shape.
Proof.
  eapply returns_only_bind;
    [apply cut_safe_deviceid|apply returns_only_deviceid|].
  intros dev [Hd1 Hd2].
  eapply returns_only_bind;
    [apply cut_safe_stateid|apply returns_only_stateid|].
  intros sid [Hs1 Hs2].
  eapply returns_only_bind;
    [apply cut_safe_array, cut_safe_filehandle
    |apply returns_only_array;
       [apply cut_safe_filehandle|apply returns_only_filehandle]|].
  intros hs Hhs.
  eapply returns_only_bind;
    [apply cut_safe_attributes|apply returns_only_attributes|].
  intros a Ha. apply returns_only_ret. unfold decoded_shape. cbn. tauto.
Qed.

Lemma returns_only_mirror :
  returns_only _decode_mirror
    (fun m => Forall decoded_shape (data_servers m)).
Proof.
  apply (returns_only_bind _ _ (fun _ => True));
    [apply cut_safe_string|now intros ? ? ? ? ? ?|].
  intros mid _.
  eapply returns_only_bind;
    [apply cut_safe_array, cut_safe_data_server
    |apply returns_only_array;
       [apply cut_safe_data_server|apply returns_only_data_server]|].
  intros ss Hss. now apply returns_only_ret.
Qed.

Lemma returns_only_layout :
  returns_only decode_layout_wcc_body
    (fun l => Forall (fun m => Forall decoded_shape (data_servers m))
                (mirrors l)).
Proof.
  apply (returns_only_bind _ _ (fun _ => True));
    [apply cut_safe_expect_type|apply returns_only_expect_type|].
  intros _ _.
  eapply returns_only_bind;
    [apply cut_safe_array, cut_safe_mirror
    |apply returns_only_array;
       [apply cut_safe_mirror|apply returns_only_mirror]|].
  intros ms Hms. now apply returns_only_ret.
Qed.

Lemma decode_layout_wcc_inv (data : bytes) (layout : Layout) :
  decode_layout_wcc data = Ok layout ->
  exists consumed, decode_layout_wcc_body data 0 = Ok (layout, consumed).
Proof.
  unfold decode_layout_wcc, decode_layout_wcc_run.
  destruct (decode_layout_wcc_body data 0) as [[l n]|]; [|discriminate].
  intros [= <-]. eauto.
Qed.

Lemma decoded_servers_shape (data : bytes) (layout : Layout) :
  decode_layout_wcc data = Ok layout ->
  Forall (fun m => Forall decoded_shape (data_servers m)) (mirrors layout).
Proof.
  intros H. apply decode_layout_wcc_inv in H as [n H].
  assert (H0 : 0 <= 0 <= len data) by (pose proof (len_nonneg data); lia).
  exact (returns_only_layout data 0 layout n H0 H).
Qed.

(** X6.  In a layout that [decode_layout_wcc] returns, every data server
    has a device id of 32 lowercase hexadecimal digits, a [seqid] below
    2^32, an [other] of exactly 12 bytes, file handles made of
    hexadecimal digits, and [size] and [mtime] below 2^64 when present. *)
Theorem decoded_layout_shape (data : bytes) (layout : Layout)
  (m : Mirror) (s : DataServer) :
  decode_layout_wcc data = Ok layout ->
  In m (mirrors layout) -> In s (data_servers m) ->
  decoded_shape s.
Proof.
  intros H Hm Hs. pose proof (decoded_servers_shape data layout H) as Hall.
  rewrite List.Forall_forall in Hall. specialize (Hall m Hm).
  rewrite List.Forall_forall in Hall. exact (Hall s Hs).
Qed.

Lemma ascii_encode (s : str) :
  Forall is_hex_digit s ->
  exists data, str_encode s = Ok data /\ length data = length s.
Proof.
  induction 1 as [|c s Hc _ (data & IH & Hl)]; [now exists []|].
  cbn [str_encode]. unfold utf8_char.
  destruct (Z.ltb_spec c 0); [unfold is_hex_digit in Hc; lia|].
  destruct (Z.ltb_spec c 128); [|unfold is_hex_digit in Hc; lia].
  rewrite IH. eexists. split; [reflexivity|]. cbn. now rewrite Hl.
Qed.

(** X7.  The decoder's output is not an input of the encoder: a decoded
    layout that has a data server is refused by [encode_layout_wcc],
    because its device id, 32 hexadecimal digits, is 32 bytes long. *)
Theorem decoded_layout_is_refused (data self_buffer : bytes) (layout : Layout)
  (m : Mirror) (s : DataServer) :
  decode_layout_wcc data = Ok layout ->
  In m (mirrors layout) -> In s (data_servers m) ->
  exists e, encode_layout_wcc self_buffer layout
            = Err (XDRError_failed_encode e).
Proof.
  intros H Hm Hs.
  pose proof (decoded_servers_shape data layout H) as Hall.
  rewrite List.Forall_forall in Hall. specialize (Hall m Hm).
  rewrite List.Forall_forall in Hall.
  destruct (Hall s Hs) as (Hl & Hh & _).
  assert (He : is_Err (_encode_uint32 (NFSType_value LAYOUT_WCC) >>>
                       _encode_array (mirrors layout) _encode_mirror)).
  { apply andThen_err_r. apply (encode_array_err _ _ m Hm).
    unfold _encode_mirror. apply andThen_err_r.
    apply (encode_array_err _ _ s Hs). apply encode_data_server_err. left.
    intros d Hd. destruct (ascii_encode _ Hh) as (d' & Hd' & Hlen).
    rewrite Hd in Hd'. injection Hd' as <-. unfold len. lia. }
  unfold encode_layout_wcc. destruct (_ >>> _) as [|e]; [destruct He|].
  now exists e.
Qed.

Lemma decoded_layout_shape_witness :
  decoded_shape (view_data_server main_server).
Proof.
  apply (decoded_layout_shape (encoded main_layout) (decoded_view main_layout)
           (view_mirror main_mirror) (view_data_server main_server)).
  - vm_compute. reflexivity.
  - left. reflexivity.
  - left. reflexivity.
Defined.

Lemma decoded_layout_is_refused_witness :
  exists e, encode_layout_wcc [] (decoded_view main_layout)
            = Err (XDRError_failed_encode e).
Proof.
  apply (decoded_layout_is_refused (encoded main_layout) []
           (decoded_view main_layout)
           (view_mirror main_mirror) (view_data_server main_server)).
  - vm_compute. reflexivity.
  - left. reflexivity.
  - left. reflexivity.
Defined.

End CodecMore.

(** ** Transport *)

Module TransportMore.
Import Wire XDR Transport Recovery Rpc Props Samples MoreProps MoreSamples.
Import WireFacts XDRFacts TransportFacts.

(** *** Frames that arrive whole *)

Lemma len_frame (m : bytes) : len (frame m) = 4 + len m.
Proof. unfold frame. rewrite len_app, len_be_pack. lia. Qed.

(** One pass of the loop over a buffer that starts with a whole frame. *)
Lemma loop_body_frame (self : NFSProtocolHandler) (m rest : bytes) :
  _expected_length self = None ->
  _buffer self = frame m ++ rest ->
  len m < 2 ^ 32 ->
  loop_body self
  = let self2 :=
      _process_message m
        {| transport_protocol := transport_protocol self;
           _buffer := rest;
           _expected_length := Some (len m);
           processed := processed self |} in
    {| transport_protocol := transport_protocol self2;
       _buffer := _buffer self2;
       _expected_length := None;
       processed := processed self2 |}.
Proof.
  intros He Hb Hm. unfold loop_body. rewrite He, Hb. cbv zeta.
  cbn [_expected_length _buffer transport_protocol processed].
  unfold frame. rewrite <- app_assoc.
  assert (Htake : take 4 (be_pack 4 (len m) ++ m ++ rest) = be_pack 4 (len m))
    by (apply take_app_length'; now rewrite length_be_pack).
  assert (Hdrop : drop 4 (be_pack 4 (len m) ++ m ++ rest) = m ++ rest)
    by (apply drop_app_length'; now rewrite length_be_pack).
  rewrite Htake, Hdrop.
  rewrite be_unpack_pack
    by (pose proof (len_nonneg m); change (256 ^ Z.of_nat 4) with (2 ^ 32); lia).
  destruct (Z.geb_spec (len (m ++ rest)) (len m)) as [_|Hlt].
  2:{ rewrite len_app in Hlt. pose proof (len_nonneg rest). lia. }
  replace (Z.to_nat (len m)) with (length m) by (unfold len; lia).
  now rewrite take_app_length, drop_app_length.
Qed.

Lemma while_loop_frames (messages : list bytes) :
  forall (tail : bytes) (self : NFSProtocolHandler),
    _expected_length self = None ->
    _buffer self = concat (map frame messages) ++ tail ->
    Forall (fun m => len m < 2 ^ 32) messages ->
    len tail < 4 ->
    exists self',
      while_loop (S (length messages)) self = Some self' /\
      processed self' = processed self ++ messages /\
      _buffer self' = tail /\ _expected_length self' = None.
Proof.
  induction messages as [|m messages IH]; intros tail self He Hb Hall Ht.
  - cbn in Hb. cbn [length while_loop]. rewrite Hb.
    destruct (Z.geb_spec (len tail) 4); [lia|].
    exists self. rewrite app_nil_r. auto.
  - apply Forall_cons in Hall as [Hm Hall].
    cbn [map concat] in Hb. rewrite <- app_assoc in Hb.
    cbn [length]. cbn [while_loop].
    destruct (Z.geb_spec (len (_buffer self)) 4) as [_|Hlt].
    2:{ rewrite Hb, len_app, len_frame in Hlt.
        pose proof (len_nonneg m).
        pose proof (len_nonneg (concat (map frame messages) ++ tail)). lia. }
    rewrite (loop_body_frame self m _ He Hb Hm). cbv zeta.
    edestruct (IH tail) as (self' & Hw & Hp & Hbuf & Hexp);
      [| |exact Hall|exact Ht|].
    3:{ exists self'. split; [exact Hw|]. split; [|auto].
        rewrite Hp. cbn [processed _process_message].
        now rewrite <- app_assoc. }
    + reflexivity.
    + reflexivity.
Qed.

(** X8.  When a handler with nothing buffered receives a chunk made of
    whole frames, followed by fewer than 4 bytes of the next length
    prefix, [data_received] returns after one pass per frame; it has
    passed the frames to [_process_message] in the order of the chunk and
    keeps the trailing bytes for the next call.  Frames of any length,
    also empty ones, are handled. *)
Theorem whole_frames_are_processed_in_order (messages : list bytes)
  (tail : bytes) (self : NFSProtocolHandler) :
  _expected_length self = None -> _buffer self = [] ->
  Forall (fun m => len m < 2 ^ 32) messages -> len tail < 4 ->
  exists self',
    data_received (S (length messages))
      (concat (map frame messages) ++ tail) self = Some self' /\
    processed self' = processed self ++ messages /\
    _buffer self' = tail /\ _expected_length self' = None.
Proof.
  intros He Hb Hall Ht. unfold data_received.
  destruct (while_loop_frames messages tail
              {| transport_protocol := transport_protocol self;
                 _buffer := _buffer self ++ concat (map frame messages) ++ tail;
                 _expected_length := _expected_length self;
                 processed := processed self |})
    as (self' & H); auto.
  - cbn. now rewrite Hb.
  - now exists self'.
Qed.

Lemma whole_frames_are_processed_in_order_witness :
  exists self',
    data_received 3
      (concat (map frame [[x00; x00; x00; x07; x61]; []]) ++ [x00; x00])
      (new_handler new_transport) = Some self' /\
    processed self' = [] ++ [[x00; x00; x00; x07; x61]; []] /\
    _buffer self' = [x00; x00] /\ _expected_length self' = None.
Proof.
  apply (whole_frames_are_processed_in_order
           [[x00; x00; x00; x07; x61]; []] [x00; x00]
           (new_handler new_transport)).
  - reflexivity.
  - reflexivity.
  - repeat constructor.
  - reflexivity.
Defined.

(** *** Replies and waiters *)

(** X9.  [handle_response] resolves a waiter at most once and touches no
    other waiter: a second response for the same id changes nothing, and
    the registry entry of any other id is as it was. *)
Theorem response_is_delivered_at_most_once (t : NFSTransportProtocol)
  (xid other_xid : Z) (d1 d2 : bytes) :
  xid <> other_xid ->
  handle_response xid d2 (handle_response xid d1 t)
  = handle_response xid d1 t /\
  _pending_requests (handle_response xid d1 t) !! other_xid
  = _pending_requests t !! other_xid.
Proof.
  intros Hne. unfold handle_response.
  destruct (_pending_requests t !! xid) as [[|]|] eqn:E;
    cbn [_pending_requests]; rewrite ?E, ?lookup_delete_eq; auto.
  split; [reflexivity|]. now apply lookup_delete_ne.
Qed.

Lemma response_is_delivered_at_most_once_witness :
  handle_response 7 [x62] (handle_response 7 [x61] (register 7 new_transport))
  = handle_response 7 [x61] (register 7 new_transport) /\
  _pending_requests (handle_response 7 [x61] (register 7 new_transport)) !! 8
  = _pending_requests (register 7 new_transport) !! 8.
Proof.
  apply (response_is_delivered_at_most_once (register 7 new_transport) 7 8).
  discriminate.
Defined.

(** *** Building and sending requests *)

Lemma next_xid_range (t : NFSTransportProtocol) :
  0 <= fst (_get_next_xid t) < 2 ^ 32 - 1.
Proof. cbn [_get_next_xid fst]. apply Z.mod_pos_bound. lia. Qed.

Lemma build_rpc_message_ok (xid : Z) (payload : bytes) :
  0 <= xid < 2 ^ 32 ->
  _build_rpc_message xid payload
  = Ok ((be_pack 4 xid ++ call_fields) ++ payload).
Proof.
  intros Hx. unfold _build_rpc_message.
  change (pack_words [xid; CALL; 2; 100003; 4; 0])
    with (match pack_I xid with
          | Err e => Err e
          | Ok b0 => match pack_words [CALL; 2; 100003; 4; 0] with
                     | Err e => Err e
                     | Ok bs => Ok (b0 ++ bs)
                     end
          end).
  rewrite (pack_I_ok xid Hx). reflexivity.
Qed.

Lemma issued_id_header_ok (t : NFSTransportProtocol) (payload : bytes) :
  exists message,
    _build_rpc_message (fst (_get_next_xid t)) payload = Ok message.
Proof.
  pose proof (next_xid_range t) as Hx.
  eexists. apply build_rpc_message_ok. lia.
Qed.

(** X10.  Every id that [_get_next_xid] hands out fits the header:
    [_build_rpc_message] does not raise on it, and the message is 24
    header bytes, the first 4 of which are the id, followed by the
    payload. *)
Theorem issued_id_fits_the_header (t : NFSTransportProtocol)
  (payload : bytes) :
  exists message,
    _build_rpc_message (fst (_get_next_xid t)) payload = Ok message /\
    len message = 24 + len payload /\
    be_unpack (take 4 message) = fst (_get_next_xid t) /\
    drop 24 message = payload.
Proof.
  pose proof (next_xid_range t) as Hx.
  assert (Hr : 0 <= fst (_get_next_xid t) < 2 ^ 32) by lia.
  eexists. split; [apply build_rpc_message_ok, Hr|].
  split; [|split].
  - rewrite !len_app, len_be_pack. change (len call_fields) with 20. lia.
  - rewrite <- app_assoc.
    rewrite take_app_length' by (now rewrite length_be_pack).
    apply be_unpack_pack. change (256 ^ Z.of_nat 4) with (2 ^ 32). lia.
  - apply drop_app_length'. rewrite length_app, length_be_pack. reflexivity.
Qed.

(** A connected endpoint registers the request under the next id and
    writes the message. *)
Lemma send_begin_connected (payload : bytes) (self : Endpoint) (s : Socket) :
  _connected self = true -> _transport self = Some s ->
  exists message,
    _build_rpc_message (fst (_get_next_xid (protocol self))) payload
    = Ok message /\
    send_begin payload self
    = (inr (fst (_get_next_xid (protocol self)), message),
       {| protocol := register (fst (_get_next_xid (protocol self)))
                        (snd (_get_next_xid (protocol self)));
          _transport := Some {| written := written s ++ [message];
                                socket_closed := socket_closed s |};
          _connected := true |}).
Proof.
  intros Hc Ht.
  destruct (issued_id_header_ok (protocol self) payload) as (message & Hm).
  exists message. split; [exact Hm|].
  unfold send_begin. rewrite Hc. cbn [negb].
  destruct (_get_next_xid (protocol self)) as [xid t] eqn:E.
  cbn [fst snd] in *. now rewrite Hm, Ht.
Qed.

(** X11.  A request that timed out is forgotten: on a connected endpoint,
    after [send_layout_wcc] has registered its waiter and the wait has
    ended with a timeout, the call raises "Request timed out", no waiter
    is left under its id, and a reply that arrives later for that id
    changes nothing. *)
Theorem timed_out_request_is_forgotten (payload late : bytes)
  (self : Endpoint) (s : Socket) :
  _connected self = true -> _transport self = Some s ->
  exists xid message self1 self2,
    send_begin payload self = (inr (xid, message), self1) /\
    send_end xid TimedOut self1
    = (inl (NFSTransportError "Request timed out"), self2) /\
    _pending_requests (protocol self2) !! xid = None /\
    on_response xid late self2 = self2.
Proof.
  intros Hc Ht.
  destruct (send_begin_connected payload self s Hc Ht) as (message & _ & Hs).
  eexists _, message, _, _. split; [exact Hs|].
  unfold send_end, unregister, register.
  cbn [protocol _pending_requests _xid_counter resolved _transport _connected].
  rewrite lookup_insert_eq. split; [reflexivity|].
  cbn [protocol _pending_requests].
  split; [apply lookup_delete_eq|].
  unfold on_response, handle_response.
  cbn [protocol _pending_requests _transport _connected].
  now rewrite lookup_delete_eq.
Qed.

Lemma timed_out_request_is_forgotten_witness :
  exists xid message self1 self2,
    send_begin [x61] connected_endpoint = (inr (xid, message), self1) /\
    send_end xid TimedOut self1
    = (inl (NFSTransportError "Request timed out"), self2) /\
    _pending_requests (protocol self2) !! xid = None /\
    on_response xid [x62] self2 = self2.
Proof.
  apply (timed_out_request_is_forgotten [x61] [x62] connected_endpoint
           {| written := []; socket_closed := false |});
    reflexivity.
Defined.

(** X12.  [close] can be called any number of times, and it ends sending:
    after [close] on an endpoint that has a transport object,
    [send_layout_wcc] raises "Not connected to server" without allocating
    an id, registering a waiter or writing anything. *)
Theorem close_ends_sending (payload : bytes) (self : Endpoint) (s : Socket) :
  _transport self = Some s ->
  close (close self) = close self /\
  send_begin payload (close self)
  = (inl (NFSTransportError "Not connected to server"), close self).
Proof.
  intros Ht. unfold close. rewrite Ht. cbn [_transport]. split; reflexivity.
Qed.

Lemma close_ends_sending_witness :
  close (close connected_endpoint) = close connected_endpoint /\
  send_begin [x61] (close connected_endpoint)
  = (inl (NFSTransportError "Not connected to server"),
     close connected_endpoint).
Proof.
  apply (close_ends_sending [x61] connected_endpoint
           {| written := []; socket_closed := false |}).
  reflexivity.
Defined.

(** X13.  Two requests sent one after the other on a connected endpoint
    get different ids, and both waiters are registered, so the replies
    can be told apart in whatever order they come. *)
Theorem consecutive_requests_have_distinct_ids (p1 p2 : bytes)
  (self : Endpoint) (s : Socket) :
  _connected self = true -> _transport self = Some s ->
  exists x1 m1 self1 x2 m2 self2,
    send_begin p1 self = (inr (x1, m1), self1) /\
    send_begin p2 self1 = (inr (x2, m2), self2) /\
    x1 <> x2 /\
    _pending_requests (protocol self2) !! x1 = Some false /\
    _pending_requests (protocol self2) !! x2 = Some false.
Proof.
  intros Hc Ht.
  destruct (send_begin_connected p1 self s Hc Ht) as (m1 & _ & H1).
  set (self1 := {| protocol := register (fst (_get_next_xid (protocol self)))
                                (snd (_get_next_xid (protocol self)));
                   _transport := Some {| written := written s ++ [m1];
                                         socket_closed := socket_closed s |};
                   _connected := true |}) in *.
  destruct (send_begin_connected p2 self1
              {| written := written s ++ [m1];
                 socket_closed := socket_closed s |} eq_refl eq_refl)
    as (m2 & _ & H2).
  eexists _, m1, _, _, m2, _. split; [exact H1|]. split; [exact H2|].
  subst self1.
  cbn [protocol register _get_next_xid fst snd _xid_counter _pending_requests].
  set (c := (_xid_counter (protocol self) + 1) mod 4294967295).
  assert (Hcr : 0 <= c < 4294967295) by (apply Z.mod_pos_bound; lia).
  assert (Hne : c <> (c + 1) mod 4294967295).
  { destruct (Z.eq_dec c 4294967294) as [->|Hn]; [discriminate|].
    rewrite Z.mod_small; lia. }
  split; [exact Hne|]. split.
  - rewrite lookup_insert_ne by congruence. apply lookup_insert_eq.
  - apply lookup_insert_eq.
Qed.

Lemma consecutive_requests_have_distinct_ids_witness :
  exists x1 m1 self1 x2 m2 self2,
    send_begin [x61] connected_endpoint = (inr (x1, m1), self1) /\
    send_begin [x62] self1 = (inr (x2, m2), self2) /\
    x1 <> x2 /\
    _pending_requests (protocol self2) !! x1 = Some false /\
    _pending_requests (protocol self2) !! x2 = Some false.
Proof.
  apply (consecutive_requests_have_distinct_ids [x61] [x62] connected_endpoint
           {| written := []; socket_closed := false |});
    reflexivity.
Defined.

(** A handler with nothing buffered that receives one whole frame. *)
Lemma data_received_one_frame (h : NFSProtocolHandler) (m : bytes) :
  _buffer h = [] -> _expected_length h = None -> len m < 2 ^ 32 ->
  exists h',
    data_received 2 (frame m) h = Some h' /\
    transport_protocol h'
    = (if len (take 4 m) =? 4
       then handle_response (be_unpack (take 4 m)) (drop 4 m)
              (transport_protocol h)
       else transport_protocol h) /\
    _buffer h' = [] /\ _expected_length h' = None /\
    processed h' = processed h ++ [m].
Proof.
  intros Hb He Hm. unfold data_received. rewrite Hb. cbn [app].
  set (h0 := {| transport_protocol := transport_protocol h;
                _buffer := frame m;
                _expected_length := _expected_length h;
                processed := processed h |}).
  assert (Hb0 : _buffer h0 = frame m ++ []) by (cbn; now rewrite app_nil_r).
  cbn [while_loop].
  destruct (Z.geb_spec (len (_buffer h0)) 4) as [_|Hlt].
  2:{ cbn [_buffer h0] in Hlt. rewrite len_frame in Hlt.
      pose proof (len_nonneg m). lia. }
  rewrite (loop_body_frame h0 m [] He Hb0 Hm). cbv zeta.
  cbn [_buffer _process_message]. change (len [] >=? 4) with false. cbv iota.
  eexists. split; [reflexivity|]. cbn. auto.
Qed.

(** X14.  A reply reaches its waiter: when a request was sent on a
    connected endpoint and the handler, with nothing buffered, receives
    a frame made of the request's id and some data, [data_received]
    returns, the data is set as the result of that request, and its
    waiter leaves the registry. *)
Theorem reply_reaches_its_waiter (payload data : bytes) (self : Endpoint)
  (s : Socket) (h : NFSProtocolHandler) (xid : Z) (message : bytes)
  (self1 : Endpoint) :
  _connected self = true -> _transport self = Some s ->
  send_begin payload self = (inr (xid, message), self1) ->
  transport_protocol h = protocol self1 ->
  _buffer h = [] -> _expected_length h = None ->
  len data + 4 < 2 ^ 32 ->
  exists h',
    data_received 2 (frame (be_pack 4 xid ++ data)) h = Some h' /\
    resolved (transport_protocol h')
    = resolved (protocol self) ++ [(xid, data)] /\
    _pending_requests (transport_protocol h') !! xid = None /\
    _buffer h' = [].
Proof.
  intros Hc Ht Hs Hh Hb He Hd.
  destruct (send_begin_connected payload self s Hc Ht) as (m & _ & Hs').
  rewrite Hs in Hs'. injection Hs' as Hxid _ Hself1.
  assert (Hx : 0 <= xid < 2 ^ 32).
  { pose proof (next_xid_range (protocol self)) as Hr.
    cbn [_get_next_xid fst] in Hr, Hxid. rewrite Hxid. lia. }
  destruct (data_received_one_frame h (be_pack 4 xid ++ data) Hb He)
    as (h' & Hr & Htp & Hbuf & _).
  { rewrite len_app, len_be_pack. lia. }
  exists h'. split; [exact Hr|]. rewrite Htp.
  rewrite (take_app_length' (be_pack 4 xid) data 4)
    by (now rewrite length_be_pack).
  rewrite (drop_app_length' (be_pack 4 xid) data 4)
    by (now rewrite length_be_pack).
  rewrite len_be_pack. cbn [Z.of_nat Pos.of_succ_nat Pos.succ Z.eqb Pos.eqb].
  rewrite be_unpack_pack by (change (256 ^ Z.of_nat 4) with (2 ^ 32); lia).
  rewrite Hh, Hself1, Hxid. unfold handle_response, register.
  cbn [protocol _pending_requests _xid_counter resolved].
  rewrite lookup_insert_eq. cbn [resolved _pending_requests _get_next_xid snd].
  split; [reflexivity|]. split; [apply lookup_delete_eq|exact Hbuf].
Qed.

Lemma reply_reaches_its_waiter_witness :
  exists h',
    data_received 2 (frame (be_pack 4 1 ++ [x6f; x6b]))
      (new_handler (protocol (snd (send_begin [x61] connected_endpoint))))
    = Some h' /\
    resolved (transport_protocol h')
    = resolved (protocol connected_endpoint) ++ [(1, [x6f; x6b])] /\
    _pending_requests (transport_protocol h') !! 1 = None /\
    _buffer h' = [].
Proof.
  refine (reply_reaches_its_waiter [x61] [x6f; x6b] connected_endpoint
            {| written := []; socket_closed := false |}
            (new_handler (protocol (snd (send_begin [x61] connected_endpoint))))
            1 (match _build_rpc_message 1 [x61] with Ok m => m | Err _ => [] end)
            (snd (send_begin [x61] connected_endpoint)) _ _ _ _ _ _ _);
    reflexivity.
Defined.

End TransportMore.

(** ** Retry engine, cache and pool *)

Module RecoveryMore.
Import Recovery Pooling Props Samples MoreProps MoreSamples RecoveryFacts.

(** *** What every run looks like *)

(** X16.  Every run of [execute_with_recovery], whatever the operation
    and the configuration.  The metrics of the run are stored under the
    operation id with both clock readings, and no other entry changes.
    If [max_retries] is not positive nothing is attempted and [None] is
    returned.  Otherwise the operation is called exactly once: the run
    returns what the call returns and records success, or it raises
    [NameError] when the call raises.  The metrics never count a retry
    and never hold an error text, and neither the delays of the
    configuration nor the value of a positive [max_retries] makes a
    difference. *)
Theorem every_run_has_this_shape {V : Type} (cfg : RetryConfig)
  (operation : nat -> outcome V)
  (operation_metrics : gmap string OperationMetrics)
  (operation_id other_id : string) (t_start t_end : Z) :
  other_id <> operation_id ->
  let '(c, metrics', trace) :=
    execute_with_recovery cfg operation operation_metrics operation_id
      t_start t_end in
  metrics' !! other_id = operation_metrics !! other_id /\
  exists m,
    metrics' !! operation_id = Some m /\
    start_time m = t_start /\ end_time m = Some t_end /\
    retries m = 0 /\ error m = None /\
    if max_retries cfg <=? 0 then
      c = ReturnedNone /\ trace = [] /\ success m = false
    else
      trace = [Invoke] /\
      match operation 0%nat with
      | Returns v => c = Returned v /\ success m = true
      | Raises _ =>
        c = Raised (NameError "NFSTransportError") /\ success m = false
      end.
Proof.
  intros Hne. unfold execute_with_recovery, retry_loop.
  destruct (Z.leb_spec (max_retries cfg) 0) as [Hle|Hgt].
  - replace (Z.to_nat (max_retries cfg)) with 0%nat by lia.
    split; [now apply lookup_insert_ne|].
    eexists. split; [apply lookup_insert_eq|]. cbn. tauto.
  - destruct (Z.to_nat (max_retries cfg)) as [|r] eqn:Er; [lia|].
    destruct (operation 0%nat) as [v|e].
    + split; [now apply lookup_insert_ne|].
      eexists. split; [apply lookup_insert_eq|]. cbn. tauto.
    + split; [now apply lookup_insert_ne|].
      eexists. split; [apply lookup_insert_eq|]. cbn. tauto.
Qed.

Lemma every_run_has_this_shape_witness :
  let '(c, metrics', trace) :=
    execute_with_recovery test_config fails_twice ∅ "op" 0 5 in
  metrics' !! "other" = (∅ : gmap string OperationMetrics) !! "other" /\
  exists m,
    metrics' !! "op" = Some m /\
    start_time m = 0 /\ end_time m = Some 5 /\
    retries m = 0 /\ error m = None /\
    trace = [Invoke] /\
    c = Raised (NameError "NFSTransportError") /\ success m = false.
Proof.
  apply (every_run_has_this_shape test_config fails_twice ∅
           "op" "other" 0 5).
  discriminate.
Defined.

(** *** The layout cache *)

Lemma cache_inv_size {V} (c : LRUCache V) :
  cache_inv c -> size (cache c) = length (usage c).
Proof.
  intros [Hnd Hdom]. rewrite <- size_dom, Hdom.
  now apply size_list_to_set.
Qed.

(** Under the invariant, [__setitem__] raises only on an empty cache
    without capacity. *)
Lemma setitem_returns {V} (key : string) (value : CacheEntry V)
  (c : LRUCache V) :
  cache_inv c -> 1 <= capacity c \/ cache c <> ∅ ->
  exists c', LRUCache_setitem key value c = inr c'.
Proof.
  intros Hinv Hroom. unfold LRUCache_setitem.
  destruct (cache c !! key) as [old|] eqn:Ek.
  - assert (Hin : key ∈ usage c) by (apply cache_inv_elem; eauto).
    destruct (list_remove_is_Some key (usage c) Hin) as [u ->]. eauto.
  - destruct (Z.geb_spec (Z.of_nat (size (cache c))) (capacity c)) as [Hfull|];
      [|eauto].
    destruct (usage c) as [|oldest u] eqn:Eu.
    + exfalso. pose proof (cache_inv_size c Hinv) as Hs. rewrite Eu in Hs.
      cbn in Hs. destruct Hroom as [Hcap|Hne]; [lia|].
      apply Hne. now apply map_size_empty_iff.
    + assert (Ho : is_Some (cache c !! oldest)).
      { apply cache_inv_elem; [exact Hinv|]. rewrite Eu. apply elem_of_cons. now left. }
      destruct Ho as [e ->]. eauto.
Qed.

Lemma setitem_stores {V} (key : string) (value : CacheEntry V)
  (c c' : LRUCache V) :
  LRUCache_setitem key value c = inr c' ->
  cache c' !! key = Some value /\ capacity c' = capacity c /\
  last (usage c') = Some key.
Proof.
  unfold LRUCache_setitem.
  destruct (cache c !! key).
  - destruct (list_remove key (usage c)); [|discriminate].
    intros [= <-]. cbn. rewrite lookup_insert_eq, last_snoc. auto.
  - destruct (_ >=? _).
    + destruct (usage c) as [|oldest u]; [discriminate|].
      destruct (cache c !! oldest); [|discriminate].
      intros [= <-]. cbn. rewrite lookup_insert_eq, last_snoc. auto.
    + intros [= <-]. cbn. rewrite lookup_insert_eq, last_snoc. auto.
Qed.

Lemma setitem_size {V} (key : string) (value : CacheEntry V)
  (c c' : LRUCache V) :
  cache_inv c -> LRUCache_setitem key value c = inr c' ->
  Z.of_nat (size (cache c)) <= capacity c ->
  Z.of_nat (size (cache c')) <= capacity c.
Proof.
  intros Hinv. unfold LRUCache_setitem.
  destruct (cache c !! key) as [old|] eqn:Ek.
  - destruct (list_remove key (usage c)); [|discriminate].
    intros [= <-] Hs. cbn [cache]. rewrite map_size_insert_Some; eauto.
  - destruct (Z.geb_spec (Z.of_nat (size (cache c))) (capacity c)) as [Hfull|Hroom].
    + destruct (usage c) as [|oldest u] eqn:Eu; [discriminate|].
      destruct (cache c !! oldest) as [e|] eqn:Eo; [|discriminate].
      intros [= <-] Hs. cbn [cache].
      assert (Hne : oldest <> key) by congruence.
      rewrite map_size_insert_None by (rewrite lookup_delete_ne; auto).
      rewrite map_size_delete_Some by eauto.
      assert (size (cache c) <> 0%nat).
      { apply map_size_non_empty_iff. intros He. rewrite He in Eo.
        now rewrite lookup_empty in Eo. }
      lia.
    + intros [= <-] _. cbn [cache]. rewrite map_size_insert_None by exact Ek.
      lia.
Qed.

(** What [get] returns and leaves behind, under the invariant. *)
Lemma get_returns {V} (key : string) (c : LRUCache V) :
  cache_inv c ->
  exists c', LRUCache_get key c = inr (cache c !! key, c') /\
             cache c' = cache c /\ capacity c' = capacity c /\
             (is_Some (cache c !! key) -> last (usage c') = Some key) /\
             length (usage c') = length (usage c).
Proof.
  intros Hinv. unfold LRUCache_get.
  destruct (cache c !! key) as [e|] eqn:Ek.
  - assert (Hin : key ∈ usage c) by (apply cache_inv_elem; eauto).
    destruct (list_remove_is_Some key (usage c) Hin) as [u Hu]. rewrite Hu.
    eexists. split; [reflexivity|]. cbn. repeat split; auto.
    + intros _. apply last_snoc.
    + rewrite length_app. cbn.
      clear -Hu. revert u Hu. induction (usage c) as [|z l IH]; intros u;
        cbn [list_remove]; [discriminate|].
      destruct (decide (key = z)); [intros [= <-]; cbn; lia|].
      destruct (list_remove key l) as [u'|]; [|discriminate].
      intros [= <-]. cbn. specialize (IH u' eq_refl). lia.
  - exists c. repeat split; auto. intros [? ?]; discriminate.
Qed.

(** X18.  A layout cached at time [t0] with a time to live of [ttl]
    seconds is returned by every lookup up to [ttl] seconds later, and
    by none after that; the late lookup returns [None] but leaves the
    entry in the cache.  The cache has room for one entry at least and
    satisfies the invariant of the recency list. *)
Theorem cached_layout_is_served_until_its_ttl {V} (c : LRUCache V)
  (layout_id : string) (layout_data : V) (ttl t0 now : Z) :
  cache_inv c -> 1 <= capacity c ->
  exists c1 c2,
    cache_layout layout_id layout_data ttl t0 c = inr c1 /\
    get_cached_layout layout_id now c1
    = inr (if now - t0 <=? ttl * 1000000 then Some layout_data else None, c2) /\
    cache c2 = cache c1.
Proof.
  intros Hinv Hcap. unfold cache_layout.
  destruct (setitem_returns layout_id
              {| data := layout_data; timestamp := t0; ttl := ttl |} c Hinv)
    as [c1 Hc1]; [now left|].
  pose proof (cache_inv_setitem _ _ _ _ Hinv Hc1) as Hinv1.
  destruct (setitem_stores _ _ _ _ Hc1) as (Hk & _ & _).
  destruct (get_returns layout_id c1 Hinv1) as (c2 & Hg & Hc2 & _).
  exists c1, c2. split; [exact Hc1|]. split; [|exact Hc2].
  unfold get_cached_layout. rewrite Hg, Hk.
  unfold _is_expired. cbn [Recovery.ttl timestamp data].
  destruct (Z.ltb_spec (ttl * 1000000) (now - t0));
    destruct (Z.leb_spec (now - t0) (ttl * 1000000)); try lia; reflexivity.
Qed.

Lemma cached_layout_is_served_until_its_ttl_witness :
  exists c1 c2,
    cache_layout "layout" 5%nat 1 0 (new_cache 10) = inr c1 /\
    get_cached_layout "layout" 1100000 c1
    = inr (if 1100000 - 0 <=? 1 * 1000000 then Some 5%nat else None, c2) /\
    cache c2 = cache c1.
Proof.
  apply (cached_layout_is_served_until_its_ttl (new_cache 10) "layout"
           5%nat 1 0 1100000).
  - split; [constructor|]. vm_compute. reflexivity.
  - vm_compute. discriminate.
Defined.

(** X19.  Caching a layout in a cache with room for one entry at least
    never raises, and it keeps the cache within its capacity and the
    recency list in step with the entries; the key cached is the most
    recently used one. *)
Theorem cache_stays_within_capacity {V} (c : LRUCache V)
  (layout_id : string) (layout_data : V) (ttl now : Z) :
  cache_inv c -> 1 <= capacity c ->
  Z.of_nat (size (cache c)) <= capacity c ->
  exists c',
    cache_layout layout_id layout_data ttl now c = inr c' /\
    cache_inv c' /\ capacity c' = capacity c /\
    Z.of_nat (size (cache c')) <= capacity c' /\
    last (usage c') = Some layout_id.
Proof.
  intros Hinv Hcap Hsize. unfold cache_layout.
  destruct (setitem_returns layout_id
              {| data := layout_data; timestamp := now; ttl := ttl |} c Hinv)
    as [c' Hc']; [now left|].
  exists c'. split; [exact Hc'|].
  destruct (setitem_stores _ _ _ _ Hc') as (_ & Hcap' & Hlast).
  split; [eapply cache_inv_setitem; eauto|]. split; [exact Hcap'|].
  split; [|exact Hlast]. rewrite Hcap'. eapply setitem_size; eauto.
Qed.

Lemma cache_stays_within_capacity_witness :
  exists c',
    cache_layout "n" 8%nat 300 2000000 two_entry_cache = inr c' /\
    cache_inv c' /\ capacity c' = capacity two_entry_cache /\
    Z.of_nat (size (cache c')) <= capacity c' /\
    last (usage c') = Some "n".
Proof.
  apply (cache_stays_within_capacity two_entry_cache "n" 8%nat 300 2000000).
  - split.
    + refine (bool_decide_unpack _ _). vm_compute. exact I.
    + vm_compute. reflexivity.
  - vm_compute. discriminate.
  - vm_compute. discriminate.
Defined.

(** X20.  A cache made with a capacity of zero or less accepts nothing:
    the first [cache_layout] raises [IndexError], from popping the empty
    recency list. *)
Theorem cache_without_capacity_raises {V} (capacity : Z)
  (layout_id : string) (layout_data : V) (ttl now : Z) :
  capacity <= 0 ->
  cache_layout layout_id layout_data ttl now (new_cache capacity)
  = inl IndexError.
Proof.
  intros Hcap. unfold cache_layout, LRUCache_setitem, new_cache.
  cbn [cache usage Recovery.capacity]. rewrite lookup_empty, map_size_empty.
  destruct (Z.geb_spec (Z.of_nat 0) capacity); [reflexivity|lia].
Qed.

Lemma cache_without_capacity_raises_witness :
  cache_layout "layout" 5%nat 300 0 (new_cache 0) = inl IndexError.
Proof.
  apply (cache_without_capacity_raises 0 "layout" 5%nat 300 0). lia.
Defined.

(** X21.  A key that was just looked up is not the next one evicted: in
    a cache of two entries or more, after [get_cached_layout k], fresh or
    expired, caching another key leaves the entry of [k] in place. *)
Theorem looked_up_key_survives_next_insertion {V} (c : LRUCache V)
  (k k' : string) (layout_data : V) (ttl now now' : Z) :
  cache_inv c -> is_Some (cache c !! k) -> (2 <= size (cache c))%nat ->
  k' <> k ->
  exists r c1 c2,
    get_cached_layout k now c = inr (r, c1) /\
    cache_layout k' layout_data ttl now' c1 = inr c2 /\
    cache c2 !! k = cache c !! k.
Proof.
  intros Hinv Hk Hsize Hne.
  destruct (get_returns k c Hinv) as (c1 & Hg & Hc1 & Hcap1 & Hlast & Hlen).
  specialize (Hlast Hk).
  assert (Hinv1 : cache_inv c1).
  { eapply cache_inv_get; eauto. }
  assert (Hget : exists r, get_cached_layout k now c = inr (r, c1)).
  { unfold get_cached_layout. rewrite Hg. destruct (cache c !! k) as [e|].
    - destruct (negb (_is_expired e now)); eauto.
    - eauto. }
  destruct Hget as [r Hr]. exists r, c1.
  destruct (setitem_returns k'
              {| data := layout_data; timestamp := now'; ttl := ttl |} c1 Hinv1)
    as [c2 Hc2].
  { right. rewrite Hc1. apply map_size_non_empty_iff. lia. }
  exists c2. split; [exact Hr|]. split; [exact Hc2|].
  revert Hc2. unfold LRUCache_setitem.
  destruct (cache c1 !! k') as [old|] eqn:Ek'.
  - destruct (list_remove k' (usage c1)); [|discriminate].
    intros [= <-]. cbn [cache]. rewrite lookup_insert_ne by exact Hne.
    now rewrite Hc1.
  - destruct (_ >=? _).
    + destruct (usage c1) as [|oldest u] eqn:Eu; [discriminate|].
      destruct (cache c1 !! oldest); [|discriminate].
      intros [= <-]. cbn [cache]. rewrite lookup_insert_ne by exact Hne.
      assert (Ho : oldest <> k).
      { intros ->. pose proof (cache_inv_size c Hinv) as Hs.
        rewrite <- Hlen in Hs.
        destruct Hinv1 as [Hnd _]. rewrite Eu in Hnd.
        apply NoDup_cons in Hnd as [Hnotin _].
        destruct u as [|y u]; [cbn in Hs; lia|].
        apply Hnotin.
        change (k :: y :: u) with ([k] ++ y :: u) in Hlast.
        rewrite last_app in Hlast.
        destruct (last (y :: u)) as [z|] eqn:El.
        - injection Hlast as ->. apply last_Some_elem_of in El. exact El.
        - apply last_None in El. discriminate. }
      rewrite lookup_delete_ne by exact Ho. now rewrite Hc1.
    + intros [= <-]. cbn [cache]. rewrite lookup_insert_ne by exact Hne.
      now rewrite Hc1.
Qed.

Lemma looked_up_key_survives_next_insertion_witness :
  exists r c1 c2,
    get_cached_layout "k" 2000000 two_entry_cache = inr (r, c1) /\
    cache_layout "n" 8%nat 300 2000000 c1 = inr c2 /\
    cache c2 !! "k" = cache two_entry_cache !! "k".
Proof.
  apply (looked_up_key_survives_next_insertion two_entry_cache "k" "n"
           8%nat 300 2000000 2000000).
  - split.
    + refine (bool_decide_unpack _ _). vm_compute. exact I.
    + vm_compute. reflexivity.
  - eexists. reflexivity.
  - vm_compute. lia.
  - discriminate.
Defined.

(** *** The connection pool, continued *)

(** The entry of a pool marked as lent at time [now]. *)
Lemma scan_found (self : ConnectionManager) (now : Z) (pool : Pool) :
  forall cl c pool',
    scan self now pool = (cl, Some (c, pool')) ->
    exists l1 conn_id conn_info l2,
      pool = l1 ++ (conn_id, conn_info) :: l2 /\
      pool' = l1 ++ (conn_id,
                     {| connection := c; in_use := true;
                        created := created conn_info; last_used := now |})
                 :: l2 /\
      connection conn_info = c /\ in_use conn_info = false.
Proof.
  induction pool as [|[conn_id conn_info] rest IH]; intros cl c pool';
    cbn [scan]; [discriminate|].
  destruct (in_use conn_info) eqn:Eu; cbn [negb].
  - destruct (scan self now rest) as [cl' [[c' rest']|]] eqn:Es;
      [|discriminate].
    intros [= <- <- <-].
    destruct (IH _ _ _ eq_refl) as (l1 & i & info & l2 & -> & -> & H).
    exists ((conn_id, conn_info) :: l1), i, info, l2. auto.
  - destruct (_is_connection_expired self conn_info now) eqn:Ee.
    + destruct (scan self now rest) as [cl' [[c' rest']|]] eqn:Es;
        [|discriminate].
      intros [= <- <- <-].
      destruct (IH _ _ _ eq_refl) as (l1 & i & info & l2 & -> & -> & H).
      exists ((conn_id, conn_info) :: l1), i, info, l2. auto.
    + intros [= <- <- <-]. exists [], conn_id, conn_info, rest. auto.
Qed.

(** A pool with an idle entry that has not expired yields a connection. *)
Lemma scan_finds_some (self : ConnectionManager) (now : Z) (pool : Pool) :
  Exists (fun p => in_use (snd p) = false /\
                   _is_connection_expired self (snd p) now = false) pool ->
  exists cl c pool', scan self now pool = (cl, Some (c, pool')).
Proof.
  induction 1 as [[conn_id conn_info] rest [Hu He]
                 |[conn_id conn_info] rest _ IH]; cbn [scan].
  - cbn [snd] in *. rewrite Hu, He. cbn [negb]. eauto.
  - destruct IH as (cl & c & pool' & ->).
    destruct (negb (in_use conn_info)).
    + destruct (_is_connection_expired self conn_info now); eauto.
    + eauto.
Qed.

Lemma connections_of_app (l1 l2 : Pool) :
  connections_of (l1 ++ l2) = connections_of l1 ++ connections_of l2.
Proof. unfold connections_of. apply map_app. Qed.

Lemma lent_app (l1 l2 : Pool) : lent (l1 ++ l2) = lent l1 ++ lent l2.
Proof. unfold lent, Pool. now rewrite filter_app, connections_of_app. Qed.

Lemma lent_cons (p : string * ConnInfo) (l : Pool) :
  lent (p :: l)
  = if in_use (snd p) then connection (snd p) :: lent l else lent l.
Proof.
  unfold lent, Pool. destruct (in_use (snd p)) eqn:E.
  - rewrite filter_cons_True by exact E. reflexivity.
  - rewrite filter_cons_False by (rewrite E; discriminate). reflexivity.
Qed.

Lemma lent_subset (l : Pool) (c : Connection) :
  c ∈ lent l -> c ∈ connections_of l.
Proof.
  unfold lent, connections_of, Pool. intros H.
  apply list_elem_of_fmap in H as (p & -> & Hp).
  apply list_elem_of_filter in Hp as [_ Hp].
  apply list_elem_of_fmap. eauto.
Qed.

(** A key that the pool does not have is appended. *)
Lemma dict_set_fresh (key : string) (value : ConnInfo) (d : Pool) :
  key ∉ map fst d -> dict_set key value d = d ++ [(key, value)].
Proof.
  induction d as [|[k v] rest IH]; intros Hk; cbn [dict_set]; [reflexivity|].
  cbn [map fst] in Hk. apply not_elem_of_cons in Hk as [Hne Hk].
  destruct (decide (k = key)); [congruence|]. now rewrite IH.
Qed.

Lemma conn_key_inj (i j : nat) : conn_key i = conn_key j -> i = j.
Proof.
  unfold conn_key. intros H. apply (inj (String.app "conn_")) in H.
  now apply (inj pretty) in H.
Qed.

Lemma conn_key_fresh (n : nat) :
  conn_key n ∉ map conn_key (seq 0 n).
Proof.
  intros H. apply list_elem_of_fmap in H as (i & Hi & Hin).
  apply conn_key_inj in Hi. subst i.
  apply elem_of_seq in Hin. lia.
Qed.

Lemma release_in_other (c : Connection) (now : Z) (l : Pool) :
  obj_id c ∉ map obj_id (connections_of l) -> release_in c now l = l.
Proof.
  induction l as [|[k info] rest IH]; intros Hc; cbn [release_in];
    [reflexivity|].
  cbn in Hc. apply not_elem_of_cons in Hc as [Hne Hc].
  destruct (decide (obj_id (connection info) = obj_id c)); [congruence|].
  now rewrite IH.
Qed.

Lemma release_in_app (c : Connection) (now : Z) (l1 l2 : Pool) :
  obj_id c ∉ map obj_id (connections_of l1) ->
  release_in c now (l1 ++ l2) = l1 ++ release_in c now l2.
Proof.
  induction l1 as [|[k info] rest IH]; intros Hc; cbn [release_in app];
    [reflexivity|].
  cbn in Hc. apply not_elem_of_cons in Hc as [Hne Hc].
  destruct (decide (obj_id (connection info) = obj_id c)); [congruence|].
  now rewrite IH.
Qed.

(** What a successful acquire does to the pool of its server. *)
Lemma acquire_inv (sid : string) (now : Z) (self self' : ConnectionManager)
  (c : Connection) :
  pool_inv sid self ->
  _acquire_connection sid now self = (inr c, self') ->
  exists l1 l2 (conn_id : string) (info : ConnInfo),
    pool_of sid self' = l1 ++ (conn_id, info) :: l2 /\
    connection info = c /\ in_use info = true /\ last_used info = now /\
    lent (pool_of sid self) = lent l1 ++ lent l2 /\
    (obj_id c ∉ map obj_id (connections_of l1)) /\
    (obj_id c ∉ map obj_id (connections_of l2)) /\
    pool_inv sid self' /\
    c = {| server_id := sid; connected := true; obj_id := obj_id c |} /\
    (next_obj self <= next_obj self')%nat /\
    pool_size self' = pool_size self /\ idle_timeout self' = idle_timeout self.
Proof.
  intros (Hkeys & Hnd & Hall). unfold _acquire_connection.
  fold (pool_of sid self). cbv zeta.
  destruct (scan self now (pool_of sid self)) as [cl [[c' pool']|]] eqn:Es.
  - intros [= -> Hself].
    assert (Hpool' : pool_of sid self' = pool').
    { subst self'. unfold pool_of. cbn [active_connections].
      now rewrite lookup_insert_eq. }
    assert (Hnext : next_obj self' = next_obj self) by now subst self'.
    assert (Hps : pool_size self' = pool_size self) by now subst self'.
    assert (Hit : idle_timeout self' = idle_timeout self) by now subst self'.
    clear Hself.
    destruct (scan_found _ _ _ _ _ _ Es)
      as (l1 & k & info & l2 & Hp & -> & Hc & Hu).
    rewrite Hp in Hkeys, Hnd, Hall.
    rewrite connections_of_app in Hnd, Hall.
    change (connections_of ((k, info) :: l2))
      with (connection info :: connections_of l2) in Hnd, Hall.
    rewrite Hc in Hnd, Hall.
    rewrite map_app in Hnd. cbn [map] in Hnd.
    apply NoDup_app in Hnd as (Hnd1 & Hdis & Hnd2).
    pose proof Hnd2 as Hnd2'. apply NoDup_cons in Hnd2' as [Hc2 _].
    assert (Hc1 : obj_id c ∉ map obj_id (connections_of l1)).
    { intros Hin. apply (Hdis _ Hin). apply elem_of_cons. now left. }
    exists l1, l2, k,
      {| connection := c; in_use := true; created := created info;
         last_used := now |}.
    split; [exact Hpool'|]. split; [reflexivity|]. split; [reflexivity|].
    split; [reflexivity|].
    split.
    { rewrite Hp, lent_app, lent_cons. cbn [snd]. now rewrite Hu. }
    split; [exact Hc1|]. split; [exact Hc2|].
    split.
    { unfold pool_inv. cbv zeta. rewrite Hpool', Hnext. split; [|split].
      - rewrite !map_app, !length_app in *. exact Hkeys.
      - rewrite connections_of_app, map_app.
        apply NoDup_app. split; [exact Hnd1|]. split; [exact Hdis|].
        exact Hnd2.
      - rewrite connections_of_app. exact Hall. }
    apply Forall_app in Hall as [_ Hall].
    apply Forall_cons in Hall as [(Hs & Hcn & _) _].
    split; [destruct c; cbn in *; congruence|].
    split; [lia|]. auto.
  - destruct (len_lt (pool_of sid self) (pool_size self)) eqn:Eroom;
      [|discriminate].
    set (pool := pool_of sid self) in *.
    set (c0 := {| server_id := sid; connected := true;
                  obj_id := next_obj self |}).
    set (info := {| connection := c0; in_use := true; created := now;
                    last_used := now |}).
    intros [= <- Hself].
    assert (Hfresh : obj_id c0 ∉ map obj_id (connections_of pool)).
    { intros Hin. apply list_elem_of_fmap in Hin as (c' & Hid & Hin).
      rewrite List.Forall_forall in Hall.
      apply list_elem_of_In in Hin. apply Hall in Hin as (_ & _ & Hlt).
      cbn in Hid. lia. }
    assert (Hset : dict_set ("conn_" +:+ pretty (length pool)) info pool
                   = pool ++ [(conn_key (length pool), info)]).
    { apply dict_set_fresh. rewrite Hkeys. apply conn_key_fresh. }
    rewrite Hset in Hself.
    assert (Hpool' : pool_of sid self'
                     = pool ++ [(conn_key (length pool), info)]).
    { subst self'. unfold pool_of at 1. cbn [active_connections].
      now rewrite lookup_insert_eq. }
    assert (Hnext : next_obj self' = S (next_obj self)) by now subst self'.
    assert (Hps : pool_size self' = pool_size self) by now subst self'.
    assert (Hit : idle_timeout self' = idle_timeout self) by now subst self'.
    clear Hself.
    exists pool, [], (conn_key (length pool)), info.
    split; [exact Hpool'|]. split; [reflexivity|]. split; [reflexivity|].
    split; [reflexivity|].
    split; [now rewrite app_nil_r|]. split; [exact Hfresh|].
    split; [apply not_elem_of_nil|].
    split.
    { unfold pool_inv. cbv zeta. rewrite Hpool', Hnext. split; [|split].
      - rewrite map_app, length_app. cbn [map fst length].
        rewrite Nat.add_1_r, seq_S, map_app, Hkeys. reflexivity.
      - rewrite connections_of_app, map_app.
        apply NoDup_app. split; [exact Hnd|]. split; [|apply NoDup_singleton].
        intros x Hx Hx'. apply list_elem_of_singleton in Hx'. subst x.
        exact (Hfresh Hx).
      - rewrite connections_of_app. apply Forall_app. split.
        + eapply Forall_impl; [exact Hall|]. cbn. intros x (? & ? & ?).
          repeat split; auto.
        + constructor; [|constructor]. cbn. repeat split; auto. }
    split; [reflexivity|]. split; [lia|]. auto.
Qed.

(** An acquire that raises leaves every pool as it was. *)
Lemma acquire_raises_inv (sid : string) (now : Z)
  (self self' : ConnectionManager) (e : py_exception) :
  _acquire_connection sid now self = (inl e, self') ->
  e = ConnectionError "Connection pool exhausted" /\
  active_connections self' = active_connections self /\
  next_obj self' = next_obj self.
Proof.
  unfold _acquire_connection. cbv zeta.
  destruct (scan self now _) as [cl [[c' pool']|]]; [discriminate|].
  destruct (len_lt _ _); [discriminate|].
  intros [= <- <-]. auto.
Qed.

(** Giving back the connection that an acquire returned. *)
Lemma release_after_acquire (sid : string) (t : Z) (self : ConnectionManager)
  (c : Connection) (l1 l2 : Pool) (conn_id : string) (info : ConnInfo) :
  pool_of sid self = l1 ++ (conn_id, info) :: l2 ->
  connection info = c ->
  (obj_id c ∉ map obj_id (connections_of l1)) ->
  let self' := _release_connection sid c t self in
  pool_of sid self'
  = l1 ++ (conn_id, {| connection := c; in_use := false;
                       created := created info; last_used := t |}) :: l2 /\
  next_obj self' = next_obj self /\ idle_timeout self' = idle_timeout self /\
  pool_size self' = pool_size self /\ closed self' = closed self.
Proof.
  intros Hp Hc Hc1. unfold _release_connection, pool_of in *.
  destruct (active_connections self !! sid) as [pool|] eqn:Ea.
  - change (default [] (Some pool)) with pool in Hp. subst pool.
    cbn [active_connections next_obj idle_timeout pool_size closed].
    rewrite lookup_insert_eq. change (default [] (Some ?p)) with p.
    rewrite release_in_app by exact Hc1. cbn [release_in].
    rewrite Hc. destruct (decide (obj_id c = obj_id c)); [|congruence].
    auto.
  - cbn in Hp. destruct l1; discriminate.
Qed.

Lemma length_dict_set (key : string) (value : ConnInfo) (d : Pool) :
  (length d <= length (dict_set key value d) <= S (length d))%nat.
Proof.
  induction d as [|[k v] rest IH]; cbn [dict_set length]; [lia|].
  destruct (decide (k = key)); cbn [length]; lia.
Qed.

Lemma pool_of_insert (sid other : string) (p : Pool) (ps it : Z)
  (ac : gmap string Pool) (cl : list Connection) (n : nat) :
  pool_of other {| pool_size := ps; idle_timeout := it;
                   active_connections := <[sid := p]> ac;
                   closed := cl; next_obj := n |}
  = if decide (other = sid) then p else default [] (ac !! other).
Proof.
  unfold pool_of. cbn [active_connections].
  destruct (decide (other = sid)) as [->|Hne].
  - now rewrite lookup_insert_eq.
  - now rewrite lookup_insert_ne by congruence.
Qed.

(** X22.  An acquire never lets the pool of a server grow beyond
    [pool_size], never removes an entry from it, and leaves the pools of
    the other servers alone, whether it returns a connection or raises. *)
Theorem pool_stays_within_its_size (sid : string) (now : Z)
  (self : ConnectionManager) :
  Z.of_nat (length (pool_of sid self)) <= pool_size self ->
  let '(_, self') := _acquire_connection sid now self in
  Z.of_nat (length (pool_of sid self')) <= pool_size self' /\
  (length (pool_of sid self) <= length (pool_of sid self'))%nat /\
  forall other, other <> sid -> pool_of other self' = pool_of other self.
Proof.
  intros Hlen. unfold _acquire_connection. fold (pool_of sid self). cbv zeta.
  destruct (scan self now (pool_of sid self)) as [cl [[c pool']|]] eqn:Es.
  - destruct (scan_found _ _ _ _ _ _ Es)
      as (l1 & k & info & l2 & Hp & -> & _).
    rewrite pool_of_insert. cbn [pool_size].
    destruct (decide (sid = sid)); [|congruence].
    rewrite Hp in *. rewrite !length_app in *. cbn [length] in *.
    split; [exact Hlen|]. split; [lia|].
    intros other Hne. rewrite pool_of_insert.
    destruct (decide (other = sid)); [congruence|reflexivity].
  - unfold len_lt.
    destruct (Z.ltb_spec (Z.of_nat (length (pool_of sid self)))
                         (pool_size self)) as [Hroom|Hfull].
    + rewrite pool_of_insert. cbn [pool_size].
      destruct (decide (sid = sid)); [|congruence].
      match goal with
      | |- context [dict_set ?k ?v ?d] =>
        pose proof (length_dict_set k v d) as Hd
      end.
      split; [lia|]. split; [lia|].
      intros other Hne. rewrite pool_of_insert.
      destruct (decide (other = sid)); [congruence|reflexivity].
    + unfold pool_of. cbn [active_connections pool_size].
      split; [exact Hlen|]. split; [lia|]. reflexivity.
Qed.

Lemma pool_stays_within_its_size_witness :
  let '(_, self') := _acquire_connection "server1" 0 (new_manager 2 1) in
  Z.of_nat (length (pool_of "server1" self')) <= pool_size self' /\
  (length (pool_of "server1" (new_manager 2 1))
   <= length (pool_of "server1" self'))%nat /\
  forall other, other <> "server1" ->
    pool_of other self' = pool_of other (new_manager 2 1).
Proof.
  apply (pool_stays_within_its_size "server1" 0 (new_manager 2 1)).
  vm_compute. discriminate.
Defined.

(** X23.  A connection that [_acquire_connection] returns was not lent
    out before the call and is lent out after it, and no other
    connection changes hands; it is a connected connection to the server
    asked for.  The invariant of the pool is kept. *)
Theorem connection_is_lent_to_one_holder (sid : string) (now : Z)
  (self self' : ConnectionManager) (c : Connection) :
  pool_inv sid self ->
  _acquire_connection sid now self = (inr c, self') ->
  (c ∉ lent (pool_of sid self)) /\
  lent (pool_of sid self') ≡ₚ c :: lent (pool_of sid self) /\
  c = {| server_id := sid; connected := true; obj_id := obj_id c |} /\
  pool_inv sid self'.
Proof.
  intros Hinv Ha.
  destruct (acquire_inv sid now self self' c Hinv Ha)
    as (l1 & l2 & k & info & Hp & Hc & Hu & _ & Hl & Hc1 & Hc2 & Hinv' & Hshape & _).
  split; [|split; [|split]]; [| |exact Hshape|exact Hinv'].
  - rewrite Hl. intros Hin. apply elem_of_app in Hin as [Hin|Hin];
      apply lent_subset in Hin; [apply Hc1|apply Hc2];
      apply list_elem_of_fmap; eauto.
  - rewrite Hp, Hl, lent_app, lent_cons. cbn [snd]. rewrite Hu, Hc.
    symmetry. apply Permutation_middle.
Qed.

Lemma connection_is_lent_to_one_holder_witness :
  (conn 0 ∉ lent (pool_of "server1" (new_manager 2 1))) /\
  lent (pool_of "server1" (acquired "server1" 0 (new_manager 2 1)))
    ≡ₚ conn 0 :: lent (pool_of "server1" (new_manager 2 1)) /\
  conn 0 = {| server_id := "server1"; connected := true;
              obj_id := obj_id (conn 0) |} /\
  pool_inv "server1" (acquired "server1" 0 (new_manager 2 1)).
Proof.
  apply (connection_is_lent_to_one_holder "server1" 0 (new_manager 2 1)).
  - split; [reflexivity|]. split; constructor.
  - reflexivity.
Defined.

(** X24.  A connection given back is used again: within [idle_timeout]
    of the release, the next acquire for the server is served from the
    pool and makes no new connection. *)
Theorem released_connection_is_reused (sid : string) (t1 t2 t3 : Z)
  (self self1 : ConnectionManager) (c : Connection) :
  pool_inv sid self ->
  _acquire_connection sid t1 self = (inr c, self1) ->
  t3 - t2 <= idle_timeout self * 1000000 ->
  let self2 := _release_connection sid c t2 self1 in
  exists c' self3,
    _acquire_connection sid t3 self2 = (inr c', self3) /\
    c' ∈ connections_of (pool_of sid self1) /\
    next_obj self3 = next_obj self1.
Proof.
  intros Hinv Ha Ht.
  destruct (acquire_inv sid t1 self self1 c Hinv Ha)
    as (l1 & l2 & k & info & Hp & Hc & Hu & _ & Hl & Hc1 & Hc2 & Hinv' & _ & _ & _ & Hit).
  destruct (release_after_acquire sid t2 self1 c l1 l2 k info Hp Hc Hc1)
    as (Hp2 & Hn2 & Hit2 & _).
  cbv zeta. set (self2 := _release_connection sid c t2 self1) in *.
  assert (Hex : Exists (fun p => in_use (snd p) = false /\
                          _is_connection_expired self2 (snd p) t3 = false)
                  (pool_of sid self2)).
  { rewrite Hp2. apply Exists_app. right. apply Exists_cons_hd.
    cbn [snd]. unfold _is_connection_expired. cbn [in_use last_used negb].
    split; [reflexivity|]. rewrite Hit2, Hit. apply Z.ltb_ge. exact Ht. }
  destruct (scan_finds_some self2 t3 _ Hex) as (cl & c' & pool' & Hs).
  destruct (scan_returns_fresh self2 t3 _ _ _ _ Hs)
    as (i & info' & Hin & Hc' & _).
  unfold _acquire_connection. fold (pool_of sid self2). cbv zeta.
  rewrite Hs. eexists _, _. split; [reflexivity|].
  split; [|cbn [next_obj]; exact Hn2].
  rewrite Hp2 in Hin. rewrite Hp. subst c'.
  rewrite !connections_of_app. apply in_app_or in Hin.
  apply elem_of_app. destruct Hin as [Hin|[Hin|Hin]].
  - left. unfold connections_of. apply list_elem_of_fmap.
    exists (i, info'). split; [reflexivity|]. now apply list_elem_of_In.
  - right. injection Hin as <- <-. cbn. rewrite Hc. apply elem_of_cons. now left.
  - right. apply elem_of_cons. right. unfold connections_of.
    apply list_elem_of_fmap.
    exists (i, info'). split; [reflexivity|]. now apply list_elem_of_In.
Qed.

Lemma released_connection_is_reused_witness :
  exists c' self3,
    _acquire_connection "server1" 1000000
      (_release_connection "server1" (conn 0) 500000
         (acquired "server1" 0 (new_manager 2 1)))
    = (inr c', self3) /\
    c' ∈ connections_of
           (pool_of "server1" (acquired "server1" 0 (new_manager 2 1))) /\
    next_obj self3 = next_obj (acquired "server1" 0 (new_manager 2 1)).
Proof.
  apply (released_connection_is_reused "server1" 0 500000 1000000
           (new_manager 2 1)).
  - split; [reflexivity|]. split; constructor.
  - reflexivity.
  - vm_compute. discriminate.
Defined.

(** X25.  [get_connection] gives the connection back on every way out
    of its block.  Whether the pool is exhausted, the block returns or
    the block raises, the same connections are lent out afterwards as
    before, and the invariant of the pool is kept.  The block here uses
    the connection and leaves the manager alone. *)
Theorem connection_is_released_on_every_exit {A : Type} (sid : string)
  (t_acquire t_release : Z) (block : Connection -> outcome A)
  (self self' : ConnectionManager) (r : outcome A) :
  pool_inv sid self ->
  get_connection sid t_acquire t_release (fun c m => (block c, m)) self
  = (r, self') ->
  lent (pool_of sid self') = lent (pool_of sid self) /\
  pool_inv sid self' /\
  (r = Raises (ConnectionError "Connection pool exhausted") \/
   exists c, r = block c /\ server_id c = sid).
Proof.
  intros Hinv. unfold get_connection.
  destruct (_acquire_connection sid t_acquire self) as [[e|c] self1] eqn:Ea.
  - intros [= <- <-].
    destruct (acquire_raises_inv _ _ _ _ _ Ea) as (-> & Hac & Hn).
    unfold pool_inv, pool_of in *. rewrite Hac, Hn. auto.
  - intros [= <- <-].
    destruct (acquire_inv sid t_acquire self self1 c Hinv Ea)
      as (l1 & l2 & k & info & Hp & Hc & Hu & _ & Hl & Hc1 & Hc2 & Hinv'
          & Hshape & _).
    destruct (release_after_acquire sid t_release self1 c l1 l2 k info
                Hp Hc Hc1) as (Hp2 & Hn2 & _).
    cbv zeta in Hp2, Hn2.
    split; [|split].
    + rewrite Hp2, Hl, lent_app, lent_cons. reflexivity.
    + destruct Hinv' as (Hkeys & Hnd & Hall).
      unfold pool_inv. cbv zeta. rewrite Hp2, Hn2.
      rewrite Hp in Hkeys, Hnd, Hall.
      rewrite connections_of_app in *.
      change (connections_of ((k, info) :: l2))
        with (connection info :: connections_of l2) in Hnd, Hall.
      rewrite Hc in Hnd, Hall.
      rewrite !map_app, !length_app in *. auto.
    + right. exists c. split; [reflexivity|]. rewrite Hshape. reflexivity.
Qed.

Lemma connection_is_released_on_every_exit_witness :
  lent (pool_of "server1"
          (snd (get_connection "server1" 0 500000 failing_body
                  (new_manager 2 1))))
  = lent (pool_of "server1" (new_manager 2 1)) /\
  pool_inv "server1"
    (snd (get_connection "server1" 0 500000 failing_body
            (new_manager 2 1))) /\
  (@Raises nat (Exception "boom")
   = Raises (ConnectionError "Connection pool exhausted") \/
   exists c, @Raises nat (Exception "boom") = Raises (Exception "boom") /\
             server_id c = "server1").
Proof.
  apply (connection_is_released_on_every_exit "server1" 0 500000
           (fun _ => @Raises nat (Exception "boom")) (new_manager 2 1)).
  - split; [reflexivity|]. split; constructor.
  - reflexivity.
Defined.

(** X26.  [cleanup] closes every connection of every pool, keeps what
    was closed before, and empties the table; an acquire that follows is
    not served from an old pool: it makes a new connection if
    [pool_size] is positive and raises otherwise. *)
Theorem cleanup_closes_every_connection (self : ConnectionManager) :
  (forall sid server_pool c,
     active_connections self !! sid = Some server_pool ->
     c ∈ connections_of server_pool -> c ∈ closed (cleanup self)) /\
  (forall c, c ∈ closed self -> c ∈ closed (cleanup self)) /\
  (forall sid, pool_of sid (cleanup self) = []) /\
  (forall sid now,
     fst (_acquire_connection sid now (cleanup self))
     = if 0 <? pool_size self
       then inr {| server_id := sid; connected := true;
                   obj_id := next_obj self |}
       else inl (ConnectionError "Connection pool exhausted")).
Proof.
  split; [|split; [|split]].
  - intros sid server_pool c Hs Hc. unfold cleanup. cbn [closed].
    apply elem_of_app. right. apply list_elem_of_In, in_concat.
    exists (connections_of server_pool). split; [|now apply list_elem_of_In].
    apply in_map_iff. exists (sid, server_pool). split; [reflexivity|].
    apply list_elem_of_In. now apply elem_of_map_to_list.
  - intros c Hc. unfold cleanup. cbn [closed]. apply elem_of_app. now left.
  - intros sid. unfold pool_of, cleanup. cbn [active_connections].
    now rewrite lookup_empty.
  - intros sid now. unfold _acquire_connection, cleanup.
    cbn [active_connections]. rewrite lookup_empty.
    cbn [default from_option scan len_lt length pool_size next_obj].
    unfold len_lt. cbn [length]. change (Z.of_nat 0) with 0.
    destruct (0 <? pool_size self); reflexivity.
Qed.

End RecoveryMore.

(** ** Server integration *)

Module ServerFacts.
Import Server.

Lemma process_data_servers_loop_map {A} (servers : list (ServerData A)) :
  forall processed,
    process_data_servers_loop servers processed
    = processed ++ map entry_of servers.
Proof.
  induction servers as [|s rest IH]; intros processed;
    cbn [process_data_servers_loop map].
  - now rewrite app_nil_r.
  - assert (Hs : match try_server s with
                 | inr p => p
                 | inl e => status_error (req_device_id s) (message_of e)
                 end = entry_of s).
    { unfold try_server, entry_of, _verify_server_credentials,
        _update_server_attributes, getitem. cbn [negb].
      destruct (req_device_id s), (req_attributes s); reflexivity. }
    destruct (try_server s) as [e|p]; rewrite IH, <- Hs, <- app_assoc;
      reflexivity.
Qed.

(** X27.  [_process_data_servers] never raises and reports on every
    server, in order: a server with a device id and attributes is
    reported as updated, with its attributes unchanged; one without is
    reported as an error that names the missing key, and the servers
    after it are processed all the same. *)
Theorem every_data_server_is_reported {A} (servers : list (ServerData A)) :
  _process_data_servers servers = map entry_of servers.
Proof.
  unfold _process_data_servers. now rewrite process_data_servers_loop_map.
Qed.

Lemma process_mirrors_loop_ok {A} (ms : list (MirrorData A)) :
  forall processed,
    Forall complete ms ->
    exists result,
      process_mirrors_loop ms processed = inr (processed ++ result) /\
      length result = length ms.
Proof.
  induction ms as [|m rest IH]; intros processed Hall;
    cbn [process_mirrors_loop].
  - exists []. now rewrite app_nil_r.
  - apply Forall_cons in Hall as [[[i Hi] [ds Hds]] Hall].
    rewrite Hi, Hds. cbn [getitem].
    destruct (IH (processed ++ [{| processed_mirror_id := i;
                                   processed_servers :=
                                     _process_data_servers ds |}]) Hall)
      as (result & -> & Hlen).
    eexists (_ :: result). rewrite <- app_assoc. split; [reflexivity|].
    cbn. now rewrite Hlen.
Qed.

Lemma process_mirrors_loop_raises {A} (ms : list (MirrorData A)) :
  forall processed,
    ~ Forall complete ms ->
    exists key, process_mirrors_loop ms processed = inl (KeyError_key key).
Proof.
  induction ms as [|m rest IH]; intros processed Hnot;
    cbn [process_mirrors_loop].
  - exfalso. apply Hnot. constructor.
  - destruct (req_data_servers m) as [ds|] eqn:Hds; cbn [getitem]; [|eauto].
    destruct (req_mirror_id m) as [i|] eqn:Hi; cbn [getitem]; [|eauto].
    apply IH. intros Hall. apply Hnot. constructor; [|exact Hall].
    split; [rewrite Hi|rewrite Hds]; eauto.
Qed.

(** X28.  [process_layout_wcc] never raises.  It answers with status
    success exactly when the request has a session id and mirrors and
    every mirror has an id and a list of data servers, whatever the data
    servers are; the result then has one entry per mirror and is stored
    in the layout cache under the session id.  In every other case the
    answer has status error and the cache is left as it was. *)
Theorem layout_request_succeeds_iff {A} (request : Request A) (now : Z)
  (self : NFSServerIntegration A) :
  let '(response, self') := process_layout_wcc request now self in
  match response with
  | status_success result =>
    exists session ms,
      req_session_id request = Some session /\ req_mirrors request = Some ms /\
      Forall complete ms /\ length result = length ms /\
      _layout_cache self'
      = <[session := {| cached_layout := result; cached_at := now |}]>
          (_layout_cache self)
  | status_failure message =>
    ~ (is_Some (req_session_id request) /\
       exists ms, req_mirrors request = Some ms /\ Forall complete ms) /\
    self' = self
  end.
Proof.
  unfold process_layout_wcc, try_layout_wcc, _validate_request.
  destruct (req_session_id request) as [session|] eqn:Hs;
    destruct (req_mirrors request) as [ms|] eqn:Hm; cbn [negb getitem].
  - destruct (decide (Forall complete ms)) as [Hall|Hnot].
    + destruct (process_mirrors_loop_ok ms [] Hall) as (result & Hr & Hlen).
      unfold _process_mirrors. rewrite Hr. cbn [app].
      exists session, ms. repeat split; auto.
    + destruct (process_mirrors_loop_raises ms [] Hnot) as (key & Hr).
      unfold _process_mirrors. rewrite Hr. split; [|reflexivity].
      intros (_ & ms' & [= <-] & Hall). contradiction.
  - split; [|reflexivity]. intros (_ & ms' & [=] & _).
  - split; [|reflexivity]. intros ([? [=]] & _).
  - split; [|reflexivity]. intros ([? [=]] & _).
Qed.

(** X29.  [initialize] raises on every object that the constructor
    makes: [_register_operation_handler] reads [self._server], which
    nothing sets. *)
Theorem initialize_always_raises {A} (config : NFSServerConfig) :
  initialize (new_server (A := A) config)
  = inl (AttributeError "NFSServerIntegration" "_server").
Proof. reflexivity. Qed.

End ServerFacts.
